(** * Embdr Node.JS client: the submission and polling state machine

    A shallow embedding of [lib/embdr.js] and [lib/api/resources.js].

    - JavaScript objects indexed by property name (the [data] and [options]
      objects of the REST helpers) are finite maps from strings to values.
    - The client configuration [_api] is a record with one field per key the
      client ever writes.
    - [process] is asynchronous: its continuation runs when the HTTP layer, a
      stream or a timer calls back.  It is modelled as a transition system
      whose events are those call-backs and whose state holds the closures
      ([callbacks], [hasPollingCallbacks], [pollingTimeout], ...) of every
      [process] invocation, the options object they share, and the trace of
      observable actions (HTTP requests, timers, user callbacks). *)

From Stdlib Require Import ZArith Ascii DecimalString.
From stdpp Require Import gmap strings list fin_maps.

Local Open Scope Z_scope.

(** ** JavaScript values *)

(** The three shapes of an item handed to [process]; a stream is either opened
    from a path by [fs.createReadStream], supplied by the caller, or the
    request object returned by [request(item)]. *)
Inductive Item :=
| ItemString (s : string)
| ItemStream (st : Stream)
| ItemBuffer (b : string)
with Stream :=
| ReadStream (path : string)
| UserStream (name : string)
| RequestStream (target : Item).

(** Values stored in request data and in size options. *)
Inductive Value :=
| VUndefined
| VNull
| VString (s : string)
| VArray (xs : list string)
| VStream (st : Stream)
| VBuffer (b : string).

(** JavaScript truthiness ([if (v)], [!v], [a || b], [a && b]). *)
Definition truthy (v : Value) : bool :=
  match v with
  | VUndefined | VNull => false
  | VString s => negb (String.eqb s "")
  | VArray _ | VStream _ | VBuffer _ => true
  end.

(** [obj[name]]: a missing property reads as [undefined]. *)
Definition prop (obj : gmap string Value) (name : string) : Value :=
  default VUndefined (obj !! name).

(** [Array.prototype.join] on an array of strings. *)
Fixpoint join (sep : string) (xs : list string) : string :=
  match xs with
  | [] => ""
  | [x] => x
  | x :: rest => x +:+ sep +:+ join sep rest
  end.

(** [String.prototype.toLowerCase] on ASCII text. *)
Definition lower_ascii (c : ascii) : ascii :=
  let n := N_of_ascii c in
  if ((65 <=? n) && (n <=? 90))%N then ascii_of_N (n + 32) else c.

Fixpoint toLowerCase (s : string) : string :=
  match s with
  | EmptyString => EmptyString
  | String c rest => String (lower_ascii c) (toLowerCase rest)
  end.

(** Error objects handed to callbacks: [{code, message, err}]. *)
Record Error := mkError {
  code : option Z;
  message : option string;
  err : option string
}.

(** ** Client configuration *)

(** A port is documented as a number but defaults to the string ['80']. *)
Inductive Port :=
| PortNum (n : Z)
| PortStr (s : string).

Definition port_truthy (p : Port) : bool :=
  match p with
  | PortNum n => negb (n =? 0)
  | PortStr s => negb (String.eqb s "")
  end.

Record Api := mkApi {
  auth : option string;
  host : string;
  port : Port;
  basePath : string;
  protocol : string;
  strictSSL : option bool
}.

Definition DEFAULT_HOST : string := "embdr.io".
Definition DEFAULT_PORT : Port := PortStr "80".
Definition DEFAULT_PROTOCOL : string := "http".
Definition DEFAULT_BASE_PATH : string := "/api".
Definition DEFAULT_POLLING_INITIAL_TIMEOUT : Z := 2000.
Definition DEFAULT_POLLING_BACKOFF_DENOMINATOR : Z := 4.

(** The key/value pairs that [_setApiField] is called with. *)
Inductive ApiField :=
| FAuth (v : string)
| FHost (v : string)
| FPort (v : Port)
| FBasePath (v : string)
| FProtocol (v : string)
| FStrictSSL (v : bool).

Definition _setApiField (kv : ApiField) (a : Api) : Api :=
  match kv with
  | FAuth v => mkApi (Some v) (host a) (port a) (basePath a) (protocol a) (strictSSL a)
  | FHost v => mkApi (auth a) v (port a) (basePath a) (protocol a) (strictSSL a)
  | FPort v => mkApi (auth a) (host a) v (basePath a) (protocol a) (strictSSL a)
  | FBasePath v => mkApi (auth a) (host a) (port a) v (protocol a) (strictSSL a)
  | FProtocol v => mkApi (auth a) (host a) (port a) (basePath a) v (strictSSL a)
  | FStrictSSL v => mkApi (auth a) (host a) (port a) (basePath a) (protocol a) (Some v)
  end.

Definition setPort (p : Port) (a : Api) : Api := _setApiField (FPort p) a.

Definition setProtocol (p : string) (a : Api) : Api :=
  _setApiField (FProtocol (toLowerCase p)) a.

Definition setBasePath (b : string) (a : Api) : Api :=
  _setApiField (FBasePath (toLowerCase b)) a.


Definition setHost (h : string) (p : option Port) (proto : option string) (a : Api) : Api :=
  let a1 := _setApiField (FHost h) a in
  let a2 := match p with
            | Some p' => if port_truthy p' then setPort p' a1 else a1
            | None => a1
            end in
  match proto with
  | Some s => if negb (String.eqb s "") then setProtocol s a2 else a2
  | None => a2
  end.

(** [Buffer.prototype.toString('base64')] of the bytes of a string. *)
Definition b64_char (n : N) : ascii :=
  (if n <? 26 then ascii_of_N (65 + n)
   else if n <? 52 then ascii_of_N (97 + (n - 26))
   else if n <? 62 then ascii_of_N (48 + (n - 52))
   else if n =? 62 then "+"%char else "/"%char)%N.

Fixpoint base64 (s : string) : string :=
  match s with
  | EmptyString => EmptyString
  | String a EmptyString =>
      let x := N_of_ascii a in
      String (b64_char (x / 4)) (String (b64_char ((x mod 4) * 16)) "==")%N
  | String a (String b EmptyString) =>
      let x := N_of_ascii a in
      let y := N_of_ascii b in
      (String (b64_char (x / 4))
        (String (b64_char ((x mod 4) * 16 + y / 16))
          (String (b64_char ((y mod 16) * 4)) "=")))%N
  | String a (String b (String c rest)) =>
      let x := N_of_ascii a in
      let y := N_of_ascii b in
      let z := N_of_ascii c in
      (String (b64_char (x / 4))
        (String (b64_char ((x mod 4) * 16 + y / 16))
          (String (b64_char ((y mod 16) * 4 + z / 64))
            (String (b64_char (z mod 64)) (base64 rest)))))%N
  end.

(** [setApiKey]: nothing is stored for a missing or empty key. *)
Definition setApiKey (key : option string) (a : Api) : Api :=
  match key with
  | Some k =>
      if negb (String.eqb k "")
      then _setApiField (FAuth ("Basic " +:+ base64 (k +:+ ":"))) a
      else a
  | None => a
  end.

(** The constructor: [strictSSL] is not among the fields it initialises. *)
Definition Embdr (key : option string) : Api :=
  setApiKey key
    {| auth := None; host := DEFAULT_HOST; port := DEFAULT_PORT;
       basePath := DEFAULT_BASE_PATH; protocol := DEFAULT_PROTOCOL;
       strictSSL := None |}.

(** ** The HTTP layer *)

Inductive Method := GET | POST.

(** What [_request] hands to the [request] library.  A multipart body records
    the parts appended to the form: their order is whatever the engine's sort
    makes of the one-argument comparator, and is not modelled. *)
Inductive Body :=
| NoBody
| Qs (d : gmap string Value)
| Form (d : gmap string Value)
| Multipart (parts : gmap string Value).

Record HttpRequest := mkRequest {
  req_url : string;
  req_method : Method;
  req_strictSSL : option bool;
  req_authorization : option string;
  req_body : Body
}.

(** One entry of the sanitising loop of [_request]: [null] and [undefined]
    are deleted, arrays are compacted and deleted when nothing is left. *)
Definition sanitize (v : Value) : option Value :=
  match v with
  | VUndefined | VNull => None
  | VArray xs =>
      match filter (λ s, s ≠ "") xs with
      | [] => None
      | ys => Some (VArray ys)
      end
  | _ => Some v
  end.

Definition is_binary (v : Value) : bool :=
  match v with
  | VStream _ | VBuffer _ => true
  | _ => false
  end.

Definition map_some (P : Value → bool) (d : gmap string Value) : bool :=
  bool_decide (Exists (λ kv, P kv.2 = true) (map_to_list d)).

Section Builtins.

(** Node built-ins the client calls: the [%d] conversion of [util.format],
    the global [encodeURIComponent], and whether [fs.createReadStream]
    throws (with what) for a path. *)
Variable format_d : Port → string.
Variable js_encodeURIComponent : string → string.
Variable createReadStream_throws : string → option string.

Definition request_url (a : Api) (path : string) : string :=
  protocol a +:+ "://" +:+ host a +:+ ":" +:+ format_d (port a) +:+ basePath a +:+ path.

Definition _request (a : Api) (method : Method) (path : string)
    (data : option (gmap string Value)) : HttpRequest :=
  let data := omap sanitize (default ∅ data) in
  let body :=
    if decide (data = ∅) then NoBody
    else match method with
         | GET => Qs data
         | POST =>
             if map_some is_binary data
             then Multipart (filter (λ kv, kv.1 ≠ "" ∧ truthy kv.2 = true) data)
             else Form data
         end in
  {| req_url := request_url a path;
     req_method := method;
     req_strictSSL := strictSSL a;
     req_authorization := auth a;
     req_body := body |}.

(** ** The resources API *)

(** [addSizes(data, options, name)] *)
Definition addSizes (data options : gmap string Value) (name : string)
    : gmap string Value :=
  let sizes := prop options name in
  if negb (truthy sizes) then data
  else
    let sizes := match sizes with
                 | VArray xs => VString (join "," xs)
                 | other => other
                 end in
    <[name := sizes]> data.

(** What a creation call does before it returns: it may call back at once
    with an error (the stream could not be opened), throw (the file has no
    [on] method), or send the request, with or without an error listener
    attached to the uploaded stream. *)
Inductive Creation :=
| OpenFailed (e : Error)
| Thrown
| Submitted (listener : bool) (r : HttpRequest).

Definition STREAM_OPEN_MESSAGE : string :=
  "A stream could not be opened for the provided path".
Definition STREAM_READ_MESSAGE : string :=
  "An error occurred when reading from the stream".

Definition file_data (file : Stream) (options : gmap string Value)
    : gmap string Value :=
  let data := {[ "file" := VStream file ]} in
  let data := addSizes data options "thumbnailSizes" in
  addSizes data options "imagePreviewSizes".

Definition createFile (a : Api) (file : Item) (options : gmap string Value)
    : Creation :=
  match file with
  | ItemString path =>
      match createReadStream_throws path with
      | Some e => OpenFailed (mkError None (Some STREAM_OPEN_MESSAGE) (Some e))
      | None =>
          Submitted true
            (_request a POST "/resources" (Some (file_data (ReadStream path) options)))
      end
  | ItemStream st =>
      Submitted true (_request a POST "/resources" (Some (file_data st options)))
  | ItemBuffer _ => Thrown
  end.

Definition link_data (link : string) (options : gmap string Value)
    : gmap string Value :=
  let data := {[ "link" := VString link ]} in
  let data := addSizes data options "thumbnailSizes" in
  addSizes data options "imagePreviewSizes".

Definition createLink (a : Api) (link : string) (options : gmap string Value)
    : Creation :=
  Submitted false (_request a POST "/resources" (Some (link_data link options))).

(** [ProcessrUtil.encodeURIComponent]: [null] encodes to the empty string. *)
Definition encodeURIComponent (id : option string) : string :=
  match id with
  | None => ""
  | Some s => js_encodeURIComponent s
  end.

Definition get (a : Api) (id : option string) : HttpRequest :=
  _request a GET ("/resources/" +:+ encodeURIComponent id) None.

End Builtins.

(** ** Resources, callbacks and options *)

(** A processor (thumbnail or image preview) of a resource. *)
Record Job := mkJob {
  job_name : string;
  job_status : string
}.

Record Resource := mkResource {
  res_id : option string;
  res_status : string;
  res_thumbnails : list Job;
  res_images : list Job
}.

(** Function values: a callback of the caller, or the [function() {}] that
    [process] puts where none was given.  (Callback URLs, which the
    documentation announces, are a TODO in the source.) *)
Inductive Fn :=
| UserFn (name : string)
| Noop.

Record Processors := mkProcessors {
  sizes : Value;
  complete : option Fn
}.

(** The [options] object; [None] is a property that is not set. *)
Record Options := mkOptions {
  o_start : option Fn;
  o_error : option Fn;
  o_complete : option Fn;
  o_images : option Processors;
  o_thumbnails : option Processors
}.

(** The five keys of the [callbacks] object. *)
Inductive Slot := SStart | SError | SComplete | SImages | SThumbnails.

(** [_.once(fn)]: the function and whether it has run. *)
Record Once := mkOnce {
  once_fn : Fn;
  once_called : bool
}.

Definition once (fn : Fn) : Once := mkOnce fn false.

Record Callbacks := mkCallbacks {
  cb_start : Once;
  cb_error : Once;
  cb_complete : Once;
  cb_images : Once;
  cb_thumbnails : Once
}.

Definition cb_get (c : Callbacks) (s : Slot) : Once :=
  match s with
  | SStart => cb_start c
  | SError => cb_error c
  | SComplete => cb_complete c
  | SImages => cb_images c
  | SThumbnails => cb_thumbnails c
  end.

Definition cb_set (c : Callbacks) (s : Slot) (o : Once) : Callbacks :=
  match s with
  | SStart => mkCallbacks o (cb_error c) (cb_complete c) (cb_images c) (cb_thumbnails c)
  | SError => mkCallbacks (cb_start c) o (cb_complete c) (cb_images c) (cb_thumbnails c)
  | SComplete => mkCallbacks (cb_start c) (cb_error c) o (cb_images c) (cb_thumbnails c)
  | SImages => mkCallbacks (cb_start c) (cb_error c) (cb_complete c) o (cb_thumbnails c)
  | SThumbnails => mkCallbacks (cb_start c) (cb_error c) (cb_complete c) (cb_images c) o
  end.

(** Arguments callbacks are called with. *)
Inductive Arg :=
| AResource (r : Resource)
| AError (e : Error)
| AJobs (js : list Job).

(** ** The state of the event loop *)

(** The closure of one [process] invocation: its [item], whether [creator]
    is [createLink], [hasPollingCallbacks], the [callbacks] object; whether
    the POST is in flight and whether [createFile] listens to the stream;
    [createdResource] and [pollingTimeout] once the resource is created; and
    how many timers are set and how many GETs are in flight. *)
Record Frame := mkFrame {
  fr_item : Item;
  fr_link : bool;
  fr_hasPollingCallbacks : bool;
  fr_callbacks : Callbacks;
  fr_post : bool;
  fr_listener : bool;
  fr_created : option Resource;
  fr_pollingTimeout : Z;
  fr_timers : nat;
  fr_gets : nat
}.

(** Observable actions, tagged with the invocation that performs them.
    [Call] is a call of the guarded wrapper [callbacks.s(arg)]; [Invoke] is
    the wrapped function really running. *)
Inductive Action :=
| Call (f : nat) (s : Slot) (arg : Arg)
| Invoke (f : nat) (s : Slot) (fn : Fn) (arg : Arg)
| Send (f : nat) (r : HttpRequest)
| Fetch (f : nat) (item : Item)
| SetTimeout (f : nat) (delay : Z)
| Throw (f : nat).

Record State := mkState {
  st_api : Api;
  st_options : Options;
  st_frames : list Frame;
  st_log : list Action
}.

(** What the event loop delivers. *)
Inductive Event :=
| CreateReply (f : nat) (res : Error + Resource)
| StreamError (f : nat) (e : string)
| TimerFire (f : nat)
| GetReply (f : nat) (res : Error + Resource).

Definition log (a : Action) (st : State) : State :=
  mkState (st_api st) (st_options st) (st_frames st) (st_log st ++ [a]).

Definition update_frame (f : nat) (g : Frame → Frame) (st : State) : State :=
  mkState (st_api st) (st_options st) (alter g f (st_frames st)) (st_log st).

Definition set_callbacks (c : Callbacks) (fr : Frame) : Frame :=
  mkFrame (fr_item fr) (fr_link fr) (fr_hasPollingCallbacks fr) c (fr_post fr)
    (fr_listener fr) (fr_created fr) (fr_pollingTimeout fr) (fr_timers fr) (fr_gets fr).

Definition set_post (b : bool) (fr : Frame) : Frame :=
  mkFrame (fr_item fr) (fr_link fr) (fr_hasPollingCallbacks fr) (fr_callbacks fr) b
    (fr_listener fr) (fr_created fr) (fr_pollingTimeout fr) (fr_timers fr) (fr_gets fr).

Definition set_poller (r : option Resource) (t : Z) (timers gets : nat) (fr : Frame) : Frame :=
  mkFrame (fr_item fr) (fr_link fr) (fr_hasPollingCallbacks fr) (fr_callbacks fr)
    (fr_post fr) (fr_listener fr) r t timers gets.

(** [callbacks.s(arg)] in invocation [f]: the wrapped function runs on the
    first call only. *)
Definition call (f : nat) (s : Slot) (arg : Arg) (st : State) : State :=
  match st_frames st !! f with
  | None => st
  | Some fr =>
      let o := cb_get (fr_callbacks fr) s in
      let st := log (Call f s arg) st in
      if once_called o then st
      else
        log (Invoke f s (once_fn o) arg)
          (update_frame f
             (set_callbacks (cb_set (fr_callbacks fr) s (mkOnce (once_fn o) true))) st)
  end.

(** [Math.round(x / d)] for integers [x] and [d > 0]: the nearest integer,
    halves rounded up (see [Math_round_div_nearest]).  The delays are
    integers far below 2^53, where the arithmetic of doubles is exact. *)
Definition Math_round_div (x d : Z) : Z := (2 * x + d) / (2 * d).

Definition LINK_UNREACHABLE : string :=
  "Unable to handle a link because it could not be reached".

Definition is_link_unreachable (e : Error) : bool :=
  bool_decide (code e = Some 400) && bool_decide (message e = Some LINK_UNREACHABLE).

Definition no_pending (jobs : list Job) : bool :=
  match filter (λ j, job_status j = "pending") jobs with
  | [] => true
  | _ => false
  end.

Definition is_http_link (item : Item) : bool :=
  match item with
  | ItemString s => String.eqb (String.substring 0 4 s) "http"
  | _ => false
  end.

(** The defaulting at the head of [process], written back into the options
    object. *)
Definition default_processors (p : option Processors) : Processors :=
  let p := default (mkProcessors VUndefined None) p in
  mkProcessors (sizes p) (Some (default Noop (complete p))).

Definition default_options (o : Options) : Options :=
  {| o_start := Some (default Noop (o_start o));
     o_error := Some (default Noop (o_error o));
     o_complete := Some (default Noop (o_complete o));
     o_images := Some (default_processors (o_images o));
     o_thumbnails := Some (default_processors (o_thumbnails o)) |}.

Definition images_complete (o : Options) : option Fn :=
  p ← o_images o; complete p.

Definition thumbnails_complete (o : Options) : option Fn :=
  p ← o_thumbnails o; complete p.

Definition hasPollingCallbacks (o : Options) : bool :=
  bool_decide (is_Some (o_complete o))
  || bool_decide (is_Some (images_complete o))
  || bool_decide (is_Some (thumbnails_complete o)).

Definition fn_of (o : option Fn) : Fn := default Noop o.

Definition make_callbacks (o : Options) : Callbacks :=
  {| cb_start := once (fn_of (o_start o));
     cb_error := once (fn_of (o_error o));
     cb_complete := once (fn_of (o_complete o));
     cb_images := once (fn_of (images_complete o));
     cb_thumbnails := once (fn_of (thumbnails_complete o)) |}.

Definition processor_sizes (p : option Processors) : Value :=
  match p with
  | Some p => sizes p
  | None => VUndefined
  end.

Definition createOptions (o : Options) : gmap string Value :=
  <["imageSizes" := processor_sizes (o_images o)]>
    (<["thumbnailSizes" := processor_sizes (o_thumbnails o)]> ∅).

(** ** [process] and its continuations *)

Section Process.

Variable format_d : Port → string.
Variable js_encodeURIComponent : string → string.
Variable createReadStream_throws : string → option string.

Definition new_frame (item : Item) (link has : bool) (c : Callbacks)
    (post listener : bool) : Frame :=
  mkFrame item link has c post listener None 0 0%nat 0%nat.

Definition push_frame (fr : Frame) (o : Options) (st : State) : State :=
  mkState (st_api st) o (st_frames st ++ [fr]) (st_log st).

(** [creator]: [createLink] for a string that starts with [http],
    [createFile] for everything else. *)
Definition creator (api : Api) (item : Item) (options : gmap string Value)
    : Creation :=
  match item with
  | ItemString s =>
      if is_http_link item then createLink format_d api s options
      else createFile format_d createReadStream_throws api item options
  | _ => createFile format_d createReadStream_throws api item options
  end.

(** The synchronous part of [process(item, options)], [options] being the
    object held in the state: defaulting, the [callbacks] object, and the
    creation call.  When [createFile] cannot open the path it calls back
    at once; that error carries no [code], so the callback goes to
    [callbacks.error] (see [open_failure_is_not_retried]). *)
Definition process (item : Item) (st : State) : State :=
  let has := hasPollingCallbacks (st_options st) in
  let options := default_options (st_options st) in
  let callbacks := make_callbacks options in
  let f := length (st_frames st) in
  let link := is_http_link item in
  match creator (st_api st) item (createOptions options) with
  | Submitted listener r =>
      log (Send f r)
        (push_frame (new_frame item link has callbacks true listener) options st)
  | OpenFailed e =>
      call f SError (AError e)
        (push_frame (new_frame item link has callbacks false false) options st)
  | Thrown =>
      log (Throw f)
        (push_frame (new_frame item link has callbacks false false) options st)
  end.

(** The callback handed to the creator. *)
Definition creator_callback (f : nat) (res : Error + Resource) (st : State) : State :=
  match st_frames st !! f with
  | None => st
  | Some fr =>
      match res with
      | inl createError =>
          if is_link_unreachable createError
          then process (ItemStream (RequestStream (fr_item fr)))
                 (log (Fetch f (fr_item fr)) st)
          else call f SError (AError createError) st
      | inr createdResource =>
          let st := call f SStart (AResource createdResource) st in
          if bool_decide (res_status createdResource ≠ "pending")
          then call f SComplete (AResource createdResource) st
          else if negb (fr_hasPollingCallbacks fr) then st
          else
            let pollingTimeout := DEFAULT_POLLING_INITIAL_TIMEOUT in
            log (SetTimeout f pollingTimeout)
              (update_frame f
                 (λ fr, set_poller (Some createdResource) pollingTimeout
                          (S (fr_timers fr)) (fr_gets fr) fr) st)
      end
  end.

(** [poll]: fetch the created resource.  ([poll] only exists once
    [createdResource] does; the [None] cases are never reached, see
    [inv_backoff].) *)
Definition poll (f : nat) (st : State) : State :=
  match st_frames st !! f with
  | None => st
  | Some fr =>
      match fr_created fr with
      | None => st
      | Some createdResource =>
          log (Send f (get format_d js_encodeURIComponent (st_api st)
                         (res_id createdResource)))
            (update_frame f
               (λ fr, set_poller (fr_created fr) (fr_pollingTimeout fr)
                        (fr_timers fr) (S (fr_gets fr)) fr) st)
      end
  end.

(** The callback of [resources.get] inside [poll]. *)
Definition poll_callback (f : nat) (res : Error + Resource) (st : State) : State :=
  match res with
  | inl e => call f SError (AError e) st
  | inr resource =>
      let thumbnailsDone := no_pending (res_thumbnails resource) in
      let st := if thumbnailsDone
                then call f SThumbnails (AJobs (res_thumbnails resource)) st
                else st in
      let imagesDone := no_pending (res_images resource) in
      let st := if imagesDone
                then call f SThumbnails (AJobs (res_images resource)) st
                else st in
      if bool_decide (res_status resource ≠ "pending")
      then call f SComplete (AResource resource) st
      else
        match st_frames st !! f with
        | None => st
        | Some fr =>
            let pollingTimeout :=
              fr_pollingTimeout fr + Math_round_div (fr_pollingTimeout fr) 4 in
            log (SetTimeout f pollingTimeout)
              (update_frame f
                 (set_poller (fr_created fr) pollingTimeout
                    (S (fr_timers fr)) (fr_gets fr)) st)
        end
  end.

(** One turn of the event loop.  An event that cannot happen (a reply
    without a request in flight, a timer that was never set, an error of a
    stream nobody listens to) has no successor. *)
Definition step (ev : Event) (st : State) : option State :=
  match ev with
  | CreateReply f res =>
      fr ← st_frames st !! f;
      if fr_post fr
      then Some (creator_callback f res (update_frame f (set_post false) st))
      else None
  | StreamError f e =>
      fr ← st_frames st !! f;
      if fr_listener fr
      then Some (creator_callback f
                   (inl (mkError None (Some STREAM_READ_MESSAGE) (Some e))) st)
      else None
  | TimerFire f =>
      fr ← st_frames st !! f;
      match fr_timers fr with
      | O => None
      | S n =>
          Some (poll f
                  (update_frame f
                     (set_poller (fr_created fr) (fr_pollingTimeout fr) n (fr_gets fr))
                     st))
      end
  | GetReply f res =>
      fr ← st_frames st !! f;
      match fr_gets fr with
      | O => None
      | S n =>
          Some (poll_callback f res
                  (update_frame f
                     (set_poller (fr_created fr) (fr_pollingTimeout fr) (fr_timers fr) n)
                     st))
      end
  end.

Fixpoint run (evs : list Event) (st : State) : option State :=
  match evs with
  | [] => Some st
  | ev :: rest => st' ← step ev st; run rest st'
  end.

(** A call [process(item, options)] by the user of a client configured as
    [api]: nothing is in flight and nothing has been observed yet. *)
Definition user_call (api : Api) (options : Options) (item : Item) : State :=
  process item (mkState api options [] []).

End Process.

(** ** Reading the trace *)

Global Instance Slot_eq_dec : EqDecision Slot.
Proof. solve_decision. Defined.

Definition action_frame (a : Action) : nat :=
  match a with
  | Call f _ _ | Invoke f _ _ _ | Send f _ | Fetch f _ | SetTimeout f _ | Throw f => f
  end.

(** The actions of invocation [f], in order. *)
Definition actions_of (f : nat) (l : list Action) : list Action :=
  filter (λ a, action_frame a = f) l.

Fixpoint count {A} (p : A → bool) (l : list A) : nat :=
  match l with
  | [] => 0
  | x :: rest => ((if p x then 1 else 0) + count p rest)%nat
  end.

Definition is_call (s : Slot) (a : Action) : bool :=
  match a with
  | Call _ s' _ => bool_decide (s' = s)
  | _ => false
  end.

Definition is_invoke (s : Slot) (a : Action) : bool :=
  match a with
  | Invoke _ s' _ _ => bool_decide (s' = s)
  | _ => false
  end.

Definition is_send (m : Method) (a : Action) : bool :=
  match a with
  | Send _ r => match req_method r, m with
                | GET, GET | POST, POST => true
                | _, _ => false
                end
  | _ => false
  end.

Definition is_fetch (a : Action) : bool :=
  match a with
  | Fetch _ _ => true
  | _ => false
  end.

Definition timeout_of (a : Action) : option Z :=
  match a with
  | SetTimeout _ d => Some d
  | _ => None
  end.

(** How often a guarded wrapper was called, and how often the function it
    wraps ran. *)
Definition triggers (s : Slot) (l : list Action) : nat := count (is_call s) l.
Definition invocations (s : Slot) (l : list Action) : nat := count (is_invoke s) l.

(** Poll requests, creation requests, link fetches, timer delays. *)
Definition polls (l : list Action) : nat := count (is_send GET) l.
Definition posts (l : list Action) : nat := count (is_send POST) l.
Definition fetches (l : list Action) : nat := count is_fetch l.
Definition timeouts (l : list Action) : list Z := omap timeout_of l.

(** The delays of the spec: 2000, then each time a quarter more. *)
Fixpoint backoff (n : nat) : Z :=
  match n with
  | O => DEFAULT_POLLING_INITIAL_TIMEOUT
  | S k => backoff k + Math_round_div (backoff k) DEFAULT_POLLING_BACKOFF_DENOMINATOR
  end.

(** A field of the body of a request. *)
Definition body_field (b : Body) (name : string) : option Value :=
  match b with
  | NoBody => None
  | Qs d | Form d | Multipart d => d !! name
  end.

(** ** One invocation at a time

    Every event concerns one invocation.  [local_step] is what [step] does to
    the closure of that invocation and which actions it appends to the trace;
    the boolean says whether the link-unreachable retry is taken, in which
    case [step] goes on with a nested [process].  [step_local] below proves
    that [step] is exactly this. *)

Definition local_call (f : nat) (s : Slot) (arg : Arg) (fr : Frame)
    : Frame * list Action :=
  let o := cb_get (fr_callbacks fr) s in
  if once_called o then (fr, [Call f s arg])
  else (set_callbacks (cb_set (fr_callbacks fr) s (mkOnce (once_fn o) true)) fr,
        [Call f s arg; Invoke f s (once_fn o) arg]).

Definition and_then (x : Frame * list Action) (k : Frame → Frame * list Action)
    : Frame * list Action :=
  let y := k x.1 in (y.1, x.2 ++ y.2).

Definition call_if (b : bool) (f : nat) (s : Slot) (arg : Arg) (fr : Frame)
    : Frame * list Action :=
  if b then local_call f s arg fr else (fr, []).

Definition local_created (f : nat) (r : Resource) (fr : Frame) : Frame * list Action :=
  and_then (local_call f SStart (AResource r) fr) (λ fr1,
    if bool_decide (res_status r ≠ "pending")
    then local_call f SComplete (AResource r) fr1
    else if negb (fr_hasPollingCallbacks fr1) then (fr1, [])
    else (set_poller (Some r) DEFAULT_POLLING_INITIAL_TIMEOUT
            (S (fr_timers fr1)) (fr_gets fr1) fr1,
          [SetTimeout f DEFAULT_POLLING_INITIAL_TIMEOUT])).

Definition local_polled (f : nat) (res : Error + Resource) (fr : Frame)
    : Frame * list Action :=
  match res with
  | inl e => local_call f SError (AError e) fr
  | inr r =>
      and_then
        (call_if (no_pending (res_thumbnails r)) f SThumbnails
           (AJobs (res_thumbnails r)) fr) (λ fr1,
      and_then
        (call_if (no_pending (res_images r)) f SThumbnails
           (AJobs (res_images r)) fr1) (λ fr2,
      if bool_decide (res_status r ≠ "pending")
      then local_call f SComplete (AResource r) fr2
      else
        let t := fr_pollingTimeout fr2 + Math_round_div (fr_pollingTimeout fr2) 4 in
        (set_poller (fr_created fr2) t (S (fr_timers fr2)) (fr_gets fr2) fr2,
         [SetTimeout f t])))
  end.

Definition event_frame (ev : Event) : nat :=
  match ev with
  | CreateReply f _ | StreamError f _ | TimerFire f | GetReply f _ => f
  end.

Definition local_step (format_d : Port → string) (enc : string → string)
    (api : Api) (ev : Event) (fr : Frame) : option (Frame * list Action * bool) :=
  match ev with
  | CreateReply f res =>
      if fr_post fr then
        let fr1 := set_post false fr in
        match res with
        | inl e =>
            if is_link_unreachable e then Some (fr1, [Fetch f (fr_item fr)], true)
            else Some (local_call f SError (AError e) fr1, false)
        | inr r => Some (local_created f r fr1, false)
        end
      else None
  | StreamError f e =>
      if fr_listener fr
      then Some (local_call f SError
                   (AError (mkError None (Some STREAM_READ_MESSAGE) (Some e))) fr, false)
      else None
  | TimerFire f =>
      match fr_timers fr with
      | O => None
      | S n =>
          let fr1 := set_poller (fr_created fr) (fr_pollingTimeout fr) n (fr_gets fr) fr in
          match fr_created fr with
          | None => Some (fr1, [], false)
          | Some r =>
              Some (set_poller (fr_created fr) (fr_pollingTimeout fr) n
                      (S (fr_gets fr)) fr,
                    [Send f (get format_d enc api (res_id r))], false)
          end
      end
  | GetReply f res =>
      match fr_gets fr with
      | O => None
      | S n =>
          Some (local_polled f res
                  (set_poller (fr_created fr) (fr_pollingTimeout fr) (fr_timers fr) n fr),
                false)
      end
  end.

(** The closure and the first actions of a [process] invocation that is the
    [f]-th of the run. *)
Definition local_process (format_d : Port → string) (throws : string → option string)
    (api : Api) (o : Options) (f : nat) (item : Item) : Frame * list Action :=
  let has := hasPollingCallbacks o in
  let options := default_options o in
  let callbacks := make_callbacks options in
  let link := is_http_link item in
  match creator format_d throws api item (createOptions options) with
  | Submitted listener r => (new_frame item link has callbacks true listener, [Send f r])
  | OpenFailed e =>
      local_call f SError (AError e) (new_frame item link has callbacks false false)
  | Thrown => (new_frame item link has callbacks false false, [Throw f])
  end.

(** Write back the closure of invocation [f] and extend the trace. *)
Definition put (f : nat) (x : Frame * list Action) (st : State) : State :=
  mkState (st_api st) (st_options st) (<[f := x.1]> (st_frames st)) (st_log st ++ x.2).

(** ** Invariants *)

(** What holds between the closure of an invocation and its own actions [l]. *)
Record local_inv (l : list Action) (fr : Frame) : Prop := {
  inv_once : ∀ s,
    invocations s l = (if once_called (cb_get (fr_callbacks fr) s) then 1 else 0)%nat
    ∧ (once_called (cb_get (fr_callbacks fr) s) = true ↔ (0 < triggers s l)%nat);
  inv_one_poller : (fr_timers fr + fr_gets fr ≤ 1)%nat;
  inv_post : fr_post fr = true →
    fr_timers fr = 0%nat ∧ fr_gets fr = 0%nat ∧ timeouts l = [] ∧ fetches l = 0%nat
    ∧ (∀ s, s ≠ SError → triggers s l = 0%nat)
    ∧ (fr_listener fr = false → ∀ s, triggers s l = 0%nat);
  inv_backoff : ∃ k : nat,
    timeouts l = map backoff (seq 0 k)
    ∧ (polls l + fr_timers fr)%nat = k
    ∧ (fr_hasPollingCallbacks fr = false → k = 0%nat)
    ∧ ((0 < fr_timers fr + fr_gets fr)%nat →
       (0 < k)%nat ∧ fr_pollingTimeout fr = backoff (k - 1) ∧ is_Some (fr_created fr));
  inv_retried : (0 < fetches l)%nat →
    fr_post fr = false ∧ fr_timers fr = 0%nat ∧ fr_gets fr = 0%nat ∧ timeouts l = []
    ∧ (fr_listener fr = false → ∀ s, triggers s l = 0%nat);
  inv_link : fr_link fr = true → fr_listener fr = false;
  inv_images : triggers SImages l = 0%nat
}.

(** Every callback that ran is the one [F] gives for its slot. *)
Definition invokes_of (F : Slot → Fn) (l : list Action) : Prop :=
  ∀ f s fn arg, Invoke f s fn arg ∈ l → fn = F s.

(** The function behind each slot, given the options of the caller. *)
Definition user_fn (o : Options) (s : Slot) : Fn :=
  match s with
  | SStart => fn_of (o_start o)
  | SError => fn_of (o_error o)
  | SComplete => fn_of (o_complete o)
  | SImages => fn_of (images_complete o)
  | SThumbnails => fn_of (thumbnails_complete o)
  end.

(** What holds of every state reached from a call of [process] with the
    options [o]. *)
Record inv (o : Options) (st : State) : Prop := {
  inv_options : st_options st = default_options o;
  inv_nonempty : st_frames st ≠ [];
  inv_tags : ∀ a, a ∈ st_log st → (action_frame a < length (st_frames st))%nat;
  inv_frames : ∀ f fr, st_frames st !! f = Some fr →
    local_inv (actions_of f (st_log st)) fr;
  inv_posting : ∀ f fr, st_frames st !! f = Some fr → fr_post fr = true →
    S f = length (st_frames st);
  inv_earlier : ∀ f, (S f < length (st_frames st))%nat →
    (0 < fetches (actions_of f (st_log st)))%nat;
  inv_fns : ∀ f fr s, st_frames st !! f = Some fr →
    once_fn (cb_get (fr_callbacks fr) s) = user_fn o s;
  inv_first : ∀ fr, st_frames st !! 0%nat = Some fr →
    fr_hasPollingCallbacks fr = hasPollingCallbacks o;
  inv_invokes : invokes_of (user_fn o) (st_log st)
}.

(** What [process] needs of the state it is called in: nothing is being
    created, and every earlier invocation has taken the retry. *)
Record pre_inv (o : Options) (st : State) : Prop := {
  pre_options : st_options st = o ∨ st_options st = default_options o;
  pre_first : st_frames st = [] → st_options st = o;
  pre_tags : ∀ a, a ∈ st_log st → (action_frame a < length (st_frames st))%nat;
  pre_frames : ∀ f fr, st_frames st !! f = Some fr →
    local_inv (actions_of f (st_log st)) fr;
  pre_posting : ∀ f fr, st_frames st !! f = Some fr → fr_post fr = false;
  pre_earlier : ∀ f, (f < length (st_frames st))%nat →
    (0 < fetches (actions_of f (st_log st)))%nat;
  pre_fns : ∀ f fr s, st_frames st !! f = Some fr →
    once_fn (cb_get (fr_callbacks fr) s) = user_fn o s;
  pre_has : ∀ fr, st_frames st !! 0%nat = Some fr →
    fr_hasPollingCallbacks fr = hasPollingCallbacks o;
  pre_invokes : invokes_of (user_fn o) (st_log st)
}.

(** An invocation with nothing in flight: no creation reply, timer or poll
    reply can come. *)
Definition quiet (fr : Frame) : Prop :=
  fr_post fr = false ∧ fr_timers fr = 0%nat ∧ fr_gets fr = 0%nat.

(** Every link-unreachable retry in the trace was taken by an invocation that
    had submitted a link. *)
Definition all_quiet (st : State) : Prop :=
  ∀ f fr, st_frames st !! f = Some fr → quiet fr.

Definition is_set_timeout (a : Action) : bool :=
  match a with
  | SetTimeout _ _ => true
  | _ => false
  end.


(** The callbacks that ran, in order: slot, function, argument. *)
Definition invoked (l : list Action) : list (Slot * Fn * Arg) :=
  omap (λ a, match a with
             | Invoke _ s fn arg => Some (s, fn, arg)
             | _ => None
             end) l.

(** The requests that were sent, in order. *)
Definition requests (l : list Action) : list HttpRequest :=
  omap (λ a, match a with
             | Send _ r => Some r
             | _ => None
             end) l.

(** ** The life cycle of an invocation *)

Inductive Phase := Fresh | Failed | Aborted | Posting | Started | Done | Retried.

Definition lifecycle_step (p : Phase) (a : Action) : option Phase :=
  match p with
  | Fresh =>
      match a with
      | Send _ r => if is_send POST a then Some Posting else None
      | Call _ SError _ => Some Failed
      | Throw _ => Some Aborted
      | _ => None
      end
  | Failed =>
      match a with
      | Invoke _ SError _ _ => Some Failed
      | _ => None
      end
  | Aborted => None
  | Posting =>
      match a with
      | Call _ SStart _ => Some Started
      | Fetch _ _ => Some Retried
      | Call _ SError _ | Invoke _ SError _ _ => Some Posting
      | _ => None
      end
  | Started =>
      match a with
      | Invoke _ SStart _ _ => Some Started
      | Call _ SThumbnails _ | Invoke _ SThumbnails _ _ => Some Started
      | SetTimeout _ _ => Some Started
      | Send _ r => if is_send GET a then Some Started else None
      | Call _ SComplete _ => Some Done
      | Call _ SError _ | Invoke _ SError _ _ => Some Started
      | _ => None
      end
  | Done =>
      match a with
      | Invoke _ SComplete _ _ => Some Done
      | Call _ SError _ | Invoke _ SError _ _ => Some Done
      | _ => None
      end
  | Retried =>
      match a with
      | Call _ SError _ | Invoke _ SError _ _ => Some Retried
      | _ => None
      end
  end.

Fixpoint lifecycle (p : Phase) (l : list Action) : option Phase :=
  match l with
  | [] => Some p
  | a :: rest => q ← lifecycle_step p a; lifecycle q rest
  end.

Definition phase_ok (p : Phase) (fr : Frame) : Prop :=
  (fr_post fr = true → p = Posting)
  ∧ ((0 < fr_timers fr + fr_gets fr)%nat → p = Started)
  ∧ (fr_listener fr = true → p = Posting ∨ p = Started ∨ p = Done ∨ p = Retried).

Definition follows_lifecycle (l : list Action) (fr : Frame) : Prop :=
  ∃ p, lifecycle Fresh l = Some p ∧ phase_ok p fr.

(** How far a phase is: whether the creation request was sent, [start] and
    [complete] were called, the retry was taken. *)
Definition posted (p : Phase) : nat :=
  match p with
  | Posting | Started | Done | Retried => 1
  | _ => 0
  end.

Definition started (p : Phase) : nat :=
  match p with
  | Started | Done => 1
  | _ => 0
  end.

Definition completed (p : Phase) : nat :=
  match p with
  | Done => 1
  | _ => 0
  end.

Definition retried (p : Phase) : nat :=
  match p with
  | Retried => 1
  | _ => 0
  end.

(** Actions that belong to the time after [start]: a timer, a poll, a call
    of a wrapper other than those of [start] and [error], a callback other
    than [error] running. *)
Definition after_start (a : Action) : bool :=
  match a with
  | Call _ s _ => bool_decide (s ≠ SStart ∧ s ≠ SError)
  | Invoke _ s _ _ => bool_decide (s ≠ SError)
  | Send _ _ => is_send GET a
  | SetTimeout _ _ => true
  | Fetch _ _ | Throw _ => false
  end.

(** What can still follow the call of [complete]: the callback itself, and
    reports of stream errors. *)
Definition after_complete (a : Action) : bool :=
  is_invoke SComplete a || is_call SError a || is_invoke SError a.

(** ** What callbacks are called with, and what is requested *)



(** The item of the [n]-th invocation of a run: each retry hands
    [request(item)] to the nested [process]. *)
Fixpoint retry_item (n : nat) (item : Item) : Item :=
  match n with
  | O => item
  | S k => ItemStream (RequestStream (retry_item k item))
  end.

(** The requests of an invocation: its creation request, and polls of the
    resource that the creation returned. *)
Definition requests_ok (format_d : Port → string) (enc : string → string)
    (throws : string → option string) (api : Api) (o : Options) (item : Item)
    (f : nat) (l : list Action) (fr : Frame) : Prop :=
  fr_item fr = retry_item f item
  ∧ (∀ g r, Send g r ∈ l →
       match req_method r with
       | POST => ∃ listener,
           creator format_d throws api (fr_item fr) (createOptions (default_options o))
           = Submitted listener r
       | GET => ∃ c, fr_created fr = Some c ∧ r = get format_d enc api (res_id c)
       end)
  ∧ (∀ c, fr_created fr = Some c →
       Call f SStart (AResource c) ∈ l ∧ res_status c = "pending").



(** ** Lifting an invariant of one invocation to the event loop *)

(** [J] holds between every invocation and its own actions. *)
Definition lifted (api : Api) (J : nat → list Action → Frame → Prop) (st : State)
    : Prop :=
  st_api st = api
  ∧ ∀ f fr, st_frames st !! f = Some fr → J f (actions_of f (st_log st)) fr.

(** One invocation more than link fetches, and no more creation requests
    than invocations. *)
Definition accounted (st : State) : Prop :=
  length (st_frames st) = S (fetches (st_log st))
  ∧ (posts (st_log st) ≤ length (st_frames st))%nat.

(** ** The response of the server *)

(** What [JSON.parse] returns.  An object is the list of its properties;
    when a name occurs more than once the last occurrence counts, as in
    JavaScript. *)
#[warnings="-register-all"] Inductive Json :=
| JNull
| JBool (b : bool)
| JNumber (n : Z)
| JString (s : string)
| JArray (xs : list Json)
| JObject (fields : list (string * Json)).

(** [j[name]], when that is a string. *)
Definition string_field (j : Json) (name : string) : option string :=
  match j with
  | JObject fields =>
      match list_find (λ kv, kv.1 = name) (reverse fields) with
      | Some (_, (_, JString s)) => Some s
      | _ => None
      end
  | _ => None
  end.

(** Whether [j.code = ...] succeeds: the file is in strict mode, where
    the assignment throws a [TypeError] on [null] and on a primitive. *)
Definition assignable (j : Json) : bool :=
  match j with
  | JObject _ | JArray _ => true
  | _ => false
  end.

(** What the callback of a request is called back with, when not with an
    error: the parsed body, or the body as it is when it is not JSON. *)
Inductive Payload :=
| Parsed (j : Json)
| Raw (body : string).

Definition TRANSPORT_MESSAGE : string :=
  "Something went wrong trying to contact the server".

Section Response.

(** [JSON.parse]; [None] when it throws. *)
Variable JSON_parse : string → option Json.

(** The error for a response with a status of 400 or more: the parsed
    body with the status as its [code], or the body as the message when
    it cannot be parsed or cannot take a [code]. *)
Definition error_of_body (statusCode : Z) (body : string) : Error :=
  match JSON_parse body with
  | Some j =>
      if assignable j
      then mkError (Some statusCode) (string_field j "message") (string_field j "err")
      else mkError (Some statusCode) (Some body) None
  | None => mkError (Some statusCode) (Some body) None
  end.

(** The callback [_request] hands to the [request] library: [err] is the
    transport error, if any, [statusCode] and [body] are those of the
    response. *)
Definition respond (err : option string) (statusCode : Z) (body : string)
    : Error + Payload :=
  match err with
  | Some cause => inl (mkError (Some 500) (Some TRANSPORT_MESSAGE) (Some cause))
  | None =>
      if 400 <=? statusCode then inl (error_of_body statusCode body)
      else inr (match JSON_parse body with
                | Some j => Parsed j
                | None => Raw body
                end)
  end.

End Response.

(** ** Reading an [Authorization] value back *)

(** The value of a character of the base64 alphabet. *)
Definition b64_value (c : ascii) : option N :=
  let n := N_of_ascii c in
  (if (65 <=? n) && (n <=? 90) then Some (n - 65)
   else if (97 <=? n) && (n <=? 122) then Some (n - 97 + 26)
   else if (48 <=? n) && (n <=? 57) then Some (n - 48 + 52)
   else if n =? 43 then Some 62
   else if n =? 47 then Some 63
   else None)%N.

(** Decoding, four characters at a time; [=] pads the last group. *)
Fixpoint base64_decode (s : string) : option string :=
  match s with
  | EmptyString => Some EmptyString
  | String c1 (String c2 (String c3 (String c4 rest))) =>
      p ← b64_value c1; q ← b64_value c2;
      let a := ascii_of_N (p * 4 + q / 16) in
      if Ascii.eqb c3 "=" then
        if Ascii.eqb c4 "=" then
          match rest with
          | EmptyString => Some (String a EmptyString)
          | _ => None
          end
        else None
      else
        r ← b64_value c3;
        let b := ascii_of_N ((q mod 16) * 16 + r / 4) in
        if Ascii.eqb c4 "=" then
          match rest with
          | EmptyString => Some (String a (String b EmptyString))
          | _ => None
          end
        else
          t ← b64_value c4;
          let c := ascii_of_N ((r mod 4) * 64 + t) in
          tail ← base64_decode rest;
          Some (String a (String b (String c tail)))
  | _ => None
  end.

(** An upper-case ASCII letter. *)
Definition is_upper (c : ascii) : bool :=
  ((65 <=? N_of_ascii c) && (N_of_ascii c <=? 90))%N.

Fixpoint has_upper (s : string) : bool :=
  match s with
  | EmptyString => false
  | String c rest => is_upper c || has_upper rest
  end.

(** Text made of ASCII characters only, on which [toLowerCase] above is the
    one of JavaScript. *)
Fixpoint is_ascii_text (s : string) : bool :=
  match s with
  | EmptyString => true
  | String c rest => (N_of_ascii c <? 128)%N && is_ascii_text rest
  end.

(** ** The earlier resources API

    The version of [lib/api/resources.js] from before [addSizes]: only
    thumbnail sizes, normalised by [getThumbnailSizes] before they are
    tested. *)

Module Processr.

Definition getThumbnailSizes (sizes : Value) : Value :=
  match sizes with
  | VArray xs => VString (join "," xs)
  | other => other
  end.

Definition file_data (file : Stream) (options : gmap string Value)
    : gmap string Value :=
  let data := {[ "file" := VStream file ]} in
  let thumbnailSizes := getThumbnailSizes (prop options "thumbnailSizes") in
  if truthy thumbnailSizes then <["thumbnailSizes" := thumbnailSizes]> data else data.

Definition link_data (link : string) (options : gmap string Value)
    : gmap string Value :=
  let data := {[ "link" := VString link ]} in
  let thumbnailSizes := getThumbnailSizes (prop options "thumbnailSizes") in
  if truthy thumbnailSizes then <["thumbnailSizes" := thumbnailSizes]> data else data.

Section Builtins.

Variable format_d : Port → string.
Variable js_encodeURIComponent : string → string.
Variable createReadStream_throws : string → option string.

Definition createFile (a : Api) (file : Item) (options : gmap string Value)
    : Creation :=
  match file with
  | ItemString path =>
      match createReadStream_throws path with
      | Some e => OpenFailed (mkError None (Some STREAM_OPEN_MESSAGE) (Some e))
      | None =>
          Submitted true
            (_request format_d a POST "/resources"
               (Some (file_data (ReadStream path) options)))
      end
  | ItemStream st =>
      Submitted true
        (_request format_d a POST "/resources" (Some (file_data st options)))
  | ItemBuffer _ => Thrown
  end.

Definition createLink (a : Api) (link : string) (options : gmap string Value)
    : Creation :=
  Submitted false
    (_request format_d a POST "/resources" (Some (link_data link options))).

Definition get (a : Api) (id : option string) : HttpRequest :=
  _request format_d a GET
    ("/resources/" +:+ encodeURIComponent js_encodeURIComponent id) None.

End Builtins.

End Processr.

(** ** A concrete client, for examples

    Instances of the built-ins on the inputs of the examples: ports that
    are numbers or canonical decimal strings, identifiers made of unreserved
    characters, paths that can be opened. *)

Definition decimal_port (p : Port) : string :=
  match p with
  | PortNum n => NilZero.string_of_int (Z.to_int n)
  | PortStr s => s
  end.

Definition unreserved (s : string) : string := s.

Definition always_opens (path : string) : option string := None.

Definition example_api : Api := Embdr (Some "VUT6blsAabPE2Vw7BkDZiCJ45duoBtit").

Definition example_link : Item := ItemString "http://10.0.0.5/report.pdf".

(** All five callbacks registered, sizes for both kinds of previews. *)
Definition all_callbacks : Options :=
  {| o_start := Some (UserFn "start");
     o_error := Some (UserFn "error");
     o_complete := Some (UserFn "complete");
     o_images := Some (mkProcessors (VArray ["1200x"]) (Some (UserFn "images")));
     o_thumbnails :=
       Some (mkProcessors (VArray ["64x64"; "256x256"]) (Some (UserFn "thumbnails"))) |}.

(** Only [start] registered. *)
Definition only_start : Options :=
  {| o_start := Some (UserFn "start"); o_error := None; o_complete := None;
     o_images := None; o_thumbnails := None |}.

Definition link_unreachable : Error :=
  mkError (Some 400) (Some LINK_UNREACHABLE) None.

Definition server_down : Error :=
  mkError (Some 500) (Some "Something went wrong trying to contact the server")
    (Some "ECONNREFUSED").

Definition thumbnail (st : string) : Job := mkJob "256x256" st.
Definition image (st : string) : Job := mkJob "1200x" st.

(** Just created: everything is pending. *)
Definition resource_pending : Resource :=
  mkResource (Some "r1") "pending" [thumbnail "pending"] [image "pending"].

(** The image previews are done, the thumbnails are not. *)
Definition resource_images_done : Resource :=
  mkResource (Some "r1") "pending" [thumbnail "pending"] [image "complete"].

Definition resource_complete : Resource :=
  mkResource (Some "r1") "complete" [thumbnail "complete"] [image "complete"].

Definition example_run (o : Options) (item : Item) (evs : list Event) : option State :=
  run decimal_port unreserved always_opens evs
    (user_call decimal_port always_opens example_api o item).

(** The state an example run ends in (the initial state when an event of the
    run cannot happen). *)
Definition final_state (o : Options) (item : Item) (evs : list Event) : State :=
  default (user_call decimal_port always_opens example_api o item) (example_run o item evs).


(** Event sequences of the examples: a run with two polls, and a retry that
    is answered like the first attempt. *)
Definition two_polls : list Event :=
  [CreateReply 0 (inr resource_pending); TimerFire 0;
   GetReply 0 (inr resource_images_done); TimerFire 0;
   GetReply 0 (inr resource_complete)].

Definition retry_then_poll : list Event :=
  [CreateReply 0 (inl link_unreachable); CreateReply 1 (inr resource_pending);
   TimerFire 1].

Definition unreachable_twice : list Event :=
  [CreateReply 0 (inl link_unreachable); CreateReply 1 (inl link_unreachable)].

(** Sizes given as an empty list. *)
Definition empty_thumbnail_sizes : Options :=
  {| o_start := None; o_error := None; o_complete := None; o_images := None;
     o_thumbnails := Some (mkProcessors (VArray []) None) |}.

(** The state after a run with two polls. *)
Definition polled_twice : State := final_state all_callbacks example_link two_polls.

(** The state after a retry whose resource is polled once. *)
Definition retried_once : State := final_state all_callbacks example_link retry_then_poll.

(** The creation request of the link of the examples, and the first poll. *)
Definition example_post : HttpRequest :=
  _request decimal_port example_api POST "/resources"
    (Some (link_data "http://10.0.0.5/report.pdf"
             (createOptions (default_options all_callbacks)))).

Definition example_get : HttpRequest :=
  get decimal_port unreserved example_api (Some "r1").

(** A file system on which no path can be opened. *)
Definition never_opens (path : string) : option string := Some "ENOENT".


(** Request data with an array that has an empty string in it. *)
Definition example_data : gmap string Value :=
  <["thumbnailSizes" := VArray ["64x64"; ""]]> {[ "link" := VString "http://10.0.0.5/a" ]}.

(** * Proofs *)

(** ** Counting in traces *)

Lemma count_app {A} (p : A → bool) (l1 l2 : list A) :
  count p (l1 ++ l2) = (count p l1 + count p l2)%nat.
Proof. induction l1 as [|x l1 IH]; simpl; [done | rewrite IH; lia]. Qed.

Lemma timeouts_app (l1 l2 : list Action) :
  timeouts (l1 ++ l2) = timeouts l1 ++ timeouts l2.
Proof. apply omap_app. Qed.

Lemma actions_of_app (f : nat) (l1 l2 : list Action) :
  actions_of f (l1 ++ l2) = actions_of f l1 ++ actions_of f l2.
Proof. apply filter_app. Qed.

Lemma actions_of_own (f : nat) (l : list Action) :
  Forall (λ a, action_frame a = f) l → actions_of f l = l.
Proof.
  induction 1 as [|a l Ha _ IH]; [done |].
  unfold actions_of in *. rewrite filter_cons_True by done. by rewrite IH.
Qed.

Lemma actions_of_other (f : nat) (l : list Action) :
  Forall (λ a, action_frame a ≠ f) l → actions_of f l = [].
Proof.
  induction 1 as [|a l Ha _ IH]; [done |].
  unfold actions_of in *. by rewrite filter_cons_False.
Qed.

Lemma actions_of_fresh (f : nat) (l : list Action) :
  (∀ a, a ∈ l → (action_frame a < f)%nat) → actions_of f l = [].
Proof.
  intros H. apply actions_of_other, Forall_forall. intros a Ha.
  specialize (H a Ha). lia.
Qed.

Lemma count_filter_le {A} (p : A → bool) (P : A → Prop) `{∀ x, Decision (P x)}
    (l : list A) :
  (count p (filter P l) ≤ count p l)%nat.
Proof.
  induction l as [|x l IH]; [done |].
  destruct (decide (P x)).
  - rewrite filter_cons_True by done. simpl. lia.
  - rewrite filter_cons_False by done. simpl. lia.
Qed.

(** ** Tactics *)

(** Push the projections of a trace through an append of explicit actions. *)
Ltac split_trace :=
  unfold triggers, invocations, polls, posts, fetches in *;
  rewrite ?timeouts_app, ?app_nil_r;
  try setoid_rewrite count_app; simpl;
  try setoid_rewrite Nat.add_0_r.

(** Close the conjuncts of a statement about what an event leaves unchanged. *)
Ltac close_shape :=
  repeat split;
  first
    [ done
    | congruence
    | lia
    | by repeat (apply Forall_app; split); try done; repeat constructor
    | by (let s := fresh "s" in
          intros s;
          repeat match goal with
                 | H : ∀ _ : Slot, once_fn _ = once_fn _ |- _ => rewrite H; clear H
                 end)
    | idtac ].

(** ** [step] is [local_step] on the invocation concerned *)

Lemma alter_as_insert (g : Frame → Frame) (f : nat) (l : list Frame) (fr : Frame) :
  l !! f = Some fr → alter g f l = <[f := g fr]> l.
Proof.
  intros H. apply list_eq. intros i. destruct (decide (i = f)) as [->|Hne].
  - rewrite list_lookup_alter_eq, H. simpl.
    by rewrite list_lookup_insert_eq by (by eapply lookup_lt_Some).
  - by rewrite list_lookup_alter_ne, list_lookup_insert_ne by done.
Qed.

Lemma state_eq (s1 s2 : State) :
  st_api s1 = st_api s2 → st_options s1 = st_options s2 →
  st_frames s1 = st_frames s2 → st_log s1 = st_log s2 → s1 = s2.
Proof. destruct s1, s2; simpl; congruence. Qed.

Lemma update_frame_put (f : nat) (g : Frame → Frame) (st : State) (fr : Frame) :
  st_frames st !! f = Some fr → update_frame f g st = put f (g fr, []) st.
Proof.
  intros H. apply state_eq; simpl; try done.
  - by apply alter_as_insert.
  - by rewrite app_nil_r.
Qed.

Lemma log_put (f : nat) (a : Action) (st : State) (fr : Frame) :
  st_frames st !! f = Some fr → log a st = put f (fr, [a]) st.
Proof.
  intros H. apply state_eq; simpl; try done. by rewrite list_insert_id.
Qed.

Lemma put_put (f : nat) (x y : Frame * list Action) (st : State) :
  put f y (put f x st) = put f (y.1, x.2 ++ y.2) st.
Proof.
  apply state_eq; simpl; try done.
  - by rewrite list_insert_insert_eq.
  - by rewrite app_assoc.
Qed.

Lemma lookup_put (f : nat) (x : Frame * list Action) (st : State) (fr : Frame) :
  st_frames st !! f = Some fr → st_frames (put f x st) !! f = Some x.1.
Proof.
  intros H. simpl. apply list_lookup_insert_eq. by eapply lookup_lt_Some.
Qed.

Lemma lookup_put_ne (f g : nat) (x : Frame * list Action) (st : State) :
  f ≠ g → st_frames (put f x st) !! g = st_frames st !! g.
Proof. intros H. simpl. by apply list_lookup_insert_ne. Qed.

Lemma put_id (f : nat) (st : State) (fr : Frame) :
  st_frames st !! f = Some fr → put f (fr, []) st = st.
Proof.
  intros H. apply state_eq; simpl; try done.
  - by rewrite list_insert_id.
  - by rewrite app_nil_r.
Qed.

Lemma log_after_put (f : nat) (a : Action) (x : Frame * list Action) (st : State)
    (fr : Frame) :
  st_frames st !! f = Some fr → log a (put f x st) = put f (x.1, x.2 ++ [a]) st.
Proof.
  intros H. rewrite (log_put f a (put f x st) x.1) by (by eapply lookup_put).
  by rewrite put_put.
Qed.

Lemma update_after_put (f : nat) (g : Frame → Frame) (x : Frame * list Action)
    (st : State) (fr : Frame) :
  st_frames st !! f = Some fr → update_frame f g (put f x st) = put f (g x.1, x.2) st.
Proof.
  intros H. rewrite (update_frame_put f g (put f x st) x.1) by (by eapply lookup_put).
  rewrite put_put. simpl. by rewrite app_nil_r.
Qed.

Lemma call_put (f : nat) (s : Slot) (arg : Arg) (st : State) (fr : Frame) :
  st_frames st !! f = Some fr → call f s arg st = put f (local_call f s arg fr) st.
Proof.
  intros H. unfold call, local_call. rewrite H.
  destruct (once_called (cb_get (fr_callbacks fr) s)).
  - by apply log_put.
  - rewrite (log_put f (Call f s arg) st fr H).
    rewrite (update_after_put _ _ _ _ _ H).
    by rewrite (log_after_put _ _ _ _ _ H).
Qed.

Lemma call_after_put (f : nat) (s : Slot) (arg : Arg) (x : Frame * list Action)
    (st : State) (fr : Frame) :
  st_frames st !! f = Some fr →
  call f s arg (put f x st) = put f (and_then x (local_call f s arg)) st.
Proof.
  intros H. rewrite (call_put f s arg (put f x st) x.1) by (by eapply lookup_put).
  by rewrite put_put.
Qed.

Lemma local_call_static (f : nat) (s : Slot) (arg : Arg) (fr : Frame) :
  let fr' := (local_call f s arg fr).1 in
  fr_item fr' = fr_item fr ∧ fr_link fr' = fr_link fr
  ∧ fr_hasPollingCallbacks fr' = fr_hasPollingCallbacks fr
  ∧ fr_post fr' = fr_post fr ∧ fr_listener fr' = fr_listener fr
  ∧ fr_created fr' = fr_created fr ∧ fr_pollingTimeout fr' = fr_pollingTimeout fr
  ∧ fr_timers fr' = fr_timers fr ∧ fr_gets fr' = fr_gets fr.
Proof.
  unfold local_call. by destruct (once_called (cb_get (fr_callbacks fr) s)).
Qed.

Lemma call_if_after_put (b : bool) (f : nat) (s : Slot) (arg : Arg)
    (x : Frame * list Action) (st : State) (fr : Frame) :
  st_frames st !! f = Some fr →
  (if b then call f s arg (put f x st) else put f x st)
  = put f (and_then x (call_if b f s arg)) st.
Proof.
  intros H. destruct b; simpl.
  - by eapply call_after_put.
  - unfold and_then. simpl. rewrite app_nil_r. by destruct x.
Qed.

Section Refinement.

Variable format_d : Port → string.
Variable js_encodeURIComponent : string → string.
Variable createReadStream_throws : string → option string.

Local Abbreviation process := (process format_d createReadStream_throws).
Local Abbreviation creator_callback := (creator_callback format_d createReadStream_throws).
Local Abbreviation poll := (poll format_d js_encodeURIComponent).
Local Abbreviation step := (step format_d js_encodeURIComponent createReadStream_throws).
Local Abbreviation run := (run format_d js_encodeURIComponent createReadStream_throws).
Local Abbreviation local_step := (local_step format_d js_encodeURIComponent).

(** The creator's callback after [x] has been done to invocation [f]. *)
Lemma creator_callback_created (f : nat) (r : Resource) (x : Frame * list Action)
    (st : State) (fr : Frame) :
  st_frames st !! f = Some fr →
  creator_callback f (inr r) (put f x st) = put f (and_then x (local_created f r)) st.
Proof.
  intros H. unfold creator_callback.
  rewrite (lookup_put _ _ _ _ H).
  rewrite (call_after_put _ _ _ _ _ _ H).
  pose proof (local_call_static f SStart (AResource r) x.1) as (_&_&Hhas&_).
  unfold local_created, and_then. simpl.
  case_bool_decide.
  - rewrite (call_after_put _ _ _ _ _ _ H). unfold and_then. simpl.
    by rewrite app_assoc.
  - simpl in Hhas. rewrite <- Hhas.
    destruct (fr_hasPollingCallbacks (local_call f SStart (AResource r) x.1).1); simpl.
    + rewrite (update_after_put _ _ _ _ _ H), (log_after_put _ _ _ _ _ H).
      simpl. by rewrite app_assoc.
    + by rewrite app_nil_r.
Qed.

Lemma creator_callback_error (f : nat) (e : Error) (x : Frame * list Action)
    (st : State) (fr : Frame) :
  st_frames st !! f = Some fr → is_link_unreachable e = false →
  creator_callback f (inl e) (put f x st)
  = put f (and_then x (local_call f SError (AError e))) st.
Proof.
  intros H He. unfold creator_callback. rewrite (lookup_put _ _ _ _ H), He.
  by eapply call_after_put.
Qed.

Lemma creator_callback_retry (f : nat) (e : Error) (x : Frame * list Action)
    (st : State) (fr : Frame) :
  st_frames st !! f = Some fr → is_link_unreachable e = true →
  creator_callback f (inl e) (put f x st) =
  process (ItemStream (RequestStream (fr_item x.1)))
    (put f (x.1, x.2 ++ [Fetch f (fr_item x.1)]) st).
Proof.
  intros H He. unfold creator_callback. rewrite (lookup_put _ _ _ _ H), He.
  by rewrite (log_after_put _ _ _ _ _ H).
Qed.

Lemma poll_callback_put (f : nat) (res : Error + Resource) (x : Frame * list Action)
    (st : State) (fr : Frame) :
  st_frames st !! f = Some fr →
  poll_callback f res (put f x st) = put f (and_then x (local_polled f res)) st.
Proof.
  intros H. unfold poll_callback, local_polled. destruct res as [e|r].
  - by eapply call_after_put.
  - rewrite (call_if_after_put _ _ _ _ _ _ _ H).
    rewrite (call_if_after_put _ _ _ _ _ _ _ H).
    case_bool_decide.
    + rewrite (call_after_put _ _ _ _ _ _ H). unfold and_then. simpl.
      by rewrite !app_assoc.
    + rewrite (lookup_put _ _ _ _ H).
      rewrite (update_after_put _ _ _ _ _ H), (log_after_put _ _ _ _ _ H).
      unfold and_then. simpl. by rewrite !app_assoc.
Qed.

(** [step] acts on the invocation of the event as [local_step] says, and
    then starts the nested [process] when the retry is taken. *)
Lemma step_local (ev : Event) (st : State) :
  step ev st =
  fr ← st_frames st !! event_frame ev;
  '(x, retry) ← local_step (st_api st) ev fr;
  Some (let st' := put (event_frame ev) x st in
        if retry : bool
        then process (ItemStream (RequestStream (fr_item fr))) st' else st').
Proof.
  destruct ev as [f res|f e|f|f res]; simpl;
    destruct (st_frames st !! f) as [fr|] eqn:Hfr; simpl; try done.
  - destruct (fr_post fr); [|done].
    rewrite (update_frame_put _ _ _ _ Hfr).
    destruct res as [e|r].
    + destruct (is_link_unreachable e) eqn:He; simpl.
      * by rewrite (creator_callback_retry _ _ _ _ _ Hfr He).
      * by rewrite (creator_callback_error _ _ _ _ _ Hfr He).
    + simpl. by rewrite (creator_callback_created _ _ _ _ _ Hfr).
  - destruct (fr_listener fr); [|done]. simpl.
    rewrite <- (put_id f st fr Hfr) at 1.
    by rewrite (creator_callback_error _ _ _ _ _ Hfr).
  - destruct (fr_timers fr) as [|n]; [done|].
    rewrite (update_frame_put _ _ _ _ Hfr). unfold poll.
    rewrite (lookup_put _ _ _ _ Hfr). simpl.
    destruct (fr_created fr) as [r|]; simpl; [|done].
    by rewrite (update_after_put _ _ _ _ _ Hfr), (log_after_put _ _ _ _ _ Hfr).
  - destruct (fr_gets fr) as [|n]; [done|].
    rewrite (update_frame_put _ _ _ _ Hfr).
    by rewrite (poll_callback_put _ _ _ _ _ Hfr).
Qed.

End Refinement.

(** ** The invariant of one invocation *)

Lemma cb_get_set (c : Callbacks) (s s' : Slot) (o : Once) :
  cb_get (cb_set c s o) s' = if decide (s' = s) then o else cb_get c s'.
Proof. by destruct s, s'. Qed.

Section LocalCall.

Variables (f : nat) (s : Slot) (arg : Arg) (fr : Frame).

Lemma local_call_log :
  (local_call f s arg fr).2 = Call f s arg ::
        (if once_called (cb_get (fr_callbacks fr) s) then []
         else [Invoke f s (once_fn (cb_get (fr_callbacks fr) s)) arg]).
Proof.
  unfold local_call. by destruct (once_called (cb_get (fr_callbacks fr) s)).
Qed.

Lemma local_call_triggers (s' : Slot) :
  triggers s' (local_call f s arg fr).2 = if decide (s' = s) then 1%nat else 0%nat.
Proof.
  rewrite local_call_log. unfold triggers. simpl.
  destruct (once_called (cb_get (fr_callbacks fr) s)); simpl;
    case_bool_decide; case_decide; simpl; congruence.
Qed.

Lemma local_call_invocations (s' : Slot) :
  invocations s' (local_call f s arg fr).2 =
  if decide (s' = s)
  then (if once_called (cb_get (fr_callbacks fr) s) then 0%nat else 1%nat)
  else 0%nat.
Proof.
  rewrite local_call_log. unfold invocations. simpl.
  destruct (once_called (cb_get (fr_callbacks fr) s)); simpl;
    try case_bool_decide; case_decide; simpl; congruence.
Qed.

Lemma local_call_silent :
  timeouts (local_call f s arg fr).2 = []
  ∧ polls (local_call f s arg fr).2 = 0%nat
  ∧ posts (local_call f s arg fr).2 = 0%nat
  ∧ fetches (local_call f s arg fr).2 = 0%nat.
Proof.
  rewrite local_call_log.
  by destruct (once_called (cb_get (fr_callbacks fr) s)).
Qed.

Lemma local_call_tags : Forall (λ a, action_frame a = f) (local_call f s arg fr).2.
Proof.
  rewrite local_call_log.
  destruct (once_called (cb_get (fr_callbacks fr) s)); repeat constructor.
Qed.

Lemma local_call_called (s' : Slot) :
  once_called (cb_get (fr_callbacks (local_call f s arg fr).1) s') =
  if decide (s' = s) then true else once_called (cb_get (fr_callbacks fr) s').
Proof.
  unfold local_call.
  destruct (decide (s' = s)) as [->|Hne];
    destruct (once_called (cb_get (fr_callbacks fr) s)) eqn:E; simpl;
    rewrite ?cb_get_set, ?decide_True, ?decide_False by done; done.
Qed.

Lemma local_call_fn (s' : Slot) :
  once_fn (cb_get (fr_callbacks (local_call f s arg fr).1) s')
  = once_fn (cb_get (fr_callbacks fr) s').
Proof.
  unfold local_call.
  destruct (decide (s' = s)) as [->|Hne];
    destruct (once_called (cb_get (fr_callbacks fr) s)) eqn:E; simpl;
    rewrite ?cb_get_set, ?decide_True, ?decide_False by done; done.
Qed.

Lemma local_call_inv (l : list Action) :
  local_inv l fr → s ≠ SImages →
  fr_post fr = false ∨ (fr_listener fr = true ∧ s = SError) →
  fetches l = 0%nat ∨ fr_listener fr = true →
  local_inv (l ++ (local_call f s arg fr).2) (local_call f s arg fr).1.
Proof.
  intros [Honce Hone Hpost Hback Hret Hlink Himg] Hs Hp Hf.
  pose proof (local_call_static f s arg fr) as (_ & E2 & E3 & E4 & E5 & E6 & E7 & E8 & E9).
  pose proof local_call_silent as (S1 & S2 & S3 & S4).
  pose proof local_call_triggers as T.
  pose proof local_call_invocations as I.
  pose proof local_call_called as C.
  simpl in *.
  unfold triggers, invocations, polls, fetches in *.
  constructor; rewrite ?E2, ?E3, ?E4, ?E5, ?E6, ?E7, ?E8, ?E9;
    unfold triggers, invocations, polls, fetches;
    rewrite ?timeouts_app, ?S1, ?app_nil_r;
    try setoid_rewrite count_app; rewrite ?S2, ?S4, ?Nat.add_0_r.
  - intros s'. rewrite T, I, C. destruct (Honce s') as [H1 H2].
    case_decide; subst.
    + destruct (once_called (cb_get (fr_callbacks fr) s)); split; try lia;
        split; intros; try done; lia.
    + by rewrite !Nat.add_0_r.
  - done.
  - intros Hpst. destruct (Hpost Hpst) as (?&?&?&?&H5&H6).
    destruct Hp as [?|[Hl ->]]; [congruence|].
    repeat split; try done.
    + intros s' Hs'. rewrite T, decide_False, Nat.add_0_r by done. by apply H5.
    + congruence.
  - done.
  - intros Hfetch. destruct (Hret Hfetch) as (?&?&?&?&H2). split_and!; try done.
    intros Hl. destruct Hf; [lia | congruence].
  - done.
  - rewrite T, decide_False by done. lia.
Qed.



End LocalCall.

Lemma local_call_frame (f : nat) (s : Slot) (arg : Arg) (fr : Frame) :
  ∃ c, (local_call f s arg fr).1 = set_callbacks c fr.
Proof.
  unfold local_call. destruct (once_called (cb_get (fr_callbacks fr) s)); simpl.
  - exists (fr_callbacks fr). by destruct fr.
  - eauto.
Qed.

Lemma call_if_frame (b : bool) (f : nat) (s : Slot) (arg : Arg) (fr : Frame) :
  ∃ c, (call_if b f s arg fr).1 = set_callbacks c fr.
Proof.
  destruct b; simpl; [apply local_call_frame |].
  exists (fr_callbacks fr). by destruct fr.
Qed.

Lemma call_if_static (b : bool) (f : nat) (s : Slot) (arg : Arg) (fr : Frame) :
  let fr' := (call_if b f s arg fr).1 in
  fr_item fr' = fr_item fr ∧ fr_link fr' = fr_link fr
  ∧ fr_hasPollingCallbacks fr' = fr_hasPollingCallbacks fr
  ∧ fr_post fr' = fr_post fr ∧ fr_listener fr' = fr_listener fr
  ∧ fr_created fr' = fr_created fr ∧ fr_pollingTimeout fr' = fr_pollingTimeout fr
  ∧ fr_timers fr' = fr_timers fr ∧ fr_gets fr' = fr_gets fr.
Proof. destruct b; simpl; [apply local_call_static | done]. Qed.

Lemma call_if_silent (b : bool) (f : nat) (s : Slot) (arg : Arg) (fr : Frame) :
  let x := call_if b f s arg fr in
  timeouts x.2 = [] ∧ polls x.2 = 0%nat ∧ posts x.2 = 0%nat ∧ fetches x.2 = 0%nat.
Proof. destruct b; simpl; [apply local_call_silent | done]. Qed.

Lemma call_if_tags (b : bool) (f : nat) (s : Slot) (arg : Arg) (fr : Frame) :
  Forall (λ a, action_frame a = f) (call_if b f s arg fr).2.
Proof. destruct b; simpl; [apply local_call_tags | constructor]. Qed.

Lemma call_if_fn (b : bool) (f : nat) (s : Slot) (arg : Arg) (fr : Frame) (s' : Slot) :
  once_fn (cb_get (fr_callbacks (call_if b f s arg fr).1) s')
  = once_fn (cb_get (fr_callbacks fr) s').
Proof. destruct b; simpl; [apply local_call_fn | done]. Qed.

Lemma call_if_inv (b : bool) (f : nat) (s : Slot) (arg : Arg) (fr : Frame)
    (l : list Action) :
  local_inv l fr → s ≠ SImages → fr_post fr = false →
  fetches l = 0%nat ∨ fr_listener fr = true →
  local_inv (l ++ (call_if b f s arg fr).2) (call_if b f s arg fr).1.
Proof.
  intros. destruct b; simpl.
  - apply local_call_inv; auto.
  - by rewrite app_nil_r.
Qed.

(** Writing fields that the invariant does not constrain. *)
Lemma set_post_inv (l : list Action) (fr : Frame) :
  local_inv l fr → fr_post fr = true → local_inv l (set_post false fr).
Proof.
  intros [Honce Hone Hpost Hback Hret Hlink Himg] Hp.
  destruct (Hpost Hp) as (?&?&?&Hfe&?&?).
  constructor; simpl; try done.
Qed.

Lemma retry_inv (l : list Action) (fr : Frame) (f : nat) :
  local_inv l fr → fr_post fr = true →
  local_inv (l ++ [Fetch f (fr_item fr)]) (set_post false fr).
Proof.
  intros [Honce Hone Hpost Hback Hret Hlink Himg] Hp.
  destruct (Hpost Hp) as (Ht&Hg&?&?&?&Hl).
  unfold triggers, invocations, polls, fetches in *.
  constructor; simpl; split_trace; done.
Qed.

Lemma backoff_seq_snoc (k : nat) :
  map backoff (seq 0 (S k)) = map backoff (seq 0 k) ++ [backoff k].
Proof. by rewrite seq_S, map_app. Qed.

Lemma first_timer_inv (l : list Action) (fr : Frame) (f : nat) (r : Resource) :
  local_inv l fr → fr_post fr = false → fr_timers fr = 0%nat → fr_gets fr = 0%nat →
  timeouts l = [] → fetches l = 0%nat → fr_hasPollingCallbacks fr = true →
  local_inv (l ++ [SetTimeout f DEFAULT_POLLING_INITIAL_TIMEOUT])
    (set_poller (Some r) DEFAULT_POLLING_INITIAL_TIMEOUT
       (S (fr_timers fr)) (fr_gets fr) fr).
Proof.
  intros [Honce Hone Hpost Hback Hret Hlink Himg] Hp Ht Hg Hto Hfe Hhas.
  destruct Hback as (k & Hk1 & Hk2 & Hk3 & Hk4).
  assert (k = 0%nat) as ->.
  { rewrite Hto in Hk1. destruct k; [done|].
    by rewrite backoff_seq_snoc in Hk1; destruct (map backoff (seq 0 k)). }
  unfold triggers, invocations, polls, fetches in *.
  constructor; simpl; split_trace; rewrite ?Hp, ?Ht, ?Hg; try done.
  - exists 1%nat. rewrite Hto. simpl. repeat split; try done; try lia; eauto.
    congruence.
  - intros Hf. rewrite Hfe in Hf. lia.
Qed.

Lemma next_timer_inv (l : list Action) (fr : Frame) (f : nat) (k : nat) :
  local_inv l fr → fr_post fr = false → fr_timers fr = 0%nat → fr_gets fr = 0%nat →
  fetches l = 0%nat →
  timeouts l = map backoff (seq 0 (S k)) → polls l = S k →
  fr_pollingTimeout fr = backoff k → is_Some (fr_created fr) →
  let t := fr_pollingTimeout fr + Math_round_div (fr_pollingTimeout fr) 4 in
  local_inv (l ++ [SetTimeout f t])
    (set_poller (fr_created fr) t (S (fr_timers fr)) (fr_gets fr) fr).
Proof.
  intros [Honce Hone Hpost Hback Hret Hlink Himg] Hp Ht Hg Hfe Hto Hpolls Hpt Hcr t.
  destruct Hback as (k' & Hk1 & Hk2 & Hk3 & Hk4).
  assert (k' = S k) as -> by (rewrite Ht in Hk2; lia).
  unfold triggers, invocations, polls, fetches in *.
  constructor; simpl; split_trace; rewrite ?Hp, ?Ht, ?Hg; try done.
  - exists (S (S k)). rewrite (backoff_seq_snoc (S k)), Hto. subst t.
    rewrite Hpt. simpl.
    repeat split; try done; try lia.
    intros Hno. specialize (Hk3 Hno). lia.
  - intros Hf. rewrite Hfe in Hf. lia.
Qed.

Lemma clear_get_inv (l : list Action) (fr : Frame) (n : nat) :
  local_inv l fr → fr_gets fr = S n →
  local_inv l (set_poller (fr_created fr) (fr_pollingTimeout fr) (fr_timers fr) n fr)
  ∧ n = 0%nat ∧ fr_timers fr = 0%nat ∧ fr_post fr = false
  ∧ fetches l = 0%nat
  ∧ ∃ k, timeouts l = map backoff (seq 0 (S k)) ∧ polls l = S k
         ∧ fr_pollingTimeout fr = backoff k ∧ is_Some (fr_created fr).
Proof.
  intros [Honce Hone Hpost Hback Hret Hlink Himg] Hg.
  assert (n = 0%nat ∧ fr_timers fr = 0%nat) as [-> Ht] by lia.
  assert (Hp : fr_post fr = false).
  { destruct (fr_post fr); [|done]. destruct Hpost as (?&?&_); [done | lia]. }
  assert (Hfe : fetches l = 0%nat).
  { destruct (fetches l) eqn:E; [done|]. destruct Hret as (_&_&?&_); lia. }
  destruct Hback as (k & Hk1 & Hk2 & Hk3 & Hk4).
  destruct Hk4 as (Hpos & Hpt & Hcr); [lia|].
  destruct k as [|k]; [lia|]. simpl in Hpt. rewrite Nat.sub_0_r in Hpt.
  split; [constructor; simpl; try done | repeat split; try done].
  - rewrite Ht. lia.
  - intros Hpst. congruence.
  - exists (S k). rewrite Ht in *. repeat split; try done. intros. lia.
  - intros Hf. rewrite Hfe in Hf. lia.
  - exists k. repeat split; try done. lia.
Qed.

(** The functions that run are those behind the wrappers. *)
Lemma invokes_of_nil (F : Slot → Fn) : invokes_of F [].
Proof. intros f s fn arg H. by apply elem_of_nil in H. Qed.

Lemma invokes_of_app (F : Slot → Fn) (l1 l2 : list Action) :
  invokes_of F l1 → invokes_of F l2 → invokes_of F (l1 ++ l2).
Proof. intros H1 H2 f s fn arg [H|H]%elem_of_app; eauto. Qed.

Lemma local_call_invokes (F : Slot → Fn) (f : nat) (s : Slot) (arg : Arg) (fr : Frame) :
  (∀ s', once_fn (cb_get (fr_callbacks fr) s') = F s') →
  invokes_of F (local_call f s arg fr).2.
Proof.
  intros HF g s' fn arg'. rewrite local_call_log.
  destruct (once_called (cb_get (fr_callbacks fr) s)).
  - intros H%list_elem_of_singleton. done.
  - intros [H|H%list_elem_of_singleton]%elem_of_cons; [done|]. simplify_eq. apply HF.
Qed.

Lemma call_if_invokes (F : Slot → Fn) (b : bool) (f : nat) (s : Slot) (arg : Arg)
    (fr : Frame) :
  (∀ s', once_fn (cb_get (fr_callbacks fr) s') = F s') →
  invokes_of F (call_if b f s arg fr).2.
Proof.
  destruct b; simpl; [apply local_call_invokes | intros _; apply invokes_of_nil].
Qed.

Lemma local_created_invokes (F : Slot → Fn) (f : nat) (r : Resource) (fr : Frame) :
  (∀ s, once_fn (cb_get (fr_callbacks fr) s) = F s) →
  invokes_of F (local_created f r fr).2.
Proof.
  intros HF. unfold local_created, and_then. cbn [fst snd].
  apply invokes_of_app; [by apply local_call_invokes|].
  assert (HF' : ∀ s, once_fn (cb_get
                  (fr_callbacks (local_call f SStart (AResource r) fr).1) s) = F s)
    by (intros s; by rewrite local_call_fn).
  case_bool_decide; [by apply local_call_invokes|].
  destruct (negb _); [apply invokes_of_nil|].
  intros g s fn arg Hin%list_elem_of_singleton. done.
Qed.

Lemma local_polled_invokes (F : Slot → Fn) (f : nat) (res : Error + Resource)
    (fr : Frame) :
  (∀ s, once_fn (cb_get (fr_callbacks fr) s) = F s) →
  invokes_of F (local_polled f res fr).2.
Proof.
  intros HF. destruct res as [e|r]; simpl; [by apply local_call_invokes|].
  unfold and_then. cbn [fst snd].
  assert (HF1 : ∀ s, once_fn (cb_get (fr_callbacks
                  (call_if (no_pending (res_thumbnails r)) f SThumbnails
                     (AJobs (res_thumbnails r)) fr).1) s) = F s)
    by (intros s; by rewrite call_if_fn).
  assert (HF2 : ∀ s, once_fn (cb_get (fr_callbacks
                  (call_if (no_pending (res_images r)) f SThumbnails
                     (AJobs (res_images r))
                     (call_if (no_pending (res_thumbnails r)) f SThumbnails
                        (AJobs (res_thumbnails r)) fr).1).1) s) = F s)
    by (intros s; by rewrite call_if_fn).
  apply invokes_of_app; [by apply call_if_invokes|].
  apply invokes_of_app; [by apply call_if_invokes|].
  case_bool_decide; [by apply local_call_invokes|].
  intros g s fn arg Hin%list_elem_of_singleton. done.
Qed.

Section LocalStep.

Variable format_d : Port → string.
Variable js_encodeURIComponent : string → string.

Local Abbreviation local_step := (local_step format_d js_encodeURIComponent).

Lemma local_created_inv (f : nat) (r : Resource) (fr : Frame) (l : list Action) :
  local_inv l fr → fr_post fr = false → fr_timers fr = 0%nat → fr_gets fr = 0%nat →
  timeouts l = [] → fetches l = 0%nat →
  local_inv (l ++ (local_created f r fr).2) (local_created f r fr).1.
Proof.
  intros Hinv Hp Ht Hg Hto Hfe. unfold local_created, and_then. simpl.
  pose proof (local_call_inv f SStart (AResource r) fr l Hinv) as H1.
  destruct (local_call_frame f SStart (AResource r) fr) as [c Hc].
  pose proof (local_call_silent f SStart (AResource r) fr) as (S1 & S2 & S3 & S4).
  set (x := local_call f SStart (AResource r) fr) in *.
  assert (Hx : local_inv (l ++ x.2) x.1) by (apply H1; auto; done).
  assert (Hfe' : fetches (l ++ x.2) = 0%nat)
    by (unfold fetches in *; rewrite count_app; lia).
  rewrite app_assoc. case_bool_decide.
  - apply local_call_inv; auto; try done. left. by rewrite Hc.
  - destruct (fr_hasPollingCallbacks x.1) eqn:Hhas; simpl.
    + apply first_timer_inv; rewrite ?Hc; simpl; auto.
      * by rewrite <- Hc.
      * by rewrite timeouts_app, Hto, S1.
      * by rewrite Hc in Hhas.
    + by rewrite app_nil_r.
Qed.

Lemma local_polled_inv (f : nat) (res : Error + Resource) (fr : Frame)
    (l : list Action) (k : nat) :
  local_inv l fr → fr_post fr = false → fr_timers fr = 0%nat → fr_gets fr = 0%nat →
  fetches l = 0%nat →
  timeouts l = map backoff (seq 0 (S k)) → polls l = S k →
  fr_pollingTimeout fr = backoff k → is_Some (fr_created fr) →
  local_inv (l ++ (local_polled f res fr).2) (local_polled f res fr).1.
Proof.
  intros Hinv Hp Ht Hg Hfe Hto Hpolls Hpt Hcr. destruct res as [e|r]; simpl.
  { apply local_call_inv; auto; done. }
  unfold and_then. simpl.
  set (x := call_if (no_pending (res_thumbnails r)) f SThumbnails
              (AJobs (res_thumbnails r)) fr).
  destruct (call_if_frame (no_pending (res_thumbnails r)) f SThumbnails
              (AJobs (res_thumbnails r)) fr) as [c Hc]. fold x in Hc.
  pose proof (call_if_silent (no_pending (res_thumbnails r)) f SThumbnails
                (AJobs (res_thumbnails r)) fr) as (S1 & S2 & S3 & S4).
  fold x in S1, S2, S3, S4.
  assert (Hx : local_inv (l ++ x.2) x.1) by (apply call_if_inv; auto; done).
  assert (Hfe1 : fetches (l ++ x.2) = 0%nat)
    by (unfold fetches in *; rewrite count_app; lia).
  set (y := call_if (no_pending (res_images r)) f SThumbnails
              (AJobs (res_images r)) x.1).
  destruct (call_if_frame (no_pending (res_images r)) f SThumbnails
              (AJobs (res_images r)) x.1) as [c' Hc']. fold y in Hc'.
  pose proof (call_if_silent (no_pending (res_images r)) f SThumbnails
                (AJobs (res_images r)) x.1) as (T1 & T2 & T3 & T4).
  fold y in T1, T2, T3, T4.
  assert (Hy : local_inv ((l ++ x.2) ++ y.2) y.1).
  { apply call_if_inv; auto; try done. by rewrite Hc. }
  assert (Hfe2 : fetches ((l ++ x.2) ++ y.2) = 0%nat)
    by (unfold fetches in *; rewrite count_app; lia).
  rewrite !app_assoc. case_bool_decide.
  - apply local_call_inv; auto; try done. left. by rewrite Hc', Hc.
  - apply (next_timer_inv _ _ _ k); auto; rewrite ?Hc', ?Hc; simpl; auto.
    + by rewrite !timeouts_app, S1, T1, !app_nil_r.
    + unfold polls in *. rewrite !count_app. lia.
Qed.

Lemma local_step_inv (api : Api) (ev : Event) (fr : Frame) (l : list Action)
    (x : Frame * list Action) (retry : bool) :
  local_inv l fr → local_step api ev fr = Some (x, retry) →
  local_inv (l ++ x.2) x.1.
Proof.
  intros Hinv Hstep. destruct ev as [f res|f e|f|f res]; simpl in Hstep.
  - destruct (fr_post fr) eqn:Hp; [|done].
    pose proof (set_post_inv l fr Hinv Hp) as Hinv'.
    destruct (inv_post _ _ Hinv Hp) as (Ht & Hg & Hto & Hfe & _).
    destruct res as [e|r].
    + destruct (is_link_unreachable e); simplify_eq; simpl.
      * by apply retry_inv.
      * apply local_call_inv; auto; done.
    + simplify_eq. by apply local_created_inv.
  - destruct (fr_listener fr) eqn:Hl; [|done]. simplify_eq.
    apply local_call_inv; auto; done.
  - destruct (fr_timers fr) as [|n] eqn:Ht; [done|].
    destruct Hinv as [Honce Hone Hpost Hback Hret Hlink Himg].
    assert (n = 0%nat ∧ fr_gets fr = 0%nat) as [-> Hg] by lia.
    assert (Hp : fr_post fr = false).
    { destruct (fr_post fr); [|done]. destruct Hpost as (?&_); [done | lia]. }
    destruct Hback as (k & Hk1 & Hk2 & Hk3 & Hk4).
    destruct Hk4 as (Hpos & Hpt & [r Hcr]); [lia|].
    rewrite Hcr in Hstep. simplify_eq. simpl.
    constructor; simpl; split_trace; rewrite ?Hp, ?Hg; try done.
    * exists (polls l + 1)%nat. unfold polls in *.
      repeat split; try done; try lia.
      -- by rewrite Hk1, Ht.
      -- intros Hno. specialize (Hk3 Hno). lia.
      -- by rewrite Hpt, Ht.
    * intros Hf. destruct (Hret Hf) as (_&?&_). lia.
  - destruct (fr_gets fr) as [|n] eqn:Hg; [done|]. simplify_eq. simpl.
    destruct (clear_get_inv l fr n Hinv Hg)
      as (Hinv' & -> & Ht & Hp & Hfe & k & Hto & Hpolls & Hpt & Hcr).
    apply (local_polled_inv _ _ _ _ k); auto.
Qed.

Lemma local_step_invokes (F : Slot → Fn) (api : Api) (ev : Event) (fr : Frame)
    (x : Frame * list Action) (retry : bool) :
  (∀ s, once_fn (cb_get (fr_callbacks fr) s) = F s) →
  local_step api ev fr = Some (x, retry) → invokes_of F x.2.
Proof.
  intros HF Hstep. destruct ev as [f res|f e|f|f res]; simpl in Hstep.
  - destruct (fr_post fr); [|done]. destruct res as [e|r].
    + destruct (is_link_unreachable e); simplify_eq; simpl.
      * intros g s fn arg Hin%list_elem_of_singleton. done.
      * by apply local_call_invokes.
    + simplify_eq. by apply local_created_invokes.
  - destruct (fr_listener fr); [|done]. simplify_eq. by apply local_call_invokes.
  - destruct (fr_timers fr) as [|n]; [done|].
    destruct (fr_created fr); simplify_eq; simpl.
    + intros g s fn arg Hin%list_elem_of_singleton. done.
    + apply invokes_of_nil.
  - destruct (fr_gets fr) as [|n]; [done|]. simplify_eq.
    by apply local_polled_invokes.
Qed.

(** What no event changes, and what the actions of an event are tagged
    with. *)
Lemma local_created_shape (f : nat) (r : Resource) (fr : Frame) :
  let x := local_created f r fr in
  Forall (λ a, action_frame a = f) x.2
  ∧ (∀ s, once_fn (cb_get (fr_callbacks x.1) s) = once_fn (cb_get (fr_callbacks fr) s))
  ∧ fr_hasPollingCallbacks x.1 = fr_hasPollingCallbacks fr
  ∧ fr_link x.1 = fr_link fr ∧ fr_post x.1 = fr_post fr
  ∧ fr_listener x.1 = fr_listener fr ∧ fr_item x.1 = fr_item fr
  ∧ fetches x.2 = 0%nat ∧ posts x.2 = 0%nat.
Proof.
  unfold local_created, and_then. simpl.
  pose proof (local_call_static f SStart (AResource r) fr) as (E1&E2&E3&E4&E5&_).
  pose proof (local_call_silent f SStart (AResource r) fr) as (_&_&S3&S4).
  pose proof (local_call_tags f SStart (AResource r) fr) as T.
  pose proof (local_call_fn f SStart (AResource r) fr) as F.
  set (x := local_call f SStart (AResource r) fr) in *. simpl in *.
  case_bool_decide.
  - pose proof (local_call_static f SComplete (AResource r) x.1) as (E1'&E2'&E3'&E4'&E5'&_).
    pose proof (local_call_silent f SComplete (AResource r) x.1) as (_&_&S3'&S4').
    pose proof (local_call_tags f SComplete (AResource r) x.1) as T'.
    pose proof (local_call_fn f SComplete (AResource r) x.1) as F'.
    simpl in *. unfold fetches, posts in *. rewrite !count_app.
    close_shape.
  - destruct (fr_hasPollingCallbacks x.1) eqn:Hhas; simpl;
      unfold fetches, posts in *; rewrite ?count_app, ?app_nil_r; simpl;
      close_shape.
Qed.

Lemma local_polled_shape (f : nat) (res : Error + Resource) (fr : Frame) :
  let x := local_polled f res fr in
  Forall (λ a, action_frame a = f) x.2
  ∧ (∀ s, once_fn (cb_get (fr_callbacks x.1) s) = once_fn (cb_get (fr_callbacks fr) s))
  ∧ fr_hasPollingCallbacks x.1 = fr_hasPollingCallbacks fr
  ∧ fr_link x.1 = fr_link fr ∧ fr_post x.1 = fr_post fr
  ∧ fr_listener x.1 = fr_listener fr ∧ fr_item x.1 = fr_item fr
  ∧ fetches x.2 = 0%nat ∧ posts x.2 = 0%nat.
Proof.
  destruct res as [e|r]; simpl.
  { pose proof (local_call_static f SError (AError e) fr) as (E1&E2&E3&E4&E5&_).
    pose proof (local_call_silent f SError (AError e) fr) as (_&_&S3&S4).
    pose proof (local_call_tags f SError (AError e) fr) as T.
    pose proof (local_call_fn f SError (AError e) fr) as F.
    simpl in *. close_shape. }
  unfold and_then. simpl.
  pose proof (call_if_static (no_pending (res_thumbnails r)) f SThumbnails
                (AJobs (res_thumbnails r)) fr) as (A1&A2&A3&A4&A5&_).
  pose proof (call_if_silent (no_pending (res_thumbnails r)) f SThumbnails
                (AJobs (res_thumbnails r)) fr) as (_ & _ & S3 & S4).
  pose proof (call_if_tags (no_pending (res_thumbnails r)) f SThumbnails
                (AJobs (res_thumbnails r)) fr) as T.
  pose proof (call_if_fn (no_pending (res_thumbnails r)) f SThumbnails
                (AJobs (res_thumbnails r)) fr) as F.
  set (x := call_if (no_pending (res_thumbnails r)) f SThumbnails
              (AJobs (res_thumbnails r)) fr) in *.
  pose proof (call_if_static (no_pending (res_images r)) f SThumbnails
                (AJobs (res_images r)) x.1) as (B1&B2&B3&B4&B5&_).
  pose proof (call_if_silent (no_pending (res_images r)) f SThumbnails
                (AJobs (res_images r)) x.1) as (_ & _ & S3' & S4').
  pose proof (call_if_tags (no_pending (res_images r)) f SThumbnails
                (AJobs (res_images r)) x.1) as T'.
  pose proof (call_if_fn (no_pending (res_images r)) f SThumbnails
                (AJobs (res_images r)) x.1) as F'.
  set (y := call_if (no_pending (res_images r)) f SThumbnails
              (AJobs (res_images r)) x.1) in *.
  simpl in *. case_bool_decide.
  - pose proof (local_call_static f SComplete (AResource r) y.1) as (E1&E2&E3&E4&E5&_).
    pose proof (local_call_silent f SComplete (AResource r) y.1) as (_&_&S3''&S4'').
    pose proof (local_call_tags f SComplete (AResource r) y.1) as T''.
    pose proof (local_call_fn f SComplete (AResource r) y.1) as F''.
    simpl in *.
    unfold fetches, posts in *. rewrite !count_app.
    close_shape.
  - simpl.
    unfold fetches, posts in *. rewrite !count_app. simpl.
    close_shape.
Qed.

Lemma local_step_shape (api : Api) (ev : Event) (fr : Frame)
    (x : Frame * list Action) (retry : bool) :
  local_step api ev fr = Some (x, retry) →
  Forall (λ a, action_frame a = event_frame ev) x.2
  ∧ (∀ s, once_fn (cb_get (fr_callbacks x.1) s) = once_fn (cb_get (fr_callbacks fr) s))
  ∧ fr_hasPollingCallbacks x.1 = fr_hasPollingCallbacks fr
  ∧ fr_link x.1 = fr_link fr ∧ fr_listener x.1 = fr_listener fr
  ∧ fr_item x.1 = fr_item fr
  ∧ (fr_post x.1 = true → fr_post fr = true)
  ∧ (retry = true → fr_post x.1 = false ∧ x.2 = [Fetch (event_frame ev) (fr_item fr)])
  ∧ (retry = false → fetches x.2 = 0%nat ∧ posts x.2 = 0%nat).
Proof.
  intros Hstep. destruct ev as [f res|f e|f|f res]; simpl in Hstep.
  - destruct (fr_post fr) eqn:Hp; [|done]. destruct res as [e|r].
    + destruct (is_link_unreachable e); simplify_eq; simpl.
      * close_shape.
      * pose proof (local_call_static f SError (AError e) (set_post false fr))
          as (E1&E2&E3&E4&E5&_).
        pose proof (local_call_silent f SError (AError e) (set_post false fr))
          as (_&_&S3&S4).
        pose proof (local_call_tags f SError (AError e) (set_post false fr)) as T.
        pose proof (local_call_fn f SError (AError e) (set_post false fr)) as F.
        simpl in *. close_shape.
    + simplify_eq.
      pose proof (local_created_shape f r (set_post false fr))
        as (T&F&E1&E2&E3&E4&E5&S3&S4).
      simpl in *. close_shape.
  - destruct (fr_listener fr) eqn:Hl; [|done]. simplify_eq.
    set (e' := mkError None (Some STREAM_READ_MESSAGE) (Some e)).
    pose proof (local_call_static f SError (AError e') fr) as (E1&E2&E3&E4&E5&_).
    pose proof (local_call_silent f SError (AError e') fr) as (_&_&S3&S4).
    pose proof (local_call_tags f SError (AError e') fr) as T.
    pose proof (local_call_fn f SError (AError e') fr) as F.
    simpl in *. close_shape.
  - destruct (fr_timers fr) as [|n]; [done|].
    destruct (fr_created fr); simplify_eq; simpl; close_shape.
  - destruct (fr_gets fr) as [|n]; [done|]. simplify_eq.
    pose proof (local_polled_shape f res
                  (set_poller (fr_created fr) (fr_pollingTimeout fr) (fr_timers fr) n fr))
      as (T&F&E1&E2&E3&E4&E5&S3&S4).
    simpl in *. close_shape.
Qed.

End LocalStep.

(** ** The invariant of the event loop *)

Lemma default_options_idem (o : Options) :
  default_options (default_options o) = default_options o.
Proof. done. Qed.

Lemma make_callbacks_fn (o : Options) (s : Slot) :
  once_fn (cb_get (make_callbacks (default_options o)) s) = user_fn o s.
Proof.
  destruct o as [a b c [[? []]|] [[? []]|]]; destruct a, b, c, s; done.
Qed.

Lemma make_callbacks_fresh (o : Options) (s : Slot) :
  once_called (cb_get (make_callbacks o) s) = false.
Proof. by destruct s. Qed.

Lemma new_frame_inv (item : Item) (link has : bool) (c : Callbacks) :
  (∀ s, once_called (cb_get c s) = false) →
  local_inv [] (mkFrame item link has c false false None 0 0%nat 0%nat).
Proof.
  intros Hc. constructor; simpl; try done; try lia.
  - intros s. rewrite Hc. split; [done|]. split; [done | unfold triggers; simpl; lia].
  - exists 0%nat. repeat split; try done; lia.
Qed.

Section Reachability.

Variable format_d : Port → string.
Variable js_encodeURIComponent : string → string.
Variable createReadStream_throws : string → option string.

Local Abbreviation creator := (creator format_d createReadStream_throws).
Local Abbreviation process := (process format_d createReadStream_throws).
Local Abbreviation local_process := (local_process format_d createReadStream_throws).
Local Abbreviation step := (step format_d js_encodeURIComponent createReadStream_throws).
Local Abbreviation run := (run format_d js_encodeURIComponent createReadStream_throws).
Local Abbreviation local_step := (local_step format_d js_encodeURIComponent).
Local Abbreviation user_call := (user_call format_d createReadStream_throws).

Lemma creator_submitted (api : Api) (item : Item) (options : gmap string Value)
    (listener : bool) (r : HttpRequest) :
  creator api item options = Submitted listener r →
  req_method r = POST ∧ (is_http_link item = true → listener = false).
Proof.
  unfold creator, createLink, createFile.
  destruct item as [s|st|b]; simpl.
  - destruct (String.eqb (String.substring 0 4 s) "http").
    + intros [= <- <-]. done.
    + destruct (createReadStream_throws s); [done|]. intros [= <- <-]. done.
  - intros [= <- <-]. done.
  - done.
Qed.

(** The error [createFile] calls back with at once is never the one that
    is retried. *)
Lemma open_failure_is_not_retried (api : Api) (item : Item)
    (options : gmap string Value) (e : Error) :
  creator api item options = OpenFailed e → is_link_unreachable e = false.
Proof.
  unfold creator, createLink, createFile.
  destruct item as [s|st|b]; simpl; try done.
  destruct (String.eqb (String.substring 0 4 s) "http"); [done|].
  destruct (createReadStream_throws s); [|done]. by intros [= <-].
Qed.

Lemma process_local (item : Item) (st : State) :
  let x := local_process (st_api st) (st_options st) (length (st_frames st)) item in
  process item st =
  mkState (st_api st) (default_options (st_options st))
    (st_frames st ++ [x.1]) (st_log st ++ x.2).
Proof.
  unfold process, local_process.
  destruct (creator (st_api st) item (createOptions (default_options (st_options st))))
    as [e| |listener r]; simpl; try done.
  erewrite call_put by (simpl; apply list_lookup_middle; done).
  apply state_eq; simpl; try done.
  rewrite insert_app_r_alt by done. by rewrite Nat.sub_diag.
Qed.

Lemma local_process_invokes (api : Api) (o : Options) (f : nat) (item : Item) :
  invokes_of (λ s, once_fn (cb_get (fr_callbacks (local_process api o f item).1) s))
    (local_process api o f item).2.
Proof.
  unfold local_process.
  destruct (creator api item (createOptions (default_options o))) as [e| |listener r].
  - intros g s fn arg H. rewrite local_call_fn.
    revert g s fn arg H. by apply local_call_invokes.
  - intros g s fn arg Hin%list_elem_of_singleton. done.
  - intros g s fn arg Hin%list_elem_of_singleton. done.
Qed.

Lemma local_process_inv (api : Api) (o : Options) (f : nat) (item : Item) :
  let x := local_process api o f item in
  local_inv x.2 x.1
  ∧ Forall (λ a, action_frame a = f) x.2
  ∧ (∀ s, once_fn (cb_get (fr_callbacks x.1) s) = user_fn o s)
  ∧ fr_hasPollingCallbacks x.1 = hasPollingCallbacks o
  ∧ fetches x.2 = 0%nat.
Proof.
  unfold local_process.
  destruct (creator api item (createOptions (default_options o)))
    as [e| |listener r] eqn:Hc; cbv zeta.
  - pose proof (local_call_static f SError (AError e)
                  (new_frame item (is_http_link item) (hasPollingCallbacks o)
                     (make_callbacks (default_options o)) false false))
      as (_&_&E3&_).
    pose proof (local_call_silent f SError (AError e)
                  (new_frame item (is_http_link item) (hasPollingCallbacks o)
                     (make_callbacks (default_options o)) false false))
      as (_&_&_&S4).
    split_and!; try done.
    + apply (local_call_inv f SError (AError e) _ []); auto; try done.
      apply new_frame_inv, make_callbacks_fresh.
    + apply local_call_tags.
    + intros s. rewrite local_call_fn. apply make_callbacks_fn.
  - split_and!; try done.
    + pose proof (new_frame_inv item (is_http_link item) (hasPollingCallbacks o)
                    (make_callbacks (default_options o))
                    (make_callbacks_fresh _)) as [].
      constructor; simpl in *; try done.
    + by repeat constructor.
    + intros s. apply make_callbacks_fn.
  - destruct (creator_submitted _ _ _ _ _ Hc) as [Hm Hl].
    split_and!; try done.
    + constructor; simpl; try done; try lia.
      * intros s. rewrite make_callbacks_fresh. split; [done|].
        split; [done | unfold triggers; simpl; lia].
      * exists 0%nat. unfold polls. simpl. rewrite Hm. split_and!; try done; lia.
      * unfold fetches. simpl. lia.
    + by repeat constructor.
    + intros s. apply make_callbacks_fn.
Qed.

Lemma process_inv (o : Options) (item : Item) (st : State) :
  pre_inv o st → inv o (process item st).
Proof.
  intros [Hopt Hfirst Htags Hframes Hposting Hearlier Hfns Hhas].
  rewrite process_local. cbv zeta.
  destruct (local_process_inv (st_api st) (st_options st) (length (st_frames st)) item)
    as (Hinv & Hx & Hfn & Hh & Hfe).
  set (x := local_process (st_api st) (st_options st) (length (st_frames st)) item) in *.
  assert (Hfresh : actions_of (length (st_frames st)) (st_log st) = [])
    by (by apply actions_of_fresh).
  constructor; simpl.
  - destruct Hopt as [->| ->]; done.
  - by destruct (st_frames st).
  - intros a [Ha|Ha]%elem_of_app; rewrite length_app; simpl.
    + specialize (Htags a Ha). lia.
    + rewrite Forall_forall in Hx. rewrite (Hx a Ha). lia.
  - intros f fr Hf. rewrite actions_of_app.
    apply lookup_app_Some in Hf as [Hf|[Hlen Hf]].
    + rewrite (actions_of_other f x.2), app_nil_r; [by apply Hframes|].
      apply lookup_lt_Some in Hf. eapply Forall_impl; [apply Hx|].
      simpl. intros; lia.
    + apply list_lookup_singleton_Some in Hf as [Hf <-].
      assert (f = length (st_frames st)) as -> by lia.
      by rewrite Hfresh, actions_of_own.
  - intros f fr Hf Hp. rewrite length_app. simpl.
    apply lookup_app_Some in Hf as [Hf|[Hlen Hf]].
    + by rewrite (Hposting f fr Hf) in Hp.
    + apply list_lookup_singleton_Some in Hf as [Hf <-]. lia.
  - intros f. rewrite length_app. simpl. intros Hf.
    rewrite actions_of_app. unfold fetches. rewrite count_app.
    assert (Hf' : (f < length (st_frames st))%nat) by lia.
    specialize (Hearlier f Hf'). unfold fetches in Hearlier. lia.
  - intros f fr s Hf.
    apply lookup_app_Some in Hf as [Hf|[Hlen Hf]]; [by eapply Hfns|].
    apply list_lookup_singleton_Some in Hf as [Hf <-].
    rewrite Hfn. destruct Hopt as [->| ->]; [done|].
    rewrite <- !make_callbacks_fn. by rewrite default_options_idem.
  - intros fr Hf.
    apply lookup_app_Some in Hf as [Hf|[Hlen Hf]]; [by apply Hhas|].
    apply list_lookup_singleton_Some in Hf as [Hf <-].
    rewrite Hh. rewrite Hfirst; [done|]. destruct (st_frames st); [done|].
    simpl in Hlen. lia.
  - apply invokes_of_app; [done|]. intros g s fn arg Hin.
    rewrite (local_process_invokes _ _ _ _ g s fn arg Hin). fold x. rewrite Hfn.
    destruct Hopt as [->| ->]; [done|].
    rewrite <- !make_callbacks_fn. by rewrite default_options_idem.
Qed.

Lemma user_call_inv (api : Api) (o : Options) (item : Item) :
  inv o (user_call api o item).
Proof.
  apply process_inv. constructor; simpl; try done; try (by left).
  - intros a Ha. by apply elem_of_nil in Ha.
  - intros f. lia.
  - apply invokes_of_nil.
Qed.

Lemma put_tags (o : Options) (st : State) (f : nat) (fr : Frame)
    (x : Frame * list Action) :
  inv o st → st_frames st !! f = Some fr → Forall (λ a, action_frame a = f) x.2 →
  ∀ a, a ∈ st_log (put f x st) → (action_frame a < length (st_frames (put f x st)))%nat.
Proof.
  intros Hinv Hf Hx a. simpl. rewrite length_insert.
  intros [Ha|Ha]%elem_of_app.
  - by apply (inv_tags _ _ Hinv).
  - rewrite Forall_forall in Hx. rewrite (Hx a Ha). by eapply lookup_lt_Some.
Qed.

Lemma put_frames (o : Options) (st : State) (f : nat) (fr : Frame)
    (x : Frame * list Action) :
  inv o st → st_frames st !! f = Some fr → Forall (λ a, action_frame a = f) x.2 →
  local_inv (actions_of f (st_log st) ++ x.2) x.1 →
  ∀ g fr', st_frames (put f x st) !! g = Some fr' →
    local_inv (actions_of g (st_log (put f x st))) fr'.
Proof.
  intros Hinv Hf Hx Hl g fr' Hg. simpl. rewrite actions_of_app.
  destruct (decide (f = g)) as [<-|Hne].
  - rewrite (lookup_put _ _ _ _ Hf) in Hg. simplify_eq.
    by rewrite (actions_of_own f x.2).
  - rewrite lookup_put_ne in Hg by done.
    rewrite (actions_of_other g x.2), app_nil_r; [by apply (inv_frames _ _ Hinv)|].
    eapply Forall_impl; [apply Hx|]. simpl. intros; congruence.
Qed.

Lemma fetches_put_mono (st : State) (f g : nat) (x : Frame * list Action) :
  (fetches (actions_of g (st_log st))
   ≤ fetches (actions_of g (st_log (put f x st))))%nat.
Proof. simpl. rewrite actions_of_app. unfold fetches. rewrite count_app. lia. Qed.

Lemma step_inv (o : Options) (ev : Event) (st st' : State) :
  inv o st → step ev st = Some st' → inv o st'.
Proof.
  intros Hinv. rewrite step_local.
  destruct (st_frames st !! event_frame ev) as [fr|] eqn:Hf; [|done]. simpl.
  destruct (local_step (st_api st) ev fr) as [[x retry]|] eqn:Hstep; [|done]. simpl.
  intros [= <-].
  pose proof (local_step_inv _ _ _ _ _ _ _ _ (inv_frames _ _ Hinv _ _ Hf) Hstep) as Hl.
  destruct (local_step_shape _ _ _ _ _ _ _ Hstep)
    as (Hx & Hfn & Hhas & Hlink & Hlis & Hitem & Hpost & Hretry & Hquiet).
  set (f := event_frame ev) in *.
  destruct retry.
  - destruct Hretry as [Hp Hx2]; [done|].
    assert (Hlast : S f = length (st_frames st)).
    { apply (inv_posting _ _ Hinv f fr Hf).
      destruct ev; simpl in Hstep; try done;
        repeat (case_match; simplify_eq; try done). }
    apply process_inv. constructor.
    + right. apply (inv_options _ _ Hinv).
    + simpl. intros Hnil. apply (f_equal length) in Hnil.
      rewrite length_insert in Hnil. simpl in Hnil. lia.
    + by eapply put_tags.
    + by eapply put_frames.
    + intros g fr' Hg. destruct (decide (f = g)) as [<-|Hne].
      * rewrite (lookup_put _ _ _ _ Hf) in Hg. by simplify_eq.
      * rewrite lookup_put_ne in Hg by done.
        destruct (fr_post fr') eqn:E; [|done].
        pose proof (inv_posting _ _ Hinv g fr' Hg E). lia.
    + intros g. simpl. rewrite length_insert. intros Hg.
      destruct (decide (f = g)) as [<-|Hne].
      * rewrite actions_of_app, (actions_of_own f x.2) by done.
        rewrite Hx2. unfold fetches. rewrite count_app. simpl. lia.
      * eapply Nat.lt_le_trans; [|apply (fetches_put_mono st f g x)].
        apply (inv_earlier _ _ Hinv). lia.
    + intros g fr' s Hg. destruct (decide (f = g)) as [<-|Hne].
      * rewrite (lookup_put _ _ _ _ Hf) in Hg. simplify_eq.
        rewrite Hfn. by apply (inv_fns _ _ Hinv f).
      * rewrite lookup_put_ne in Hg by done. by apply (inv_fns _ _ Hinv g).
    + intros fr' Hg. destruct (decide (f = 0%nat)) as [E|Hne].
      * rewrite E in Hg, Hf. rewrite (lookup_put _ _ _ _ Hf) in Hg. simplify_eq.
        rewrite Hhas. by apply (inv_first _ _ Hinv).
      * rewrite lookup_put_ne in Hg by done. by apply (inv_first _ _ Hinv).
    + apply invokes_of_app; [apply (inv_invokes _ _ Hinv)|].
      eapply local_step_invokes; [|exact Hstep].
      intros s. by apply (inv_fns _ _ Hinv f).
  - constructor.
    + apply (inv_options _ _ Hinv).
    + simpl. intros Hnil. apply (f_equal length) in Hnil.
      rewrite length_insert in Hnil. apply (inv_nonempty _ _ Hinv).
      by destruct (st_frames st).
    + by eapply put_tags.
    + by eapply put_frames.
    + intros g fr' Hg Hp. simpl. rewrite length_insert.
      destruct (decide (f = g)) as [<-|Hne].
      * rewrite (lookup_put _ _ _ _ Hf) in Hg. simplify_eq.
        apply (inv_posting _ _ Hinv f fr Hf). auto.
      * rewrite lookup_put_ne in Hg by done. by apply (inv_posting _ _ Hinv g fr').
    + intros g. simpl. rewrite length_insert. intros Hg.
      eapply Nat.lt_le_trans; [|apply (fetches_put_mono st f g x)].
      by apply (inv_earlier _ _ Hinv).
    + intros g fr' s Hg. destruct (decide (f = g)) as [<-|Hne].
      * rewrite (lookup_put _ _ _ _ Hf) in Hg. simplify_eq.
        rewrite Hfn. by apply (inv_fns _ _ Hinv f).
      * rewrite lookup_put_ne in Hg by done. by apply (inv_fns _ _ Hinv g).
    + intros fr' Hg. destruct (decide (f = 0%nat)) as [E|Hne].
      * rewrite E in Hg, Hf. rewrite (lookup_put _ _ _ _ Hf) in Hg. simplify_eq.
        rewrite Hhas. by apply (inv_first _ _ Hinv).
      * rewrite lookup_put_ne in Hg by done. by apply (inv_first _ _ Hinv).
    + apply invokes_of_app; [apply (inv_invokes _ _ Hinv)|].
      eapply local_step_invokes; [|exact Hstep].
      intros s. by apply (inv_fns _ _ Hinv f).
Qed.

Lemma run_cons (ev : Event) (evs : list Event) (st st' : State) :
  run (ev :: evs) st = Some st' →
  ∃ st1, step ev st = Some st1 ∧ run evs st1 = Some st'.
Proof.
  simpl. destruct (step ev st) as [st1|]; [|done]. simpl. by exists st1.
Qed.

Lemma run_inv (o : Options) (evs : list Event) (st st' : State) :
  inv o st → run evs st = Some st' → inv o st'.
Proof.
  revert st. induction evs as [|ev evs IH]; intros st Hinv; simpl.
  - by intros [= <-].
  - destruct (step ev st) as [st1|] eqn:Hstep; [|done]. simpl.
    apply IH. by eapply step_inv.
Qed.

(** Every state reached from a call of [process] satisfies the invariant. *)
Lemma reachable_inv (api : Api) (o : Options) (item : Item) (evs : list Event)
    (st : State) :
  run evs (user_call api o item) = Some st → inv o st.
Proof. apply run_inv, user_call_inv. Qed.

(** ** What one event adds to the trace *)

Lemma step_effect (ev : Event) (st st' : State) :
  step ev st = Some st' →
  ∃ fr x retry,
    st_frames st !! event_frame ev = Some fr
    ∧ local_step (st_api st) ev fr = Some (x, retry)
    ∧ st_api st' = st_api st
    ∧ if retry : bool then
        let y := local_process (st_api st) (st_options st) (length (st_frames st))
                   (ItemStream (RequestStream (fr_item fr))) in
        st_frames st' = <[event_frame ev := x.1]> (st_frames st) ++ [y.1]
        ∧ st_log st' = (st_log st ++ x.2) ++ y.2
      else
        st_frames st' = <[event_frame ev := x.1]> (st_frames st)
        ∧ st_log st' = st_log st ++ x.2.
Proof.
  rewrite step_local.
  destruct (st_frames st !! event_frame ev) as [fr|] eqn:Hf; [|done]. simpl.
  destruct (local_step (st_api st) ev fr) as [[x retry]|] eqn:Hstep; [|done]. simpl.
  intros [= <-]. exists fr, x, retry. split_and!; try done.
  - by destruct retry; [rewrite process_local|].
  - destruct retry; [|done]. rewrite process_local. simpl.
    by rewrite length_insert.
Qed.

(** When no invocation has anything in flight, that stays so: only stream
    errors can still come, and they neither poll, set a timer, submit nor
    fetch. *)
Lemma all_quiet_step (ev : Event) (st st' : State) :
  all_quiet st → step ev st = Some st' →
  all_quiet st'
  ∧ ∃ l, st_log st' = st_log st ++ l
    ∧ polls l = 0%nat ∧ timeouts l = [] ∧ posts l = 0%nat ∧ fetches l = 0%nat.
Proof.
  intros Hq Hstep.
  destruct (step_effect _ _ _ Hstep) as (fr & x & retry & Hf & Hloc & _ & Heff).
  destruct (Hq _ _ Hf) as (Hp & Ht & Hg).
  destruct ev as [g res|g e|g|g res]; simpl in Hloc, Hf;
    rewrite ?Hp, ?Ht, ?Hg in Hloc; try done.
  destruct (fr_listener fr); [|done]. simplify_eq.
  destruct Heff as [Hfr Hlog]. cbn [event_frame fst snd] in Hfr, Hlog.
  set (e' := mkError None (Some STREAM_READ_MESSAGE) (Some e)) in *.
  pose proof (local_call_static g SError (AError e') fr) as (_&_&_&E4&_&_&_&E8&E9).
  pose proof (local_call_silent g SError (AError e') fr) as (S1&S2&S3&S4).
  split.
  - intros h fr' Hh. rewrite Hfr in Hh. destruct (decide (g = h)) as [<-|Hne].
    + rewrite list_lookup_insert_eq in Hh by (by eapply lookup_lt_Some).
      simplify_eq. unfold quiet. simpl in *. by rewrite E4, E8, E9.
    + rewrite list_lookup_insert_ne in Hh by done. by eapply Hq.
  - by eexists.
Qed.

Lemma all_quiet_run (evs : list Event) (st st' : State) :
  all_quiet st → run evs st = Some st' →
  ∃ l, st_log st' = st_log st ++ l
    ∧ polls l = 0%nat ∧ timeouts l = [] ∧ posts l = 0%nat ∧ fetches l = 0%nat.
Proof.
  revert st. induction evs as [|ev evs IH]; intros st Hq; simpl.
  - intros [= <-]. exists []. by rewrite app_nil_r.
  - destruct (step ev st) as [st1|] eqn:Hstep; [|done]. simpl. intros Hrun.
    destruct (all_quiet_step _ _ _ Hq Hstep) as (Hq1 & l1 & Hlog1 & P1 & T1 & Q1 & F1).
    destruct (IH _ Hq1 Hrun) as (l2 & Hlog2 & P2 & T2 & Q2 & F2).
    exists (l1 ++ l2). rewrite Hlog2, Hlog1, <- app_assoc.
    rewrite timeouts_app. unfold polls, posts, fetches in *.
    rewrite !count_app, P1, P2, T1, T2, Q1, Q2, F1, F2. done.
Qed.

(** ** Consequences for reachable states *)

Lemma actions_of_beyond (o : Options) (st : State) (f : nat) :
  inv o st → (length (st_frames st) ≤ f)%nat → actions_of f (st_log st) = [].
Proof.
  intros Hinv Hf. apply actions_of_other, Forall_forall. intros a Ha.
  pose proof (inv_tags _ _ Hinv a Ha). lia.
Qed.



Lemma count_last_frame (p : Action → bool) (l : list Action) (n : nat) :
  (∀ a, a ∈ l → (action_frame a < S n)%nat) →
  (∀ f, (f < n)%nat → count p (actions_of f l) = 0%nat) →
  count p l = count p (actions_of n l).
Proof.
  induction l as [|a l IH]; intros Htags Hzero; [done|].
  assert (Ha : (action_frame a < S n)%nat) by (apply Htags; left).
  assert (Htags' : ∀ b, b ∈ l → (action_frame b < S n)%nat)
    by (intros b Hb; apply Htags; by right).
  destruct (decide (action_frame a = n)) as [E|Hne].
  - unfold actions_of at 1. rewrite filter_cons_True by done. simpl.
    fold (actions_of n l). rewrite IH; [done | done |].
    intros f Hf. specialize (Hzero f Hf). unfold actions_of in Hzero.
    rewrite filter_cons_False in Hzero by lia. done.
  - unfold actions_of at 1. rewrite filter_cons_False by done.
    fold (actions_of n l).
    assert (Hlt : (action_frame a < n)%nat) by lia.
    pose proof (Hzero _ Hlt) as Hz. unfold actions_of in Hz.
    rewrite filter_cons_True in Hz by done. simpl in Hz.
    simpl. destruct (p a); [lia|]. simpl. apply IH; [done|].
    intros f Hf. specialize (Hzero f Hf). unfold actions_of in Hzero.
    destruct (decide (action_frame a = f)).
    + rewrite filter_cons_True in Hzero by done. simpl in Hzero.
      unfold actions_of. lia.
    + by rewrite filter_cons_False in Hzero by done.
Qed.

Lemma timeouts_nil (l : list Action) :
  timeouts l = [] ↔ count is_set_timeout l = 0%nat.
Proof.
  induction l as [|a l IH]; [done|]. unfold timeouts in *.
  destruct a; simpl; done.
Qed.

(** An invocation that has not taken the retry is the last one; all the
    others have, with nothing in flight and without ever setting a timer or
    polling. *)
Lemma others_retired (o : Options) (st : State) (f : nat) (fr : Frame) :
  inv o st → st_frames st !! f = Some fr →
  fetches (actions_of f (st_log st)) = 0%nat →
  S f = length (st_frames st)
  ∧ ∀ g fr', g ≠ f → st_frames st !! g = Some fr' →
      quiet fr' ∧ polls (actions_of g (st_log st)) = 0%nat
      ∧ timeouts (actions_of g (st_log st)) = [].
Proof.
  intros Hinv Hf Hfe. pose proof (lookup_lt_Some _ _ _ Hf) as Hlt.
  assert (Hlast : S f = length (st_frames st)).
  { destruct (decide (S f = length (st_frames st))); [done|].
    pose proof (inv_earlier _ _ Hinv f). lia. }
  split; [done|]. intros g fr' Hne Hg.
  pose proof (lookup_lt_Some _ _ _ Hg) as Hlt'.
  assert (Hpos : (0 < fetches (actions_of g (st_log st)))%nat)
    by (apply (inv_earlier _ _ Hinv g); lia).
  pose proof (inv_frames _ _ Hinv g fr' Hg) as Hl.
  destruct (inv_retried _ _ Hl Hpos) as (Hp & Ht & Hgt & Hto & _).
  split_and!; try done.
  destruct (inv_backoff _ _ Hl) as (k & Hk1 & Hk2 & _).
  rewrite Hto in Hk1.
  destruct k; [lia | by rewrite backoff_seq_snoc in Hk1; destruct (map backoff (seq 0 k))].
Qed.

(** Then the whole trace has the polls and the timers of that invocation. *)
Lemma last_invocation_polls (o : Options) (st : State) (f : nat) (fr : Frame) :
  inv o st → st_frames st !! f = Some fr →
  fetches (actions_of f (st_log st)) = 0%nat →
  polls (st_log st) = polls (actions_of f (st_log st))
  ∧ (timeouts (actions_of f (st_log st)) = [] → timeouts (st_log st) = []).
Proof.
  intros Hinv Hf Hfe.
  destruct (others_retired _ _ _ _ Hinv Hf Hfe) as [Hlast Hothers].
  assert (Htags : ∀ a, a ∈ st_log st → (action_frame a < S f)%nat)
    by (intros a Ha; rewrite Hlast; by apply (inv_tags _ _ Hinv)).
  assert (Hlook : ∀ g, (g < f)%nat → ∃ fr', st_frames st !! g = Some fr').
  { intros g Hg. apply lookup_lt_is_Some_2. lia. }
  split.
  - unfold polls. apply count_last_frame; [done|]. intros g Hg.
    destruct (Hlook g Hg) as [fr' Hfr'].
    destruct (Hothers g fr') as (_ & H & _); [lia | done | done].
  - rewrite !timeouts_nil. intros Hz.
    rewrite (count_last_frame _ _ f); [done | done |]. intros g Hg.
    destruct (Hlook g Hg) as [fr' Hfr'].
    destruct (Hothers g fr') as (_ & _ & H); [lia | done |]. by apply timeouts_nil.
Qed.


(** ** The callbacks fire at most once *)


(** ** Backoff *)

Lemma backoff_S (n : nat) :
  backoff (S n) = backoff n + Math_round_div (backoff n) 4.
Proof. done. Qed.

Lemma backoff_lower_bound (n : nat) : 2000 ≤ backoff n.
Proof.
  induction n as [|n IH]; [done|]. rewrite backoff_S. unfold Math_round_div.
  assert (0 ≤ (2 * backoff n + 4) / (2 * 4)) by (apply Z.div_pos; lia). lia.
Qed.


(** [Math_round_div x 4] is [Math.round(x / 4)]: the integer [r] with
    [r - 1/2 <= x/4 < r + 1/2]. *)
Lemma Math_round_div_nearest (x : Z) :
  let r := Math_round_div x 4 in 4 * r - 2 ≤ x < 4 * r + 2.
Proof.
  cbv zeta. unfold Math_round_div. change (2 * 4) with 8.
  pose proof (Z.div_mod (2 * x + 4) 8 ltac:(lia)).
  pose proof (Z.mod_pos_bound (2 * x + 4) 8 ltac:(lia)). lia.
Qed.


(** ** Completion without polling *)

(** C8.  When the creation call of invocation [f] succeeds with a resource
    whose status is not ['pending'], the start callback runs with the
    resource, then the complete callback runs with the resource, and in the
    whole run no timer is set and no GET is sent, before or after. *)
Theorem immediate_completion (api : Api) (o : Options) (item : Item)
    (evs1 evs2 : list Event) (f : nat) (r : Resource) (st1 st : State) :
  run evs1 (user_call api o item) = Some st1 →
  res_status r ≠ "pending" →
  run (CreateReply f (inr r) :: evs2) st1 = Some st →
  (∃ rest,
     st_log st =
     st_log st1
     ++ [Call f SStart (AResource r);
         Invoke f SStart (user_fn o SStart) (AResource r);
         Call f SComplete (AResource r);
         Invoke f SComplete (user_fn o SComplete) (AResource r)]
     ++ rest)
  ∧ polls (st_log st) = 0%nat
  ∧ timeouts (st_log st) = [].
Proof.
  intros Hrun1 Hr Hrun. pose proof (reachable_inv _ _ _ _ _ Hrun1) as Hinv.
  apply run_cons in Hrun as (st2 & Hstep & Hrun).
  destruct (step_effect _ _ _ Hstep) as (fr & x & retry & Hf & Hloc & _ & Heff).
  simpl in Hf, Hloc. destruct (fr_post fr) eqn:Hp; [|done]. simplify_eq.
  destruct Heff as [Hfr Hlog]. cbn [event_frame fst snd] in Hfr, Hlog.
  pose proof (inv_frames _ _ Hinv f fr Hf) as Hl.
  destruct (inv_post _ _ Hl Hp) as (Ht & Hg & Hto & Hfe & Hno & _).
  assert (Hfresh : ∀ s, s ≠ SError → once_called (cb_get (fr_callbacks fr) s) = false).
  { intros s Hs. destruct (inv_once _ _ Hl s) as [_ [H1 _]].
    destruct (once_called (cb_get (fr_callbacks fr) s)); [|done].
    specialize (H1 eq_refl). rewrite (Hno s Hs) in H1. lia. }
  assert (Hx : (local_created f r (set_post false fr)).2 =
               [Call f SStart (AResource r);
                Invoke f SStart (user_fn o SStart) (AResource r);
                Call f SComplete (AResource r);
                Invoke f SComplete (user_fn o SComplete) (AResource r)]
               ∧ quiet (local_created f r (set_post false fr)).1).
  { unfold local_created, and_then. rewrite bool_decide_true by done.
    pose proof (local_call_static f SStart (AResource r) (set_post false fr))
      as (_&_&_&E4&_&_&_&E8&E9).
    pose proof (local_call_called f SStart (AResource r) (set_post false fr) SComplete) as Hc.
    pose proof (local_call_fn f SStart (AResource r) (set_post false fr) SComplete) as Hfn.
    set (y := local_call f SStart (AResource r) (set_post false fr)) in *.
    pose proof (local_call_static f SComplete (AResource r) y.1)
      as (_&_&_&E4'&_&_&_&E8'&E9').
    pose proof (Hfresh SStart ltac:(done)) as F1.
    pose proof (Hfresh SComplete ltac:(done)) as F2.
    pose proof (inv_fns _ _ Hinv f fr SStart Hf) as G1.
    pose proof (inv_fns _ _ Hinv f fr SComplete Hf) as G2.
    split.
    - simpl. rewrite (local_call_log f SComplete). subst y.
      rewrite (local_call_log f SStart). simpl in *.
      by rewrite Hc, Hfn, F1, F2, G1, G2.
    - unfold quiet. simpl in *. rewrite E4', E8', E9', E4, E8, E9.
      by rewrite Ht, Hg. }
  destruct Hx as [Hx Hq].
  destruct (others_retired _ _ _ _ Hinv Hf Hfe) as [Hlast Hothers].
  destruct (last_invocation_polls _ _ _ _ Hinv Hf Hfe) as [Hpolls Htimeouts].
  assert (Hquiet : all_quiet st2).
  { intros g fr' Hg'. rewrite Hfr in Hg'. destruct (decide (f = g)) as [<-|Hne].
    - rewrite list_lookup_insert_eq in Hg' by (by eapply lookup_lt_Some).
      by simplify_eq.
    - rewrite list_lookup_insert_ne in Hg' by done.
      by destruct (Hothers g fr') as (? & _). }
  destruct (all_quiet_run evs2 st2 st Hquiet Hrun) as (rest & Hrest & P & T & _).
  rewrite Hlog, Hx in Hrest.
  set (acts := [Call f SStart (AResource r);
                Invoke f SStart (user_fn o SStart) (AResource r);
                Call f SComplete (AResource r);
                Invoke f SComplete (user_fn o SComplete) (AResource r)]) in *.
  split_and!.
  - exists rest. by rewrite Hrest, <- app_assoc.
  - destruct (inv_backoff _ _ Hl) as (k & Hk1 & Hk2 & _).
    rewrite Hto in Hk1.
    destruct k; [|by rewrite backoff_seq_snoc in Hk1; destruct (map backoff (seq 0 k))].
    rewrite Hrest. unfold polls in *. rewrite !count_app, P, Hpolls. simpl. lia.
  - by rewrite Hrest, !timeouts_app, T, (Htimeouts Hto).
Qed.

(** ** Poll errors *)


End Reachability.

(** ** What the creation request carries *)

Section AddSizes.

Variables (data options : gmap string Value) (name : string).

(** A non-empty list is joined with commas. *)
Lemma addSizes_list (x : string) (xs : list string) :
  options !! name = Some (VArray (x :: xs)) →
  addSizes data options name = <[name := VString (join "," (x :: xs))]> data.
Proof. intros H. unfold addSizes, prop. by rewrite H. Qed.

(** A string is passed on as it is. *)
Lemma addSizes_string (s : string) :
  options !! name = Some (VString s) → s ≠ "" →
  addSizes data options name = <[name := VString s]> data.
Proof.
  intros H Hs. unfold addSizes, prop. rewrite H. simpl.
  destruct (String.eqb_spec s ""); [done | done].
Qed.

(** Nothing is added for an option that is absent, [undefined], [null] or
    the empty string. *)
Lemma addSizes_absent :
  truthy (prop options name) = false → addSizes data options name = data.
Proof. intros H. unfold addSizes. by rewrite H. Qed.

(** An empty list is truthy: it is joined to the empty string, and that is
    stored. *)
Lemma addSizes_empty_list :
  options !! name = Some (VArray []) →
  addSizes data options name = <[name := VString ""]> data.
Proof. intros H. unfold addSizes, prop. by rewrite H. Qed.

Lemma addSizes_other (k : string) :
  k ≠ name → addSizes data options name !! k = data !! k.
Proof.
  intros Hk. unfold addSizes. destruct (negb (truthy (prop options name))); [done|].
  by rewrite lookup_insert_ne.
Qed.

(** Only the option of that very name is looked at. *)
Lemma addSizes_unset :
  options !! name = None → addSizes data options name = data.
Proof. intros H. apply addSizes_absent. unfold prop. by rewrite H. Qed.

End AddSizes.

Lemma createOptions_keys (o : Options) (k : string) :
  k ≠ "thumbnailSizes" → k ≠ "imageSizes" → createOptions o !! k = None.
Proof.
  intros H1 H2. unfold createOptions.
  by rewrite !lookup_insert_ne, lookup_empty.
Qed.

Lemma link_data_no_imagePreviewSizes (link : string) (o : Options) :
  link_data link (createOptions o) !! "imagePreviewSizes" = None.
Proof.
  unfold link_data.
  rewrite (addSizes_unset _ _ "imagePreviewSizes") by (by apply createOptions_keys).
  by rewrite addSizes_other, lookup_singleton_ne.
Qed.

Lemma file_data_no_imagePreviewSizes (file : Stream) (o : Options) :
  file_data file (createOptions o) !! "imagePreviewSizes" = None.
Proof.
  unfold file_data.
  rewrite (addSizes_unset _ _ "imagePreviewSizes") by (by apply createOptions_keys).
  by rewrite addSizes_other, lookup_singleton_ne.
Qed.

Lemma file_data_file (file : Stream) (options : gmap string Value) :
  file_data file options !! "file" = Some (VStream file).
Proof.
  unfold file_data. by rewrite !addSizes_other, lookup_singleton_eq.
Qed.

Section Requests.

Variable format_d : Port → string.
Variable js_encodeURIComponent : string → string.
Variable createReadStream_throws : string → option string.

Local Abbreviation _request := (_request format_d).
Local Abbreviation creator := (creator format_d createReadStream_throws).
Local Abbreviation user_call := (user_call format_d createReadStream_throws).

(** A field that is not in the data is not in the request. *)
Lemma _request_omits (api : Api) (m : Method) (path : string)
    (data : gmap string Value) (k : string) :
  data !! k = None → body_field (req_body (_request api m path (Some data))) k = None.
Proof.
  intros H. unfold _request. simpl.
  assert (Hk : omap sanitize data !! k = None) by (by rewrite lookup_omap, H).
  case_decide; [done|]. destruct m; simpl; [done|].
  destruct (map_some is_binary (omap sanitize data)); simpl; [|done].
  apply map_lookup_filter_None. by left.
Qed.

(** A stream in the data makes the request multipart, with the stream as
    one of its parts. *)
Lemma _request_stream_part (api : Api) (path : string) (data : gmap string Value)
    (k : string) (s : Stream) :
  k ≠ "" → data !! k = Some (VStream s) →
  ∃ parts, req_body (_request api POST path (Some data)) = Multipart parts
           ∧ parts !! k = Some (VStream s).
Proof.
  intros Hk H. unfold _request. simpl.
  assert (Hd : omap sanitize data !! k = Some (VStream s))
    by (by rewrite lookup_omap, H).
  rewrite decide_False by (intros E; by rewrite E, lookup_empty in Hd).
  assert (Hb : map_some is_binary (omap sanitize data) = true).
  { apply bool_decide_eq_true_2, Exists_exists. exists (k, VStream s).
    split; [by apply elem_of_map_to_list | done]. }
  rewrite Hb. eexists. split; [done|].
  by apply map_lookup_filter_Some.
Qed.

Lemma creator_no_imagePreviewSizes (api : Api) (item : Item) (o : Options)
    (listener : bool) (r : HttpRequest) :
  creator api item (createOptions o) = Submitted listener r →
  body_field (req_body r) "imagePreviewSizes" = None.
Proof.
  unfold creator, createLink, createFile. destruct item as [s|st|b]; simpl.
  - destruct (String.eqb (String.substring 0 4 s) "http").
    + intros [= <- <-]. apply _request_omits, link_data_no_imagePreviewSizes.
    + destruct (createReadStream_throws s); [done|]. intros [= <- <-].
      apply _request_omits, file_data_no_imagePreviewSizes.
  - intros [= <- <-]. apply _request_omits, file_data_no_imagePreviewSizes.
  - done.
Qed.

(** Whatever [options.images.sizes] is, the creation request of [process]
    has no [imagePreviewSizes] field: [process] passes the sizes on under
    the name [imageSizes], and [addSizes] looks for [imagePreviewSizes]. *)
Lemma process_never_sends_imagePreviewSizes (api : Api) (o : Options) (item : Item)
    (r : HttpRequest) :
  r ∈ requests (st_log (user_call api o item)) →
  body_field (req_body r) "imagePreviewSizes" = None.
Proof.
  unfold user_call, process. simpl.
  destruct (creator api item (createOptions (default_options o)))
    as [e| |listener r'] eqn:Hc; simpl.
  - unfold call. simpl. by intros ?%elem_of_nil.
  - by intros ?%elem_of_nil.
  - intros ->%list_elem_of_singleton. by eapply creator_no_imagePreviewSizes.
Qed.

End Requests.

(** ** Creation errors and the retry *)

Section Submission.

Variable format_d : Port → string.
Variable js_encodeURIComponent : string → string.
Variable createReadStream_throws : string → option string.

Local Abbreviation step := (step format_d js_encodeURIComponent createReadStream_throws).
Local Abbreviation run := (run format_d js_encodeURIComponent createReadStream_throws).
Local Abbreviation user_call := (user_call format_d createReadStream_throws).
Local Abbreviation local_process := (local_process format_d createReadStream_throws).



(** ** Polling without polling callbacks *)

(** The options object is defaulted in place, so a nested invocation
    always finds polling callbacks. *)
Lemma defaulted_options_have_polling_callbacks (o : Options) :
  hasPollingCallbacks (default_options o) = true.
Proof. done. Qed.

(** With no polling callback registered, the invocation the caller started
    never polls; and nothing polls at all as long as no retry is taken. *)
Lemma no_polling_callbacks_no_poll (api : Api) (o : Options) (item : Item)
    (evs : list Event) (st : State) :
  hasPollingCallbacks o = false →
  run evs (user_call api o item) = Some st →
  polls (actions_of 0 (st_log st)) = 0%nat
  ∧ (fetches (st_log st) = 0%nat → polls (st_log st) = 0%nat).
Proof.
  intros Hno Hrun. pose proof (reachable_inv _ _ _ _ _ _ _ _ Hrun) as Hinv.
  assert (H0 : polls (actions_of 0 (st_log st)) = 0%nat).
  { destruct (st_frames st !! 0%nat) as [fr|] eqn:Hf.
    - destruct (inv_backoff _ _ (inv_frames _ _ Hinv _ _ Hf)) as (k & _ & Hk & Hz & _).
      rewrite (inv_first _ _ Hinv fr Hf) in Hz. specialize (Hz Hno). lia.
    - apply lookup_ge_None in Hf. by rewrite (actions_of_beyond o). }
  split; [done|]. intros Hfe.
  destruct (length (st_frames st)) as [|[|n]] eqn:Hlen.
  - pose proof (inv_nonempty _ _ Hinv). by destruct (st_frames st).
  - unfold polls in *. rewrite (count_last_frame _ _ 0); [done | | intros; lia].
    intros a Ha. rewrite <- Hlen. by apply (inv_tags _ _ Hinv).
  - assert (Hlt : (1 < length (st_frames st))%nat) by lia.
    pose proof (inv_earlier _ _ Hinv 0%nat Hlt) as Hpos.
    pose proof (count_filter_le is_fetch (λ a, action_frame a = 0%nat) (st_log st)).
    unfold fetches, actions_of in *. lia.
Qed.

(** No run ever calls the wrapper of the images callback. *)
Lemma images_wrapper_never_called (api : Api) (o : Options) (item : Item)
    (evs : list Event) (st : State) (f : nat) :
  run evs (user_call api o item) = Some st →
  triggers SImages (actions_of f (st_log st)) = 0%nat
  ∧ invocations SImages (actions_of f (st_log st)) = 0%nat.
Proof.
  intros Hrun. pose proof (reachable_inv _ _ _ _ _ _ _ _ Hrun) as Hinv.
  destruct (st_frames st !! f) as [fr|] eqn:Hf.
  - pose proof (inv_frames _ _ Hinv _ _ Hf) as Hl.
    pose proof (inv_images _ _ Hl) as Hi. split; [done|].
    destruct (inv_once _ _ Hl SImages) as [H1 [H2 _]]. rewrite H1.
    destruct (once_called (cb_get (fr_callbacks fr) SImages)); [|done].
    specialize (H2 eq_refl). lia.
  - apply lookup_ge_None in Hf. by rewrite (actions_of_beyond o).
Qed.

End Submission.

(** ** Configuration *)

Lemma toLowerCase_length (s : string) :
  String.length (toLowerCase s) = String.length s.
Proof. induction s as [|c s IH]; simpl; [done | by rewrite IH]. Qed.

Lemma toLowerCase_idempotent (s : string) :
  toLowerCase (toLowerCase s) = toLowerCase s.
Proof.
  induction s as [|c s IH]; simpl; [done|]. rewrite IH. f_equal.
  clear. destruct c as [[] [] [] [] [] [] [] []]; done.
Qed.


(** ** The code at the inputs where it departs from the specification *)

(** C1.  A poll finds the image previews done and the thumbnails pending:
    the thumbnails callback runs, with the images; the images callback does
    not run, then or later; and when the thumbnails are done the thumbnails
    callback has been used up. *)
Theorem images_done_runs_thumbnails_callback :
  (λ st, invoked (st_log st)) <$> example_run all_callbacks example_link two_polls
  = Some [(SStart, UserFn "start", AResource resource_pending);
          (SThumbnails, UserFn "thumbnails", AJobs [image "complete"]);
          (SComplete, UserFn "complete", AResource resource_complete)].
Proof. vm_compute. reflexivity. Qed.

(** C2.  [process] with [options.images.sizes = ['1200x']] and
    [options.thumbnails.sizes = ['64x64', '256x256']]: the one request sent
    carries the thumbnail sizes and neither [imagePreviewSizes] nor
    [imageSizes]. *)
Theorem process_drops_image_sizes :
  (λ r, (req_method r,
         body_field (req_body r) "link",
         body_field (req_body r) "thumbnailSizes",
         body_field (req_body r) "imagePreviewSizes",
         body_field (req_body r) "imageSizes"))
  <$> requests (st_log (user_call decimal_port always_opens example_api
                          all_callbacks example_link))
  = [(POST, Some (VString "http://10.0.0.5/report.pdf"),
      Some (VString "64x64,256x256"), None, None)].
Proof. vm_compute. reflexivity. Qed.

(** C3.  Sizes given as an empty list: [addSizes] stores the empty string,
    and the form of the link creation request carries it. *)
Theorem empty_sizes_list_sends_empty_string :
  addSizes {[ "link" := VString "http://10.0.0.5/report.pdf" ]}
    {[ "thumbnailSizes" := VArray [] ]} "thumbnailSizes"
  = <[ "thumbnailSizes" := VString "" ]>
      {[ "link" := VString "http://10.0.0.5/report.pdf" ]}
  ∧ (λ r, req_body r)
    <$> requests (st_log (user_call decimal_port always_opens example_api
                            empty_thumbnail_sizes example_link))
    = [Form (<[ "thumbnailSizes" := VString "" ]>
               {[ "link" := VString "http://10.0.0.5/report.pdf" ]})].
Proof. split; vm_compute; reflexivity. Qed.

(** C7.  Only [start] is registered and the link cannot be reached by the
    server: the retry is created pending, a timer is set and a GET is
    sent. *)
Theorem retry_polls_without_polling_callbacks :
  hasPollingCallbacks only_start = false
  ∧ (λ st, (timeouts (st_log st), polls (st_log st)))
    <$> example_run only_start example_link retry_then_poll
    = Some ([2000], 1%nat).
Proof. split; vm_compute; reflexivity. Qed.


(** Nested invocations have wrappers of their own: when a file upload is
    answered with the link-unreachable error, the stream of the invocation
    that retried and the nested invocation can both reach the error
    callback.  This is why the statement about the whole trace asks for
    [retries_of_links]. *)
Example nested_invocations_have_their_own_wrappers :
  (λ st, invocations SError (st_log st))
  <$> example_run all_callbacks example_link
        (unreachable_twice ++ [StreamError 1 "ECONNRESET"; CreateReply 2 (inl server_down)])
  = Some 2%nat.
Proof. vm_compute. reflexivity. Qed.

(** ** The theorems at concrete runs *)



Lemma immediate_completion_witness :
  example_run all_callbacks example_link []
  = Some (final_state all_callbacks example_link [])
  ∧ res_status resource_complete ≠ "pending"
  ∧ run decimal_port unreserved always_opens [CreateReply 0 (inr resource_complete)]
      (final_state all_callbacks example_link [])
    = Some (final_state all_callbacks example_link [CreateReply 0 (inr resource_complete)])
  ∧ ((∃ rest,
        st_log (final_state all_callbacks example_link
                  [CreateReply 0 (inr resource_complete)]) =
        st_log (final_state all_callbacks example_link [])
        ++ [Call 0 SStart (AResource resource_complete);
            Invoke 0 SStart (user_fn all_callbacks SStart) (AResource resource_complete);
            Call 0 SComplete (AResource resource_complete);
            Invoke 0 SComplete (user_fn all_callbacks SComplete)
              (AResource resource_complete)]
        ++ rest)
     ∧ polls (st_log (final_state all_callbacks example_link
                        [CreateReply 0 (inr resource_complete)])) = 0%nat
     ∧ timeouts (st_log (final_state all_callbacks example_link
                           [CreateReply 0 (inr resource_complete)])) = []).
Proof.
  assert (H1 : example_run all_callbacks example_link []
               = Some (final_state all_callbacks example_link []))
    by (vm_compute; reflexivity).
  assert (H2 : res_status resource_complete ≠ "pending") by (vm_compute; discriminate).
  assert (H3 : run decimal_port unreserved always_opens
                 [CreateReply 0 (inr resource_complete)]
                 (final_state all_callbacks example_link [])
               = Some (final_state all_callbacks example_link
                         [CreateReply 0 (inr resource_complete)]))
    by (vm_compute; reflexivity).
  split_and!; [exact H1 | exact H2 | exact H3 | ..];
    apply (immediate_completion decimal_port unreserved always_opens
             example_api all_callbacks example_link [] [] 0 resource_complete
             _ _ H1 H2 H3).
Defined.



(** The same happens without any retry when the caller passes one options
    object to two calls of [process]: the second call finds the defaults
    the first one wrote. *)
Example reused_options_object_polls :
  hasPollingCallbacks only_start = false
  ∧ (λ st, polls (st_log st))
    <$> run decimal_port unreserved always_opens
          [CreateReply 0 (inr resource_complete);
           CreateReply 1 (inr resource_pending); TimerFire 1]
          (process decimal_port always_opens example_link
             (user_call decimal_port always_opens example_api only_start example_link))
    = Some 1%nat.
Proof. split; vm_compute; reflexivity. Qed.

(** * Further properties *)

(** ** Lifting an invariant of one invocation to the event loop *)


Section Lifting.

Variable format_d : Port → string.
Variable js_encodeURIComponent : string → string.
Variable createReadStream_throws : string → option string.

Local Abbreviation local_process := (local_process format_d createReadStream_throws).
Local Abbreviation step := (step format_d js_encodeURIComponent createReadStream_throws).
Local Abbreviation run := (run format_d js_encodeURIComponent createReadStream_throws).
Local Abbreviation local_step := (local_step format_d js_encodeURIComponent).
Local Abbreviation user_call := (user_call format_d createReadStream_throws).

Variables (api : Api) (o : Options) (item : Item).
Variable J : nat → list Action → Frame → Prop.

Hypothesis J_first :
  J 0 (local_process api o 0 item).2 (local_process api o 0 item).1.

Hypothesis J_retry : ∀ f fr l,
  local_inv l fr → J f l fr → fr_post fr = true →
  let y := local_process api (default_options o) (S f)
             (ItemStream (RequestStream (fr_item fr))) in
  J (S f) y.2 y.1.

Hypothesis J_step : ∀ ev fr l x retry,
  local_inv l fr → J (event_frame ev) l fr →
  local_step api ev fr = Some (x, retry) →
  J (event_frame ev) (l ++ x.2) x.1.

Local Abbreviation lifted := (lifted api J).

Lemma lifted_user_call : lifted (user_call api o item).
Proof.
  unfold user_call. rewrite process_local. cbv zeta. simpl.
  split; [done|]. intros f fr Hf.
  apply list_lookup_singleton_Some in Hf as [-> <-].
  destruct (local_process_inv format_d createReadStream_throws api o 0 item)
    as (_ & Hx & _).
  rewrite actions_of_own by done. apply J_first.
Qed.

Lemma lifted_step (ev : Event) (st st' : State) :
  inv o st → lifted st → step ev st = Some st' → lifted st'.
Proof.
  intros Hinv [Hapi HJ] Hstep.
  destruct (step_effect _ _ _ _ _ _ Hstep) as (fr & x & retry & Hf & Hloc & Hapi' & Heff).
  rewrite Hapi in Hloc, Heff.
  pose proof (inv_frames _ _ Hinv _ _ Hf) as Hl.
  pose proof (J_step _ _ _ _ _ Hl (HJ _ _ Hf) Hloc) as Hx.
  destruct (local_step_shape _ _ _ _ _ _ _ Hloc) as (Htag & _).
  set (f := event_frame ev) in *.
  pose proof (lookup_lt_Some _ _ _ Hf) as Hlt.
  assert (Hput : ∀ g fr', <[f := x.1]> (st_frames st) !! g = Some fr' →
            J g (actions_of g (st_log st ++ x.2)) fr').
  { intros g fr' Hg. rewrite actions_of_app. destruct (decide (f = g)) as [<-|Hne].
    - rewrite list_lookup_insert_eq in Hg by done. simplify_eq.
      by rewrite (actions_of_own f x.2).
    - rewrite list_lookup_insert_ne in Hg by done.
      rewrite (actions_of_other g x.2), app_nil_r; [by apply HJ|].
      eapply Forall_impl; [apply Htag|]. simpl. intros; congruence. }
  split; [congruence|]. destruct retry.
  - assert (Hpost : fr_post fr = true).
    { destruct ev; simpl in Hloc; repeat (case_match; simplify_eq; try done). }
    pose proof (inv_posting _ _ Hinv f fr Hf Hpost) as Hlast.
    destruct Heff as [Hfr Hlog]. rewrite Hfr, Hlog. intros g fr' Hg.
    destruct (local_process_inv format_d createReadStream_throws api (st_options st)
                (length (st_frames st)) (ItemStream (RequestStream (fr_item fr))))
      as (_ & Hy & _).
    set (y := local_process api (st_options st) (length (st_frames st))
                (ItemStream (RequestStream (fr_item fr)))) in *.
    rewrite actions_of_app.
    apply lookup_app_Some in Hg as [Hg|[Hlen Hg]].
    + rewrite (actions_of_other g y.2), app_nil_r; [by apply Hput|].
      apply lookup_lt_Some in Hg. rewrite length_insert in Hg.
      eapply Forall_impl; [apply Hy|]. simpl. intros; lia.
    + apply list_lookup_singleton_Some in Hg as [Hg <-].
      rewrite length_insert in Hlen, Hg.
      assert (g = length (st_frames st)) as -> by lia.
      rewrite (actions_of_own _ y.2) by done.
      rewrite (actions_of_fresh (length (st_frames st)) (st_log st ++ x.2)).
      * change (J (length (st_frames st)) y.2 y.1). subst y.
        rewrite <- Hlast, (inv_options _ _ Hinv).
        by apply (J_retry f fr (actions_of f (st_log st))); [| apply HJ |].
      * intros a [Ha|Ha]%elem_of_app; [by apply (inv_tags _ _ Hinv)|].
        rewrite Forall_forall in Htag. rewrite (Htag a Ha). done.
  - destruct Heff as [Hfr Hlog]. rewrite Hfr, Hlog. apply Hput.
Qed.

Lemma lifted_run (evs : list Event) (st st' : State) :
  inv o st → lifted st → run evs st = Some st' → lifted st'.
Proof.
  revert st. induction evs as [|ev evs IH]; intros st Hinv HJ; simpl.
  - by intros [= <-].
  - destruct (step ev st) as [st1|] eqn:Hstep; [|done]. simpl.
    apply IH; [by eapply step_inv | by eapply lifted_step].
Qed.

Lemma lifted_reachable (evs : list Event) (st : State) :
  run evs (user_call api o item) = Some st → lifted st.
Proof. apply lifted_run; [apply user_call_inv | apply lifted_user_call]. Qed.

End Lifting.

(** ** The life cycle *)

Lemma lifecycle_app (p : Phase) (l1 l2 : list Action) :
  lifecycle p (l1 ++ l2) = q ← lifecycle p l1; lifecycle q l2.
Proof.
  revert p. induction l1 as [|a l1 IH]; intros p; simpl; [done|].
  destruct (lifecycle_step p a); simpl; [apply IH | done].
Qed.

Lemma lifecycle_local_call (p q : Phase) (f : nat) (s : Slot) (arg : Arg) (fr : Frame) :
  lifecycle_step p (Call f s arg) = Some q →
  (∀ fn, lifecycle_step q (Invoke f s fn arg) = Some q) →
  lifecycle p (local_call f s arg fr).2 = Some q.
Proof.
  intros H1 H2. rewrite local_call_log. simpl. rewrite H1. simpl.
  destruct (once_called (cb_get (fr_callbacks fr) s)); simpl; [done|].
  by rewrite H2.
Qed.

Lemma lifecycle_call_if (b : bool) (p : Phase) (f : nat) (s : Slot) (arg : Arg)
    (fr : Frame) :
  lifecycle_step p (Call f s arg) = Some p →
  (∀ fn, lifecycle_step p (Invoke f s fn arg) = Some p) →
  lifecycle p (call_if b f s arg fr).2 = Some p.
Proof. destruct b; simpl; [apply lifecycle_local_call | done]. Qed.

Section Lifecycle.

Variable format_d : Port → string.
Variable js_encodeURIComponent : string → string.
Variable createReadStream_throws : string → option string.

Local Abbreviation local_process := (local_process format_d createReadStream_throws).
Local Abbreviation run := (run format_d js_encodeURIComponent createReadStream_throws).
Local Abbreviation local_step := (local_step format_d js_encodeURIComponent).
Local Abbreviation user_call := (user_call format_d createReadStream_throws).

Lemma local_process_lifecycle (api : Api) (o : Options) (f : nat) (item : Item) :
  follows_lifecycle (local_process api o f item).2 (local_process api o f item).1.
Proof.
  unfold local_process.
  destruct (creator format_d createReadStream_throws api item
              (createOptions (default_options o))) as [e| |listener r] eqn:Hc.
  - exists Failed. split.
    + by apply lifecycle_local_call.
    + pose proof (local_call_static f SError (AError e)
                    (new_frame item (is_http_link item) (hasPollingCallbacks o)
                       (make_callbacks (default_options o)) false false))
        as (_&_&_&E4&E5&_&_&E8&E9).
      unfold phase_ok. rewrite E4, E5, E8, E9. simpl. split_and!; [done | lia | done].
  - exists Aborted. split; [done|]. unfold phase_ok. simpl. split_and!; [done | lia | done].
  - destruct (creator_submitted _ _ _ _ _ _ _ Hc) as [Hm _].
    exists Posting. split; [by simpl; rewrite Hm|].
    unfold phase_ok. simpl. split_and!; [done | lia | auto].
Qed.

Lemma local_step_lifecycle (api : Api) (ev : Event) (fr : Frame) (l : list Action)
    (x : Frame * list Action) (retry : bool) :
  local_inv l fr → follows_lifecycle l fr →
  local_step api ev fr = Some (x, retry) →
  follows_lifecycle (l ++ x.2) x.1.
Proof.
  intros Hl (p & Hp & Hpost & Hpoll & Hlis) Hstep.
  unfold follows_lifecycle. setoid_rewrite lifecycle_app. rewrite Hp. simpl.
  destruct ev as [f [e|r]|f e|f|f res]; simpl in Hstep.
  - (* creation error *)
    destruct (fr_post fr) eqn:Epost; [|done]. rewrite (Hpost eq_refl).
    destruct (inv_post _ _ Hl Epost) as (Ht & Hg & _).
    destruct (is_link_unreachable e); simplify_eq; simpl.
    + exists Retried. split; [done|]. unfold phase_ok. simpl. rewrite Ht, Hg.
      split_and!; [done | lia | auto].
    + exists Posting. split; [by apply lifecycle_local_call|].
      pose proof (local_call_static f SError (AError e) (set_post false fr))
        as (_&_&_&E4&E5&_&_&E8&E9).
      unfold phase_ok. rewrite E4, E5, E8, E9. simpl. rewrite Ht, Hg.
      split_and!; [done | lia | auto].
  - (* created *)
    destruct (fr_post fr) eqn:Epost; [|done]. rewrite (Hpost eq_refl).
    destruct (inv_post _ _ Hl Epost) as (Ht & Hg & _). simplify_eq.
    unfold local_created, and_then. cbn [fst snd]. setoid_rewrite lifecycle_app.
    rewrite (lifecycle_local_call Posting Started) by done. simpl.
    pose proof (local_call_static f SStart (AResource r) (set_post false fr))
      as (_&_&E3&E4&E5&_&_&E8&E9).
    set (fr1 := (local_call f SStart (AResource r) (set_post false fr)).1) in *.
    simpl in E3, E4, E5, E8, E9.
    case_bool_decide.
    + exists Done. split; [by apply lifecycle_local_call|].
      pose proof (local_call_static f SComplete (AResource r) fr1)
        as (_&_&_&F4&F5&_&_&F8&F9).
      unfold phase_ok. rewrite F4, F5, F8, F9, E4, E5, E8, E9, Ht, Hg.
      split_and!; [done | lia | auto].
    + destruct (negb (fr_hasPollingCallbacks fr1)); simpl.
      * exists Started. split; [done|]. unfold phase_ok.
        rewrite E4, E5, E8, E9, Ht, Hg. split_and!; [done | lia | auto].
      * exists Started. split; [done|]. unfold phase_ok. simpl.
        rewrite E4. split_and!; [done | done | auto].
  - (* stream error *)
    destruct (fr_listener fr) eqn:Elis; [|done]. simplify_eq. cbn [fst snd].
    pose proof (local_call_static f SError
                  (AError (mkError None (Some STREAM_READ_MESSAGE) (Some e))) fr)
      as (_&_&_&E4&E5&_&_&E8&E9).
    exists p. split.
    + destruct (Hlis eq_refl) as [->|[->|[->| ->]]]; by apply lifecycle_local_call.
    + unfold phase_ok. rewrite E4, E5, E8, E9. split_and!; auto.
  - (* timer *)
    destruct (fr_timers fr) as [|n] eqn:Et; [done|].
    assert (p = Started) as -> by (apply Hpoll; lia).
    pose proof (inv_one_poller _ _ Hl) as Hone.
    assert (Epost : fr_post fr = false).
    { destruct (fr_post fr) eqn:E; [|done]. by specialize (Hpost eq_refl). }
    destruct (fr_created fr); simplify_eq; simpl.
    + exists Started. split; [done|]. unfold phase_ok. simpl.
      split_and!; [congruence | done | auto].
    + exists Started. split; [done|]. unfold phase_ok. simpl.
      split_and!; [congruence | done | auto].
  - (* poll reply *)
    destruct (fr_gets fr) as [|n] eqn:Eg; [done|].
    assert (p = Started) as -> by (apply Hpoll; lia).
    pose proof (inv_one_poller _ _ Hl) as Hone.
    assert (Epost : fr_post fr = false).
    { destruct (fr_post fr) eqn:E; [|done]. by specialize (Hpost eq_refl). }
    assert (n = 0%nat ∧ fr_timers fr = 0%nat) as [-> Et] by lia.
    simplify_eq.
    set (fr0 := set_poller (fr_created fr) (fr_pollingTimeout fr) (fr_timers fr) 0 fr).
    destruct res as [e|r]; simpl.
    + exists Started. split; [by apply lifecycle_local_call|].
      pose proof (local_call_static f SError (AError e) fr0) as (_&_&_&E4&E5&_&_&E8&E9).
      unfold phase_ok. rewrite E4, E5, E8, E9. simpl. rewrite Et.
      split_and!; [congruence | lia | auto].
    + unfold and_then. cbn [fst snd].
      rewrite lifecycle_app, (lifecycle_call_if _ Started) by done. simpl.
      rewrite lifecycle_app, (lifecycle_call_if _ Started) by done. simpl.
      pose proof (call_if_static (no_pending (res_thumbnails r)) f SThumbnails
                    (AJobs (res_thumbnails r)) fr0) as (_&_&_&E4&E5&_&_&E8&E9).
      set (fr1 := (call_if (no_pending (res_thumbnails r)) f SThumbnails
                     (AJobs (res_thumbnails r)) fr0).1) in *.
      pose proof (call_if_static (no_pending (res_images r)) f SThumbnails
                    (AJobs (res_images r)) fr1) as (_&_&_&F4&F5&_&_&F8&F9).
      set (fr2 := (call_if (no_pending (res_images r)) f SThumbnails
                     (AJobs (res_images r)) fr1).1) in *.
      simpl in E4, E5, E8, E9, F4, F5, F8, F9.
      case_bool_decide.
      * exists Done. split; [by apply lifecycle_local_call|].
        pose proof (local_call_static f SComplete (AResource r) fr2)
          as (_&_&_&G4&G5&_&_&G8&G9).
        unfold phase_ok.
        rewrite G4, G5, G8, G9, F4, F5, F8, F9, E4, E5, E8, E9, Et.
        split_and!; [congruence | lia | auto].
      * exists Started. split; [done|]. unfold phase_ok. simpl.
        rewrite F4, E4. split_and!; [congruence | done | auto].
Qed.

Lemma reachable_lifecycle (api : Api) (o : Options) (item : Item) (evs : list Event)
    (st : State) (f : nat) (fr : Frame) :
  run evs (user_call api o item) = Some st →
  st_frames st !! f = Some fr →
  follows_lifecycle (actions_of f (st_log st)) fr.
Proof.
  intros Hrun.
  apply (lifted_reachable format_d js_encodeURIComponent createReadStream_throws
           api o item (λ _, follows_lifecycle)) in Hrun as [_ H]; [by apply H | | |].
  - apply local_process_lifecycle.
  - intros. apply local_process_lifecycle.
  - intros. by eapply local_step_lifecycle.
Qed.

End Lifecycle.

Lemma lifecycle_counts (p q : Phase) (l : list Action) :
  lifecycle p l = Some q →
  (posted p + posts l = posted q)%nat
  ∧ (started p + triggers SStart l = started q)%nat
  ∧ (completed p + triggers SComplete l = completed q)%nat
  ∧ (retried p + fetches l = retried q)%nat.
Proof.
  revert p. induction l as [|a l IH]; intros p; simpl.
  - intros [= <-]. unfold posts, triggers, fetches. simpl. lia.
  - destruct (lifecycle_step p a) as [p'|] eqn:Hs; [|done]. simpl. intros Hl.
    destruct (IH _ Hl) as (H1 & H2 & H3 & H4).
    unfold posts, triggers, fetches in *. simpl.
    destruct p, a as [g s arg|g s fn arg|g r|g i|g d|g]; try destruct s;
      simpl in Hs; try destruct (req_method r) eqn:Hm; simplify_eq;
      simpl in *; rewrite ?Hm; simpl; lia.
Qed.

Lemma lifecycle_split (p r : Phase) (l1 l2 : list Action) (a : Action) :
  lifecycle p (l1 ++ a :: l2) = Some r →
  ∃ q q', lifecycle p l1 = Some q ∧ lifecycle_step q a = Some q'
          ∧ lifecycle q' l2 = Some r.
Proof.
  rewrite lifecycle_app. destruct (lifecycle p l1) as [q|]; [|done]. simpl.
  destruct (lifecycle_step q a) as [q'|] eqn:Hs; [|done]. simpl. eauto.
Qed.

Lemma after_start_started (q q' : Phase) (a : Action) :
  lifecycle_step q a = Some q' → after_start a = true → started q = 1%nat.
Proof.
  destruct q, a as [g s arg|g s fn arg|g r|g i|g d|g]; try destruct s;
    simpl; try destruct (req_method r); try done.
Qed.

Lemma lifecycle_after_complete (r : Phase) (l : list Action) :
  lifecycle Done l = Some r → Forall (λ a, after_complete a = true) l.
Proof.
  induction l as [|a l IH]; [constructor|]. cbn [lifecycle].
  destruct (lifecycle_step Done a) as [q|] eqn:Hs; [|done]. simpl. intros Hl.
  assert (q = Done ∧ after_complete a = true) as [-> Ha].
  { destruct a as [g s arg|g s fn arg|g r'|g i|g d|g]; try destruct s;
      simpl in Hs; by simplify_eq. }
  constructor; [done | by apply IH].
Qed.

Section LifecycleTheorems.

Variable format_d : Port → string.
Variable js_encodeURIComponent : string → string.
Variable createReadStream_throws : string → option string.

Local Abbreviation local_process := (local_process format_d createReadStream_throws).
Local Abbreviation step := (step format_d js_encodeURIComponent createReadStream_throws).
Local Abbreviation run := (run format_d js_encodeURIComponent createReadStream_throws).
Local Abbreviation user_call := (user_call format_d createReadStream_throws).

Lemma lifecycle_of_invocation (api : Api) (o : Options) (item : Item)
    (evs : list Event) (st : State) (f : nat) :
  run evs (user_call api o item) = Some st →
  ∃ p, lifecycle Fresh (actions_of f (st_log st)) = Some p
       ∧ ∀ fr, st_frames st !! f = Some fr → phase_ok p fr.
Proof.
  intros Hrun. destruct (st_frames st !! f) as [fr|] eqn:Hf.
  - destruct (reachable_lifecycle _ _ _ _ _ _ _ _ _ _ Hrun Hf) as (p & Hp & Hok).
    exists p. split; [done|]. by intros ? [= <-].
  - apply lookup_ge_None in Hf.
    rewrite (actions_of_beyond o); [by exists Fresh | | done].
    by eapply reachable_inv.
Qed.

(** Nothing of an invocation but its creation request, the link fetch of
    the retry and error reports comes before [start] is called: every timer,
    poll, call of [complete] or of the thumbnails wrapper, and every
    callback other than [error] that runs, has exactly one call of [start]
    before it in the trace of the invocation. *)
Theorem start_comes_first (api : Api) (o : Options) (item : Item)
    (evs : list Event) (st : State) (f : nat) (l1 l2 : list Action) (a : Action) :
  run evs (user_call api o item) = Some st →
  actions_of f (st_log st) = l1 ++ a :: l2 →
  after_start a = true →
  triggers SStart l1 = 1%nat.
Proof.
  intros Hrun Hl Ha.
  destruct (lifecycle_of_invocation _ _ _ _ _ f Hrun) as (p & Hp & _).
  rewrite Hl in Hp. apply lifecycle_split in Hp as (q & q' & H1 & H2 & _).
  pose proof (after_start_started _ _ _ H2 Ha) as Hq.
  destruct (lifecycle_counts _ _ _ H1) as (_ & Hs & _). simpl in Hs. lia.
Qed.

(** [complete] is the end of an invocation: its wrapper is called at most
    once, after that call the invocation has no request in flight and no
    timer set, and all that follows in its trace is the callback itself and
    reports of stream errors. *)
Theorem complete_comes_last (api : Api) (o : Options) (item : Item)
    (evs : list Event) (st : State) (f g : nat) (l1 l2 : list Action) (arg : Arg) :
  run evs (user_call api o item) = Some st →
  actions_of f (st_log st) = l1 ++ Call g SComplete arg :: l2 →
  triggers SComplete l1 = 0%nat
  ∧ Forall (λ a, after_complete a = true) l2
  ∧ ∀ fr, st_frames st !! f = Some fr → quiet fr.
Proof.
  intros Hrun Hl.
  destruct (lifecycle_of_invocation _ _ _ _ _ f Hrun) as (p & Hp & Hok).
  rewrite Hl in Hp. apply lifecycle_split in Hp as (q & q' & H1 & H2 & H3).
  assert (q = Started ∧ q' = Done) as [-> ->] by (destruct q; simpl in H2; by simplify_eq).
  destruct (lifecycle_counts _ _ _ H1) as (_ & _ & Hc & _). simpl in Hc.
  pose proof (lifecycle_after_complete _ _ H3) as Hall.
  destruct (lifecycle_counts _ _ _ H3) as (_ & _ & Hd & _).
  assert (p = Done) as -> by (destruct p; simpl in Hd; done || lia).
  split_and!; [done | done |].
  intros fr Hfr. destruct (Hok _ Hfr) as (Hpost & Hpoll & _). unfold quiet.
  destruct (fr_post fr); [by specialize (Hpost eq_refl)|].
  destruct (fr_timers fr), (fr_gets fr); try done; by (discriminate Hpoll; lia).
Qed.

Lemma local_process_posts (api : Api) (o : Options) (f : nat) (item : Item) :
  (posts (local_process api o f item).2 ≤ 1)%nat.
Proof.
  destruct (local_process_lifecycle format_d createReadStream_throws api o f item)
    as (p & Hp & _).
  destruct (lifecycle_counts _ _ _ Hp) as (H & _). destruct p; simpl in H; lia.
Qed.

Lemma accounted_reachable (api : Api) (o : Options) (item : Item) (evs : list Event)
    (st : State) :
  run evs (user_call api o item) = Some st → accounted st.
Proof.
  assert (H0 : accounted (user_call api o item)).
  { unfold user_call. rewrite process_local. cbv zeta. unfold accounted. simpl.
    destruct (local_process_inv format_d createReadStream_throws api o 0 item)
      as (_ & _ & _ & _ & Hfe).
    pose proof (local_process_posts api o 0 item). rewrite Hfe. split; [done | lia]. }
  revert H0. generalize (user_call api o item). clear item.
  induction evs as [|ev evs IH]; intros st0 H0; simpl.
  - by intros [= <-].
  - destruct (step ev st0) as [st1|] eqn:Hstep; [|done]. simpl. apply IH.
    destruct (step_effect _ _ _ _ _ _ Hstep) as (fr & x & retry & Hf & Hloc & _ & Heff).
    destruct (local_step_shape _ _ _ _ _ _ _ Hloc) as (_&_&_&_&_&_&_& Hretry & Hquiet).
    destruct H0 as [Hlen Hposts]. unfold accounted.
    destruct retry.
    + destruct Heff as [-> ->]. destruct Hretry as [_ Hx]; [done|]. rewrite Hx.
      destruct (local_process_inv format_d createReadStream_throws (st_api st0)
                  (st_options st0) (length (st_frames st0))
                  (ItemStream (RequestStream (fr_item fr)))) as (_ & _ & _ & _ & Hfe).
      pose proof (local_process_posts (st_api st0) (st_options st0)
                    (length (st_frames st0)) (ItemStream (RequestStream (fr_item fr)))).
      rewrite length_app, length_insert. unfold posts, fetches in *.
      rewrite !count_app, Hfe. simpl. lia.
    + destruct Heff as [-> ->]. destruct Hquiet as [Hfe Hpo]; [done|].
      rewrite length_insert. unfold posts, fetches in *. rewrite !count_app. lia.
Qed.

(** Each invocation sends at most one creation request, calls [start] at
    most once and takes the retry at most once, and never both; the run has
    one invocation more than it has link fetches, and no more creation
    requests than invocations: without a retry, at most one. *)
Theorem creation_requests_and_retries (api : Api) (o : Options) (item : Item)
    (evs : list Event) (st : State) :
  run evs (user_call api o item) = Some st →
  (∀ f, (posts (actions_of f (st_log st)) ≤ 1)%nat
        ∧ (triggers SStart (actions_of f (st_log st)) ≤ 1)%nat
        ∧ (fetches (actions_of f (st_log st)) ≤ 1)%nat
        ∧ (triggers SStart (actions_of f (st_log st))
           + fetches (actions_of f (st_log st))
           ≤ posts (actions_of f (st_log st)))%nat)
  ∧ length (st_frames st) = S (fetches (st_log st))
  ∧ (posts (st_log st) ≤ S (fetches (st_log st)))%nat.
Proof.
  intros Hrun. destruct (accounted_reachable _ _ _ _ _ Hrun) as [Hlen Hposts].
  split_and!; [|done|lia]. intros f.
  destruct (lifecycle_of_invocation _ _ _ _ _ f Hrun) as (p & Hp & _).
  destruct (lifecycle_counts _ _ _ Hp) as (H1 & H2 & H3 & H4).
  destruct p; simpl in *; lia.
Qed.

End LifecycleTheorems.

(** ** Arguments of callbacks *)



Section Arguments.

Variable format_d : Port → string.
Variable js_encodeURIComponent : string → string.
Variable createReadStream_throws : string → option string.

Local Abbreviation local_process := (local_process format_d createReadStream_throws).
Local Abbreviation run := (run format_d js_encodeURIComponent createReadStream_throws).
Local Abbreviation local_step := (local_step format_d js_encodeURIComponent).
Local Abbreviation user_call := (user_call format_d createReadStream_throws).




End Arguments.

(** ** What [_request] sends *)

Lemma map_some_spec (P : Value → bool) (d : gmap string Value) :
  map_some P d = true ↔ ∃ k v, d !! k = Some v ∧ P v = true.
Proof.
  unfold map_some. rewrite bool_decide_eq_true, Exists_exists. split.
  - intros ([k v] & Hin & HP). exists k, v. by apply elem_of_map_to_list in Hin.
  - intros (k & v & Hk & HP). exists (k, v). by rewrite elem_of_map_to_list.
Qed.

Lemma sanitize_binary (v0 v : Value) :
  sanitize v0 = Some v → is_binary v = is_binary v0.
Proof.
  destruct v0 as [| |s|xs|st|b]; simpl; try (by intros [= <-]).
  destruct (filter _ xs); [done | by intros [= <-]].
Qed.

Lemma sanitize_keeps_binary (v : Value) : is_binary v = true → sanitize v = Some v.
Proof. by destruct v. Qed.

Lemma sanitize_spec (v0 v : Value) :
  sanitize v0 = Some v →
  v ≠ VNull ∧ v ≠ VUndefined
  ∧ (∀ xs, v = VArray xs → xs ≠ [] ∧ "" ∉ xs)
  ∧ ((∀ xs, v0 ≠ VArray xs) → v = v0).
Proof.
  destruct v0 as [| |s|xs|st|b]; simpl; try (by intros [= <-]).
  destruct (filter (λ s, s ≠ "") xs) as [|y ys] eqn:E; [done|]. intros [= <-].
  split_and!; try done.
  - intros xs' [= <-]. split; [done|]. rewrite <- E.
    by intros [? _]%list_elem_of_filter.
  - intros H. by destruct (H xs).
Qed.

Section RequestLayer.

Variable format_d : Port → string.
Variable js_encodeURIComponent : string → string.
Variable createReadStream_throws : string → option string.

Local Abbreviation _request := (_request format_d).
Local Abbreviation creator := (creator format_d createReadStream_throws).
Local Abbreviation createFile := (createFile format_d createReadStream_throws).
Local Abbreviation createLink := (createLink format_d).

Lemma _request_field (api : Api) (m : Method) (path : string)
    (data : option (gmap string Value)) (k : string) (v : Value) :
  body_field (req_body (_request api m path data)) k = Some v →
  omap sanitize (default ∅ data) !! k = Some v.
Proof.
  unfold _request. simpl. case_decide; [done|]. destruct m; simpl; [done|].
  destruct (map_some is_binary _); simpl; [|done].
  by intros [? _]%map_lookup_filter_Some.
Qed.

(** Whatever the data, a field of the body of a request is a field of the
    data, and it is never [null] or [undefined], nor an empty array or an
    array with an empty string in it: the value is the one given, arrays
    apart, which are compacted. *)
Theorem request_fields_are_sanitised (api : Api) (m : Method) (path : string)
    (data : option (gmap string Value)) (k : string) (v : Value) :
  body_field (req_body (_request api m path data)) k = Some v →
  v ≠ VNull ∧ v ≠ VUndefined
  ∧ (∀ xs, v = VArray xs → xs ≠ [] ∧ "" ∉ xs)
  ∧ ∃ v0, default ∅ data !! k = Some v0
          ∧ ((∀ xs, v0 ≠ VArray xs) → v = v0)
          ∧ (∀ xs, v0 = VArray xs → v = VArray (filter (λ s, s ≠ "") xs)).
Proof.
  intros H. apply _request_field in H. rewrite lookup_omap in H.
  destruct (default ∅ data !! k) as [v0|] eqn:Hk; [|done]. simpl in H.
  destruct (sanitize_spec _ _ H) as (H1 & H2 & H3 & H4).
  split_and!; try done. exists v0. split_and!; try done.
  intros xs ->. simpl in H. destruct (filter _ xs); by simplify_eq.
Qed.

(** A request is multipart exactly when it is a POST and some value of the
    data is a stream or a buffer; a GET carries its data in the query
    string; the body is empty exactly when nothing is left of the data. *)
Theorem multipart_iff_binary (api : Api) (m : Method) (path : string)
    (data : gmap string Value) :
  ((∃ parts, req_body (_request api m path (Some data)) = Multipart parts)
   ↔ m = POST ∧ ∃ k v, data !! k = Some v ∧ is_binary v = true)
  ∧ ((∃ d, req_body (_request api m path (Some data)) = Qs d)
     ↔ m = GET ∧ ∃ k v0 v, data !! k = Some v0 ∧ sanitize v0 = Some v)
  ∧ (req_body (_request api m path (Some data)) = NoBody
     ↔ ∀ k v0, data !! k = Some v0 → sanitize v0 = None).
Proof.
  assert (Hbin : map_some is_binary (omap sanitize data) = true
                 ↔ ∃ k v, data !! k = Some v ∧ is_binary v = true).
  { rewrite map_some_spec. split.
    - intros (k & v & Hk & Hb). rewrite lookup_omap in Hk.
      destruct (data !! k) as [v0|] eqn:E; [|done]. simpl in Hk.
      exists k, v0. split; [done|]. by rewrite <- (sanitize_binary _ _ Hk).
    - intros (k & v & Hk & Hb). exists k, v.
      by rewrite lookup_omap, Hk; simpl; rewrite sanitize_keeps_binary. }
  assert (Hempty : omap sanitize data = ∅
                   ↔ ∀ k v0, data !! k = Some v0 → sanitize v0 = None).
  { split.
    - intros E k v0 Hk. apply (f_equal (λ d, d !! k)) in E.
      by rewrite lookup_omap, Hk, lookup_empty in E.
    - intros H. apply map_eq. intros k. rewrite lookup_omap, lookup_empty.
      destruct (data !! k) as [v0|] eqn:E; [|done]. by apply (H k). }
  assert (Hsome : omap sanitize data ≠ ∅
                  ↔ ∃ k v0 v, data !! k = Some v0 ∧ sanitize v0 = Some v).
  { rewrite Hempty. split.
    - intros H. destruct (decide (omap sanitize data = ∅)) as [E|E].
      + destruct H. by apply Hempty.
      + apply map_choose in E as (k & v & Hk). rewrite lookup_omap in Hk.
        destruct (data !! k) as [v0|] eqn:E0; [|done]. eauto.
    - intros (k & v0 & v & Hk & Hs) H. by rewrite (H k v0 Hk) in Hs. }
  unfold _request. simpl. split_and!.
  - case_decide as E.
    + split; [by intros [? ?]|]. intros [_ (k & v & Hk & Hb)].
      pose proof (proj1 Hempty E k v Hk) as E'.
      by rewrite sanitize_keeps_binary in E'.
    + destruct m; simpl.
      * split; [by intros [? ?] | by intros [? _]].
      * destruct (map_some is_binary (omap sanitize data)) eqn:Eb.
        -- split; [|eauto]. intros _. split; [done|]. by apply Hbin.
        -- split; [by intros [? ?]|]. intros [_ H]. apply Hbin in H. congruence.
  - case_decide as E.
    + split; [by intros [? ?]|]. intros [_ H]. by apply Hsome in H.
    + destruct m; simpl.
      * split; [|eauto]. intros _. split; [done|]. by apply Hsome.
      * destruct (map_some is_binary _); split; (by intros [? ?]) || by intros [? _].
  - case_decide as E.
    + split; [|done]. intros _. by apply Hempty.
    + split; [by destruct m; simpl; try destruct (map_some is_binary _)|].
      intros H. by apply Hempty in H.
Qed.


Lemma _request_keeps (api : Api) (m : Method) (path : string)
    (data : gmap string Value) (k : string) (v : Value) :
  data !! k = Some v → k ≠ "" → truthy v = true → (∀ xs, v ≠ VArray xs) →
  body_field (req_body (_request api m path (Some data))) k = Some v.
Proof.
  intros Hk Hne Ht Harr. unfold _request. simpl.
  assert (Hs : omap sanitize data !! k = Some v).
  { rewrite lookup_omap, Hk. simpl. destruct v; try done. by destruct (Harr xs). }
  rewrite decide_False by (intros E; by rewrite E, lookup_empty in Hs).
  destruct m; simpl; [done|].
  destruct (map_some is_binary _); simpl; [|done].
  by apply map_lookup_filter_Some.
Qed.

Lemma addSizes_lookup (data options : gmap string Value) (name k : string) (v : Value) :
  addSizes data options name !! k = Some v →
  data !! k = Some v
  ∨ (k = name ∧ truthy (prop options name) = true
     ∧ v = match prop options name with
           | VArray xs => VString (join "," xs)
           | other => other
           end).
Proof.
  unfold addSizes. destruct (truthy (prop options name)) eqn:Ht; simpl; [|by left].
  destruct (decide (k = name)) as [->|Hne].
  - rewrite lookup_insert_eq. intros [= <-]. right.
    split_and!; [done | done | by destruct (prop options name)].
  - rewrite lookup_insert_ne by done. by left.
Qed.

Lemma addSizes_not_binary (data options : gmap string Value) (name : string) :
  is_binary (prop options name) = false →
  (∀ k v, data !! k = Some v → is_binary v = false) →
  ∀ k v, addSizes data options name !! k = Some v → is_binary v = false.
Proof.
  intros Hb Hd k v [H|(_ & _ & ->)]%addSizes_lookup; [by eapply Hd|].
  by destruct (prop options name).
Qed.

(** A string that starts with [http] is submitted by [createLink]: one
    form-encoded POST to [/resources] with the string as its [link] field
    and no [file] field, and no error listener is attached. *)
Theorem links_are_form_encoded (api : Api) (s : string)
    (options : gmap string Value) :
  is_http_link (ItemString s) = true →
  is_binary (prop options "thumbnailSizes") = false →
  is_binary (prop options "imagePreviewSizes") = false →
  ∃ r d, creator api (ItemString s) options = Submitted false r
         ∧ req_method r = POST
         ∧ req_url r = request_url format_d api "/resources"
         ∧ req_body r = Form d
         ∧ d !! "link" = Some (VString s)
         ∧ d !! "file" = None.
Proof.
  intros Hlink Hb1 Hb2. unfold creator. rewrite Hlink. unfold createLink.
  assert (Hl : link_data s options !! "link" = Some (VString s)).
  { unfold link_data. by rewrite !addSizes_other, lookup_singleton_eq. }
  assert (Hf : link_data s options !! "file" = None).
  { unfold link_data. by rewrite !addSizes_other, lookup_singleton_ne. }
  assert (Hnb : ∀ k v, link_data s options !! k = Some v → is_binary v = false).
  { unfold link_data. apply addSizes_not_binary; [done|].
    apply addSizes_not_binary; [done|].
    intros k v [<- <-]%lookup_singleton_Some. done. }
  assert (Hs : omap sanitize (link_data s options) !! "link" = Some (VString s))
    by (by rewrite lookup_omap, Hl).
  assert (Hm : map_some is_binary (omap sanitize (link_data s options)) = false).
  { apply not_true_is_false. intros (k & v & Hk & Hv)%map_some_spec.
    rewrite lookup_omap in Hk.
    destruct (link_data s options !! k) as [v0|] eqn:E; [|done]. simpl in Hk.
    rewrite (sanitize_binary _ _ Hk), (Hnb _ _ E) in Hv. done. }
  eexists _, _. split; [done|]. unfold _request. simpl.
  rewrite decide_False by (intros E; by rewrite E, lookup_empty in Hs).
  rewrite Hm. split_and!; try done. by rewrite lookup_omap, Hf.
Qed.

(** Anything else is submitted by [createFile]: a path that can be opened
    as the stream read from it, a stream as it is.  The request is a
    multipart POST to [/resources] with the stream as its [file] part and
    no [link] part, an error listener is attached to the stream, and no
    part is an empty string. *)
Theorem files_are_uploaded_multipart (api : Api) (item : Item) (st : Stream)
    (options : gmap string Value) :
  is_http_link item = false →
  match item with
  | ItemString path => createReadStream_throws path = None ∧ st = ReadStream path
  | ItemStream st' => st = st'
  | ItemBuffer _ => False
  end →
  ∃ r parts, creator api item options = Submitted true r
             ∧ req_method r = POST
             ∧ req_url r = request_url format_d api "/resources"
             ∧ req_body r = Multipart parts
             ∧ parts !! "file" = Some (VStream st)
             ∧ parts !! "link" = None
             ∧ ∀ k, parts !! k ≠ Some (VString "").
Proof.
  intros Hlink Hitem.
  assert (Hc : creator api item options
               = Submitted true (_request api POST "/resources"
                                   (Some (file_data st options)))).
  { unfold creator, createFile. destruct item as [path|st'|b]; [| |done].
    - rewrite Hlink. destruct Hitem as [-> ->]. done.
    - by subst. }
  destruct (_request_stream_part format_d api "/resources" (file_data st options)
              "file" st) as (parts & Hb & Hfile); [done | apply file_data_file |].
  exists (_request api POST "/resources" (Some (file_data st options))), parts.
  split_and!; try done.
  - assert (H : body_field (req_body (_request api POST "/resources"
                                        (Some (file_data st options)))) "link" = None).
    { apply _request_omits. unfold file_data.
      by rewrite !addSizes_other, lookup_singleton_ne. }
    by rewrite Hb in H.
  - intros k Hk. revert Hb. unfold _request. simpl. case_decide; [done|].
    destruct (map_some is_binary _); [|done]. intros [= <-].
    by apply map_lookup_filter_Some in Hk as [_ [_ ?]].
Qed.

(** The thumbnail sizes of the options reach the server: a list that joins
    to a non-empty string is sent as that string, its elements separated by
    commas; a non-empty string is sent as it is; nothing is sent for sizes
    that are [undefined] or [null]. *)
Theorem thumbnail_sizes_are_sent (api : Api) (o : Options) (item : Item)
    (listener : bool) (r : HttpRequest) :
  creator api item (createOptions (default_options o)) = Submitted listener r →
  match processor_sizes (o_thumbnails o) with
  | VArray xs =>
      join "," xs ≠ "" →
      body_field (req_body r) "thumbnailSizes" = Some (VString (join "," xs))
  | VString s =>
      s ≠ "" → body_field (req_body r) "thumbnailSizes" = Some (VString s)
  | VUndefined | VNull => body_field (req_body r) "thumbnailSizes" = None
  | VStream _ | VBuffer _ => True
  end.
Proof.
  intros Hc.
  assert (Hopt : prop (createOptions (default_options o)) "thumbnailSizes"
                 = processor_sizes (o_thumbnails o)).
  { unfold prop, createOptions. rewrite lookup_insert_ne, lookup_insert_eq by done.
    by destruct o as [? ? ? ? [[]|]]. }
  set (options := createOptions (default_options o)) in *.
  assert (Hdata : ∃ data, r = _request api POST "/resources" (Some data)
            ∧ data !! "thumbnailSizes"
              = (addSizes ∅ options "thumbnailSizes") !! "thumbnailSizes").
  { assert (Hadd : ∀ data0 : gmap string Value, data0 !! "thumbnailSizes" = None →
              addSizes (addSizes data0 options "thumbnailSizes") options
                "imagePreviewSizes" !! "thumbnailSizes"
              = addSizes ∅ options "thumbnailSizes" !! "thumbnailSizes").
    { intros data0 H0. rewrite addSizes_other by done. unfold addSizes.
      destruct (negb (truthy (prop options "thumbnailSizes"))); [done|].
      by rewrite !lookup_insert_eq. }
    revert Hc. unfold creator, createLink, createFile.
    destruct item as [s|st|b]; simpl; [| |done].
    - destruct (String.eqb (String.substring 0 4 s) "http").
      + intros [= <- <-]. eexists. split; [done|]. by apply Hadd.
      + destruct (createReadStream_throws s); [done|]. intros [= <- <-].
        eexists. split; [done|]. by apply Hadd.
    - intros [= <- <-]. eexists. split; [done|]. by apply Hadd. }
  destruct Hdata as (data & -> & Hk). unfold addSizes in Hk. rewrite Hopt in Hk.
  destruct (processor_sizes (o_thumbnails o)) as [| |s|xs|st|b]; simpl in Hk; try done.
  - apply _request_omits. by rewrite Hk.
  - apply _request_omits. by rewrite Hk.
  - intros Hs. apply _request_keeps; try done.
    + rewrite Hk. destruct (String.eqb_spec s ""); [done|].
      simpl. by rewrite lookup_insert_eq.
    + simpl. by destruct (String.eqb_spec s "").
  - intros Hj. rewrite lookup_insert_eq in Hk. apply _request_keeps; try done.
    simpl. by destruct (String.eqb_spec (join "," xs) "").
Qed.


Lemma creator_request (api : Api) (item : Item) (options : gmap string Value)
    (listener : bool) (r : HttpRequest) :
  creator api item options = Submitted listener r →
  ∃ data, r = _request api POST "/resources" (Some data).
Proof.
  unfold creator, createLink, createFile. destruct item as [s|st|b]; simpl; [| |done].
  - destruct (String.eqb (String.substring 0 4 s) "http").
    + intros [= <- <-]. eauto.
    + destruct (createReadStream_throws s); [done|]. intros [= <- <-]. eauto.
  - intros [= <- <-]. eauto.
Qed.

(** A client that the constructor made, whatever was set afterwards apart:
    its requests go to [http://embdr.io], port [80], under [/api]; they
    carry no [strictSSL] setting at all, and an [Authorization] header
    unless the key was missing or empty. *)
Theorem requests_of_a_new_client (key : option string) (m : Method) (path : string)
    (data : option (gmap string Value)) :
  let r := _request (Embdr key) m path data in
  req_url r = "http://embdr.io:" +:+ format_d (PortStr "80") +:+ "/api" +:+ path
  ∧ req_method r = m
  ∧ req_strictSSL r = None
  ∧ (req_authorization r = None ↔ key = None ∨ key = Some "").
Proof.
  assert (H : host (Embdr key) = "embdr.io" ∧ port (Embdr key) = PortStr "80"
              ∧ protocol (Embdr key) = "http" ∧ basePath (Embdr key) = "/api"
              ∧ strictSSL (Embdr key) = None
              ∧ (auth (Embdr key) = None ↔ key = None ∨ key = Some "")).
  { unfold Embdr, setApiKey. destruct key as [k|]; [|split_and!; try done; by split; [left|]].
    destruct (String.eqb_spec k "") as [->|Hk]; simpl; split_and!; try done.
    - split; [by right | done].
    - split; [done|]. intros [?|[= ?]]; done. }
  destruct H as (H1 & H2 & H3 & H4 & H5 & H6).
  unfold _request, request_url. simpl. rewrite H1, H2, H3, H4. done.
Qed.

End RequestLayer.

(** ** The requests of a run *)

Lemma local_call_sends (f : nat) (s : Slot) (arg : Arg) (fr : Frame) (g : nat)
    (r : HttpRequest) :
  Send g r ∉ (local_call f s arg fr).2.
Proof.
  rewrite local_call_log. intros [H|H]%elem_of_cons; [done|].
  destruct (once_called (cb_get (fr_callbacks fr) s)).
  - by apply elem_of_nil in H.
  - by apply list_elem_of_singleton in H.
Qed.

Lemma call_if_sends (b : bool) (f : nat) (s : Slot) (arg : Arg) (fr : Frame) (g : nat)
    (r : HttpRequest) :
  Send g r ∉ (call_if b f s arg fr).2.
Proof. destruct b; simpl; [apply local_call_sends | apply not_elem_of_nil]. Qed.

Lemma no_polls_posts (l : list Action) (g : nat) (r : HttpRequest) :
  polls l = 0%nat → Send g r ∈ l → req_method r = POST.
Proof.
  unfold polls. induction l as [|a l IH]; simpl; [by intros _ ?%elem_of_nil|].
  intros Hc [<-|Hin]%elem_of_cons.
  - simpl in Hc. by destruct (req_method r).
  - apply IH; [lia | done].
Qed.

Section RequestsOfARun.

Variable format_d : Port → string.
Variable js_encodeURIComponent : string → string.
Variable createReadStream_throws : string → option string.

Local Abbreviation creator := (creator format_d createReadStream_throws).
Local Abbreviation get := (get format_d js_encodeURIComponent).
Local Abbreviation local_process := (local_process format_d createReadStream_throws).
Local Abbreviation run := (run format_d js_encodeURIComponent createReadStream_throws).
Local Abbreviation local_step := (local_step format_d js_encodeURIComponent).
Local Abbreviation user_call := (user_call format_d createReadStream_throws).
Local Abbreviation requests_ok :=
  (requests_ok format_d js_encodeURIComponent createReadStream_throws).

Lemma local_process_requests (api : Api) (o : Options) (f : nat) (item : Item) :
  let y := local_process api o f item in
  fr_item y.1 = item ∧ fr_created y.1 = None
  ∧ ∀ g r, Send g r ∈ y.2 →
      req_method r = POST
      ∧ ∃ listener, creator api item (createOptions (default_options o))
                    = Submitted listener r.
Proof.
  unfold local_process.
  destruct (creator api item (createOptions (default_options o)))
    as [e| |listener r'] eqn:Hc; cbv zeta.
  - pose proof (local_call_static f SError (AError e)
                  (new_frame item (is_http_link item) (hasPollingCallbacks o)
                     (make_callbacks (default_options o)) false false))
      as (E1&_&_&_&_&E6&_).
    rewrite E1, E6. split_and!; [done | done |].
    intros g r Hin. by apply local_call_sends in Hin.
  - split_and!; [done | done |]. by intros g r ?%list_elem_of_singleton.
  - split_and!; [done | done |]. intros g r [= <- <-]%list_elem_of_singleton.
    destruct (creator_submitted _ _ _ _ _ _ _ Hc) as [Hm _]. eauto.
Qed.

Lemma local_step_requests (api : Api) (o : Options) (item : Item) (ev : Event)
    (fr : Frame) (l : list Action) (x : Frame * list Action) (retry : bool) :
  local_inv l fr → requests_ok api o item (event_frame ev) l fr →
  local_step api ev fr = Some (x, retry) →
  requests_ok api o item (event_frame ev) (l ++ x.2) x.1.
Proof.
  intros Hl (Hitem & Hsend & Hcr) Hstep.
  destruct (local_step_shape _ _ _ _ _ _ _ Hstep) as (_&_&_&_&_& Hit &_).
  unfold requests_ok. rewrite Hit. split; [done|].
  assert (Hkeep : fr_created x.1 = fr_created fr → (∀ g r, Send g r ∉ x.2) →
            (∀ g r, Send g r ∈ l ++ x.2 →
               match req_method r with
               | POST => ∃ listener,
                   creator api (fr_item fr) (createOptions (default_options o))
                   = Submitted listener r
               | GET => ∃ c, fr_created x.1 = Some c ∧ r = get api (res_id c)
               end)
            ∧ (∀ c, fr_created x.1 = Some c →
                 Call (event_frame ev) SStart (AResource c) ∈ l ++ x.2
                 ∧ res_status c = "pending")).
  { intros -> Hno. split.
    - intros g r [Hin|Hin]%elem_of_app; [by apply (Hsend g) | by destruct (Hno g r)].
    - intros c Hc. destruct (Hcr c Hc). split; [apply elem_of_app; by left | done]. }
  destruct ev as [f [e|r]|f e|f|f res]; simpl in Hstep; cbn [event_frame] in *.
  - destruct (fr_post fr); [|done].
    destruct (is_link_unreachable e); simplify_eq; apply Hkeep; simpl; try done.
    + intros g r Hin. by apply list_elem_of_singleton in Hin.
    + by destruct (local_call_static f SError (AError e) (set_post false fr))
        as (_&_&_&_&_&->&_).
    + apply local_call_sends.
  - destruct (fr_post fr) eqn:Epost; [|done]. simplify_eq.
    destruct (inv_post _ _ Hl Epost) as (Ht & Hg & Hto & _).
    destruct (inv_backoff _ _ Hl) as (k & Hk1 & Hk2 & _).
    assert (Hpolls : polls l = 0%nat).
    { rewrite Hto in Hk1. destruct k; [lia|].
      by rewrite backoff_seq_snoc in Hk1; destruct (map backoff (seq 0 k)). }
    unfold local_created, and_then in *. cbn [fst snd] in *.
    pose proof (local_call_static f SStart (AResource r) (set_post false fr))
      as (_&_&_&_&_&E6&_).
    set (x1 := local_call f SStart (AResource r) (set_post false fr)) in *.
    simpl in E6.
    assert (Hcall : Call f SStart (AResource r) ∈ x1.2)
      by (subst x1; rewrite local_call_log; left).
    case_bool_decide as Hst.
    + apply Hkeep.
      * by destruct (local_call_static f SComplete (AResource r) x1.1)
          as (_&_&_&_&_&->&_).
      * intros g r' [Hin|Hin]%elem_of_app; by apply local_call_sends in Hin.
    + destruct (negb (fr_hasPollingCallbacks x1.1)).
      * apply Hkeep; [done|]. rewrite app_nil_r. apply local_call_sends.
      * cbn [fst snd]. split.
        -- intros g r' [Hin|[Hin|Hin]%elem_of_app]%elem_of_app.
           ++ rewrite (no_polls_posts l g r' Hpolls Hin).
              pose proof (Hsend g r' Hin) as H.
              by rewrite (no_polls_posts l g r' Hpolls Hin) in H.
           ++ by apply local_call_sends in Hin.
           ++ by apply list_elem_of_singleton in Hin.
        -- simpl. intros c [= <-]. split.
           ++ apply elem_of_app. right. apply elem_of_app. by left.
           ++ by destruct (decide (res_status r = "pending")).
  - destruct (fr_listener fr); [|done]. simplify_eq. apply Hkeep.
    + by destruct (local_call_static f SError
                     (AError (mkError None (Some STREAM_READ_MESSAGE) (Some e))) fr)
        as (_&_&_&_&_&->&_).
    + apply local_call_sends.
  - destruct (fr_timers fr); [done|].
    destruct (fr_created fr) as [c|] eqn:Ec; simplify_eq; cbn [fst snd].
    + split.
      * intros g r [Hin|Hin]%elem_of_app; [by apply (Hsend g)|].
        apply list_elem_of_singleton in Hin. simplify_eq. simpl. eauto.
      * simpl. intros c' Hc'. destruct (Hcr c' Hc').
        split; [apply elem_of_app; by left | done].
    + apply Hkeep; [done|]. simpl. intros g r. apply not_elem_of_nil.
  - destruct (fr_gets fr); [done|]. simplify_eq. cbn [fst snd].
    destruct res as [e|r].
    { apply Hkeep; unfold local_polled.
      - by destruct (local_call_static f SError (AError e)
                       (set_poller (fr_created fr) (fr_pollingTimeout fr)
                          (fr_timers fr) n fr)) as (_&_&_&_&_&->&_).
      - apply local_call_sends. }
    apply Hkeep; unfold local_polled, and_then; cbn [fst snd].
    + set (fr0 := set_poller (fr_created fr) (fr_pollingTimeout fr) (fr_timers fr) n fr).
      pose proof (call_if_static (no_pending (res_thumbnails r)) f SThumbnails
                    (AJobs (res_thumbnails r)) fr0) as (_&_&_&_&_&E6&_).
      set (x1 := call_if (no_pending (res_thumbnails r)) f SThumbnails
                   (AJobs (res_thumbnails r)) fr0) in *.
      pose proof (call_if_static (no_pending (res_images r)) f SThumbnails
                    (AJobs (res_images r)) x1.1) as (_&_&_&_&_&F6&_).
      set (x2 := call_if (no_pending (res_images r)) f SThumbnails
                   (AJobs (res_images r)) x1.1) in *.
      simpl in E6, F6.
      case_bool_decide; simpl.
      * destruct (local_call_static f SComplete (AResource r) x2.1)
          as (_&_&_&_&_&->&_). congruence.
      * congruence.
    + intros g r' [Hin|[Hin|Hin]%elem_of_app]%elem_of_app.
      * by apply call_if_sends in Hin.
      * by apply call_if_sends in Hin.
      * case_bool_decide; [by apply local_call_sends in Hin|].
        by apply list_elem_of_singleton in Hin.
Qed.

Lemma reachable_requests (api : Api) (o : Options) (item : Item) (evs : list Event)
    (st : State) (f : nat) (fr : Frame) :
  run evs (user_call api o item) = Some st →
  st_frames st !! f = Some fr →
  requests_ok api o item f (actions_of f (st_log st)) fr.
Proof.
  intros Hrun.
  apply (lifted_reachable format_d js_encodeURIComponent createReadStream_throws
           api o item (requests_ok api o item)) in Hrun as [_ H]; [by apply H | | |].
  - destruct (local_process_requests api o 0 item) as (H1 & H2 & H3).
    split_and!; [done | |by rewrite H2].
    intros g r Hin. destruct (H3 g r Hin) as [-> ?]. by rewrite H1.
  - intros f' fr' l _ (Hit & _) _ y.
    destruct (local_process_requests api (default_options o) (S f')
                (ItemStream (RequestStream (fr_item fr')))) as (H1 & H2 & H3).
    fold y in H1, H2, H3. split_and!; [by rewrite H1, Hit | |by rewrite H2].
    intros g r Hin. destruct (H3 g r Hin) as [-> ?]. by rewrite H1.
  - intros. by eapply local_step_requests.
Qed.

Lemma sends_of_a_run (api : Api) (o : Options) (item : Item)
    (evs : list Event) (st : State) (f : nat) (r : HttpRequest) :
  run evs (user_call api o item) = Some st →
  Send f r ∈ st_log st →
  ∃ fr, st_frames st !! f = Some fr
        ∧ Send f r ∈ actions_of f (st_log st)
        ∧ requests_ok api o item f (actions_of f (st_log st)) fr.
Proof.
  intros Hrun Hin. pose proof (reachable_inv _ _ _ _ _ _ _ _ Hrun) as Hinv.
  pose proof (inv_tags _ _ Hinv _ Hin) as Hlt. simpl in Hlt.
  destruct (lookup_lt_is_Some_2 _ _ Hlt) as [fr Hfr].
  exists fr. split_and!; [done | by apply list_elem_of_filter |].
  by eapply reachable_requests.
Qed.

(** Every request of a run is accounted for.  A POST in the trace of the
    [f]-th invocation is the creation request that [creator] builds for
    the item of that invocation (the item of the caller for the first, the
    stream [request(item)] for each retry) with the sizes of the options.
    A GET is [resources.get] of the identifier of the very resource that
    invocation passed to [start], a resource that was pending. *)
Theorem requests_of_a_run (api : Api) (o : Options) (item : Item)
    (evs : list Event) (st : State) (f : nat) (r : HttpRequest) :
  run evs (user_call api o item) = Some st →
  Send f r ∈ st_log st →
  match req_method r with
  | POST => ∃ listener,
      creator api (retry_item f item) (createOptions (default_options o))
      = Submitted listener r
  | GET => ∃ c, Call f SStart (AResource c) ∈ st_log st
                ∧ res_status c = "pending"
                ∧ r = get api (res_id c)
  end.
Proof.
  intros Hrun Hin.
  destruct (sends_of_a_run _ _ _ _ _ _ _ Hrun Hin) as (fr & Hfr & Hin' & Hit & Hsend & Hcr).
  specialize (Hsend f r Hin'). destruct (req_method r).
  - destruct Hsend as (c & Hc & ->). exists c.
    destruct (Hcr c Hc) as [Hcall Hst]. split_and!; [|done|done].
    by apply list_elem_of_filter in Hcall as [_ ?].
  - by rewrite <- Hit.
Qed.

(** Every request of a run carries the [Authorization] value and the
    [strictSSL] setting of the client and goes to its protocol, host, port
    and base path.  The path of a creation request is [/resources]; a poll
    has no body, and its path is [/resources/] followed by the encoded
    identifier of the created resource, or by nothing when that identifier
    is [null]. *)
Theorem requests_carry_the_configuration (api : Api) (o : Options) (item : Item)
    (evs : list Event) (st : State) (f : nat) (r : HttpRequest) :
  run evs (user_call api o item) = Some st →
  Send f r ∈ st_log st →
  req_authorization r = auth api
  ∧ req_strictSSL r = strictSSL api
  ∧ match req_method r with
    | POST => req_url r = request_url format_d api "/resources"
    | GET =>
        req_body r = NoBody
        ∧ ∃ c, Call f SStart (AResource c) ∈ st_log st
               ∧ req_url r
                 = request_url format_d api
                     ("/resources/" +:+ match res_id c with
                                        | Some id => js_encodeURIComponent id
                                        | None => ""
                                        end)
    end.
Proof.
  intros Hrun Hin.
  destruct (sends_of_a_run _ _ _ _ _ _ _ Hrun Hin) as (fr & Hfr & Hin' & Hit & Hsend & Hcr).
  specialize (Hsend f r Hin'). destruct (req_method r) eqn:Hm.
  - destruct Hsend as (c & Hc & ->). destruct (Hcr c Hc) as [Hcall _].
    apply list_elem_of_filter in Hcall as [_ Hcall].
    split_and!; try done. by exists c.
  - destruct Hsend as (listener & Hc).
    apply creator_request in Hc as (data & ->). done.
Qed.

End RequestsOfARun.

(** ** Timers and polls *)

Section TimersAndPolls.

Variable format_d : Port → string.
Variable js_encodeURIComponent : string → string.
Variable createReadStream_throws : string → option string.

Local Abbreviation step := (step format_d js_encodeURIComponent createReadStream_throws).
Local Abbreviation run := (run format_d js_encodeURIComponent createReadStream_throws).
Local Abbreviation user_call := (user_call format_d createReadStream_throws).

(** An invocation polls only when a timer of its own has fired, and sets
    the next timer only when the poll was answered: in every state its
    polls are as many as its timers, or one less while the last timer has
    not fired.  No timer is set for less than the initial 2000 ms. *)
Theorem polls_follow_timers (api : Api) (o : Options) (item : Item)
    (evs : list Event) (st : State) (f : nat) :
  run evs (user_call api o item) = Some st →
  (polls (actions_of f (st_log st)) ≤ length (timeouts (actions_of f (st_log st))))%nat
  ∧ (length (timeouts (actions_of f (st_log st))) ≤ S (polls (actions_of f (st_log st))))%nat
  ∧ ∀ d, SetTimeout f d ∈ st_log st → DEFAULT_POLLING_INITIAL_TIMEOUT ≤ d.
Proof.
  intros Hrun. pose proof (reachable_inv _ _ _ _ _ _ _ _ Hrun) as Hinv.
  destruct (st_frames st !! f) as [fr|] eqn:Hf.
  - pose proof (inv_frames _ _ Hinv _ _ Hf) as Hl.
    destruct (inv_backoff _ _ Hl) as (k & Hk1 & Hk2 & _).
    pose proof (inv_one_poller _ _ Hl) as Hone.
    rewrite Hk1, length_map, length_seq. split_and!; [lia | lia |].
    intros d Hd.
    assert (Hin : d ∈ timeouts (actions_of f (st_log st))).
    { apply list_elem_of_omap. exists (SetTimeout f d).
      split; [by apply list_elem_of_filter | done]. }
    rewrite Hk1 in Hin. apply list_elem_of_fmap in Hin as (i & -> & _).
    apply backoff_lower_bound.
  - apply lookup_ge_None in Hf. rewrite (actions_of_beyond o) by done.
    split_and!; [done | simpl; lia |]. intros d Hd.
    pose proof (inv_tags _ _ Hinv _ Hd) as Hlt. simpl in Hlt. lia.
Qed.


End TimersAndPolls.

(** ** Creation that fails before the request *)

Section BeforeTheRequest.

Variable format_d : Port → string.
Variable js_encodeURIComponent : string → string.
Variable createReadStream_throws : string → option string.

Local Abbreviation step := (step format_d js_encodeURIComponent createReadStream_throws).
Local Abbreviation run := (run format_d js_encodeURIComponent createReadStream_throws).
Local Abbreviation user_call := (user_call format_d createReadStream_throws).

(** When the item is a path (a string that does not start with [http]) and
    [fs.createReadStream] throws for it, the error callback runs once with
    the open error wrapping what was thrown; nothing is requested, and
    nothing is left in flight: no reply, timer or stream error can follow. *)
Theorem unopenable_path_is_reported (api : Api) (o : Options) (path cause : string) :
  is_http_link (ItemString path) = false →
  createReadStream_throws path = Some cause →
  let e := mkError None (Some STREAM_OPEN_MESSAGE) (Some cause) in
  let st := user_call api o (ItemString path) in
  st_log st = [Call 0 SError (AError e); Invoke 0 SError (user_fn o SError) (AError e)]
  ∧ is_link_unreachable e = false
  ∧ ∀ ev, step ev st = None.
Proof.
  intros Hlink Hthrows e st. subst st. unfold user_call, process, creator, createFile.
  rewrite Hlink, Hthrows. split_and!.
  - simpl. by destruct o as [? [] ? ? ?].
  - done.
  - intros [[|f] res|[|f] c|[|f]|[|f] res]; done.
Qed.

(** A [Buffer] has no [on] method: [createFile] throws when it attaches its
    error listener, after [process] has defaulted the options and before
    anything is requested.  No callback runs and nothing can follow. *)
Theorem buffer_is_rejected (api : Api) (o : Options) (b : string) :
  let st := user_call api o (ItemBuffer b) in
  st_log st = [Throw 0]
  ∧ st_options st = default_options o
  ∧ ∀ ev, step ev st = None.
Proof.
  split_and!; [done | done |].
  intros [[|f] res|[|f] c|[|f]|[|f] res]; done.
Qed.

(** [process] writes its defaults into the options object of the caller:
    from the call on, all five callbacks are set, so the object counts as
    having polling callbacks; the callbacks and sizes the caller gave are
    kept. *)
Theorem options_are_defaulted_in_place (api : Api) (o : Options) (item : Item)
    (evs : list Event) (st : State) :
  run evs (user_call api o item) = Some st →
  st_options st = default_options o
  ∧ (∀ s, user_fn (st_options st) s = user_fn o s)
  ∧ processor_sizes (o_thumbnails (st_options st)) = processor_sizes (o_thumbnails o)
  ∧ processor_sizes (o_images (st_options st)) = processor_sizes (o_images o)
  ∧ is_Some (o_start (st_options st)) ∧ is_Some (o_error (st_options st))
  ∧ is_Some (o_complete (st_options st))
  ∧ is_Some (images_complete (st_options st))
  ∧ is_Some (thumbnails_complete (st_options st))
  ∧ hasPollingCallbacks (st_options st) = true.
Proof.
  intros Hrun. pose proof (reachable_inv _ _ _ _ _ _ _ _ Hrun) as Hinv.
  rewrite (inv_options _ _ Hinv).
  destruct o as [a b c [[? ?]|] [[? ?]|]]; split_and!; try done;
    try (intros []; simpl; by repeat case_match); simpl; eauto.
Qed.

End BeforeTheRequest.

(** ** Polling has no limit *)

Section NoLimit.

Variable format_d : Port → string.
Variable js_encodeURIComponent : string → string.
Variable createReadStream_throws : string → option string.

Local Abbreviation creator := (creator format_d createReadStream_throws).
Local Abbreviation step := (step format_d js_encodeURIComponent createReadStream_throws).
Local Abbreviation run := (run format_d js_encodeURIComponent createReadStream_throws).
Local Abbreviation user_call := (user_call format_d createReadStream_throws).






End NoLimit.

(** ** The response of the server *)


Section ResponseProofs.

Variable JSON_parse : string → option Json.

Local Abbreviation respond := (respond JSON_parse).

(** A transport error is reported with the code 500 whatever else came
    back.  Without one, a status of 400 or more is always an error whose
    code is the status, whatever the body says, and the message is the body
    itself when that is not a JSON object or array; a status below 400 is
    never an error, whatever the body says: the body is handed over parsed
    when it is JSON and as it is otherwise. *)
Theorem responses_are_classified_by_status (err : option string) (statusCode : Z)
    (body : string) :
  match respond err statusCode body with
  | inl e =>
      match err with
      | Some cause =>
          e = mkError (Some 500) (Some TRANSPORT_MESSAGE) (Some cause)
      | None =>
          400 ≤ statusCode ∧ code e = Some statusCode
          ∧ ((∀ j, JSON_parse body = Some j → assignable j = false) →
             message e = Some body)
      end
  | inr p =>
      err = None ∧ statusCode < 400
      ∧ p = match JSON_parse body with
            | Some j => Parsed j
            | None => Raw body
            end
  end.
Proof.
  unfold respond, error_of_body. destruct err as [cause|]; [done|].
  destruct (Z.leb_spec 400 statusCode) as [H|H]; [|done].
  destruct (JSON_parse body) as [j|] eqn:E; [|done].
  destruct (assignable j) eqn:Ea; [|done].
  split_and!; [done | done |]. intros Hj. specialize (Hj j eq_refl). congruence.
Qed.

(** Which responses to the creation request lead to the retry: those
    without a transport error whose status is exactly 400 and whose message
    is exactly the link-unreachable one, be it the [message] of a JSON
    body or a body that is that very text. *)
Theorem responses_that_are_retried (err : option string) (statusCode : Z)
    (body : string) :
  (∃ e, respond err statusCode body = inl e ∧ is_link_unreachable e = true)
  ↔ err = None ∧ statusCode = 400
    ∧ match JSON_parse body with
      | Some j =>
          if assignable j then string_field j "message" = Some LINK_UNREACHABLE
          else body = LINK_UNREACHABLE
      | None => body = LINK_UNREACHABLE
      end.
Proof.
  unfold respond, error_of_body, is_link_unreachable. split.
  - intros (e & He & Hu). destruct err as [cause|]; [by simplify_eq|].
    destruct (Z.leb_spec 400 statusCode) as [H|H]; [|done]. simplify_eq.
    apply andb_true_iff in Hu as [Hc Hm].
    apply bool_decide_eq_true_1 in Hc. apply bool_decide_eq_true_1 in Hm.
    destruct (JSON_parse body) as [j|]; [destruct (assignable j)|];
      simpl in *; simplify_eq; done.
  - intros (-> & -> & H). eexists. split; [done|].
    destruct (JSON_parse body) as [j|]; [destruct (assignable j)|]; simpl;
      rewrite H; done.
Qed.

End ResponseProofs.

Lemma b64_table :
  forallb (λ n, match b64_value (b64_char n) with
                | Some m => (m =? n)%N
                | None => false
                end && negb (Ascii.eqb (b64_char n) "="))
    (map N.of_nat (seq 0 64)) = true.
Proof. vm_compute. reflexivity. Qed.

Lemma b64_value_char (n : N) :
  (n < 64)%N →
  b64_value (b64_char n) = Some n ∧ Ascii.eqb (b64_char n) "=" = false.
Proof.
  intros H. pose proof b64_table as T. rewrite forallb_forall in T.
  assert (Hin : In n (map N.of_nat (seq 0 64))).
  { apply in_map_iff. exists (N.to_nat n). split; [lia|]. apply in_seq. lia. }
  apply T in Hin. apply andb_true_iff in Hin as [T1 T2].
  split; [|by apply negb_true_iff].
  destruct (b64_value (b64_char n)) as [m|]; [|done].
  by apply N.eqb_eq in T1 as ->.
Qed.

Lemma N_of_ascii_bound (a : ascii) : (N_of_ascii a < 256)%N.
Proof. destruct a as [[] [] [] [] [] [] [] []]; vm_compute; done. Qed.

Lemma split_digits (b u w : N) :
  (w < b → (u * b + w) / b = u ∧ (u * b + w) mod b = w)%N.
Proof.
  intros H. assert (b ≠ 0)%N by lia. split.
  - rewrite N.div_add_l by done. rewrite N.div_small by done. lia.
  - rewrite N.add_comm, N.Div0.mod_add. by apply N.mod_small.
Qed.

Lemma base64_group (x y z : N) :
  (x < 256 → y < 256 → z < 256 →
   x / 4 < 64 ∧ (x mod 4) * 16 + y / 16 < 64 ∧ (y mod 16) * 4 + z / 64 < 64
   ∧ z mod 64 < 64 ∧ (x mod 4) * 16 < 64 ∧ (y mod 16) * 4 < 64
   ∧ x / 4 * 4 + ((x mod 4) * 16 + y / 16) / 16 = x
   ∧ (((x mod 4) * 16 + y / 16) mod 16) * 16 + ((y mod 16) * 4 + z / 64) / 4 = y
   ∧ (((y mod 16) * 4 + z / 64) mod 4) * 64 + z mod 64 = z
   ∧ x / 4 * 4 + ((x mod 4) * 16) / 16 = x
   ∧ (((x mod 4) * 16 + y / 16) mod 16) * 16 + ((y mod 16) * 4) / 4 = y)%N.
Proof.
  intros Hx Hy Hz.
  pose proof (N.div_mod x 4 ltac:(done)) as X.
  pose proof (N.div_mod y 16 ltac:(done)) as Y.
  pose proof (N.div_mod z 64 ltac:(done)) as Z.
  pose proof (N.mod_upper_bound x 4 ltac:(done)) as X'.
  pose proof (N.mod_upper_bound y 16 ltac:(done)) as Y'.
  pose proof (N.mod_upper_bound z 64 ltac:(done)) as Z'.
  assert (y / 16 < 16)%N as Y'' by (apply N.Div0.div_lt_upper_bound; lia).
  assert (z / 64 < 4)%N as Z'' by (apply N.Div0.div_lt_upper_bound; lia).
  assert (x / 4 < 64)%N as X'' by (apply N.Div0.div_lt_upper_bound; lia).
  destruct (split_digits 16 (x mod 4) (y / 16) Y'') as [-> ->].
  destruct (split_digits 4 (y mod 16) (z / 64) Z'') as [-> ->].
  rewrite !N.div_mul by done.
  generalize dependent (x / 4)%N. generalize dependent (x mod 4)%N.
  generalize dependent (y / 16)%N. generalize dependent (y mod 16)%N.
  generalize dependent (z / 64)%N. generalize dependent (z mod 64)%N.
  intros. lia.
Qed.

Lemma base64_decode_base64 (s : string) : base64_decode (base64 s) = Some s.
Proof.
  revert s. fix IH 1. intros [|a [|b [|c rest]]].
  - done.
  - pose proof (N_of_ascii_bound a) as Ha.
    destruct (base64_group (N_of_ascii a) 0 0 Ha) as (H1&_&_&_&H5&_&_&_&_&H10&_);
      [done | done |].
    cbn [base64 base64_decode].
    destruct (b64_value_char _ H1) as [-> _].
    destruct (b64_value_char _ H5) as [-> _]. simpl.
    by rewrite H10, ascii_N_embedding.
  - pose proof (N_of_ascii_bound a) as Ha. pose proof (N_of_ascii_bound b) as Hb.
    destruct (base64_group (N_of_ascii a) (N_of_ascii b) 0 Ha Hb)
      as (H1&H2&_&_&_&H6&H7&_&_&_&H11); [done|].
    cbn [base64 base64_decode].
    destruct (b64_value_char _ H1) as [-> _].
    destruct (b64_value_char _ H2) as [-> _].
    destruct (b64_value_char _ H6) as [E3 E3']. cbn [mbind option_bind].
    rewrite E3'. rewrite E3. simpl.
    by rewrite H7, H11, !ascii_N_embedding.
  - pose proof (N_of_ascii_bound a) as Ha. pose proof (N_of_ascii_bound b) as Hb.
    pose proof (N_of_ascii_bound c) as Hc.
    destruct (base64_group (N_of_ascii a) (N_of_ascii b) (N_of_ascii c) Ha Hb Hc)
      as (H1&H2&H3&H4&_&_&H7&H8&H9&_).
    cbn [base64 base64_decode].
    destruct (b64_value_char _ H1) as [-> _].
    destruct (b64_value_char _ H2) as [-> _].
    destruct (b64_value_char _ H3) as [E3 E3'].
    destruct (b64_value_char _ H4) as [E4 E4']. cbn [mbind option_bind].
    rewrite E3', E3. cbn [mbind option_bind]. rewrite E4', E4.
    cbn [mbind option_bind]. rewrite IH. cbn [mbind option_bind].
    by rewrite H7, H8, H9, !ascii_N_embedding.
Qed.

(** ** The credentials *)

Lemma string_snoc_inj (s1 s2 : string) (c : ascii) :
  s1 +:+ String c "" = s2 +:+ String c "" → s1 = s2.
Proof.
  revert s2. induction s1 as [|a s1 IH]; intros [|b s2]; simpl; try done.
  - intros [= _ H]. by destruct s2.
  - intros [= _ H]. by destruct s1.
  - intros [= -> H]. f_equal. by apply IH.
Qed.

(** The key can be read back from the [Authorization] value that
    [setApiKey] stores: what follows [Basic ] decodes to the key and a
    colon.  So two clients have the same credentials only when they were
    given the same key. *)
Theorem api_key_can_be_read_back (k1 k2 : string) (a1 a2 : Api) :
  k1 ≠ "" → k2 ≠ "" →
  (∃ h, auth (setApiKey (Some k1) a1) = Some ("Basic " +:+ h)
        ∧ base64_decode h = Some (k1 +:+ ":"))
  ∧ (auth (setApiKey (Some k1) a1) = auth (setApiKey (Some k2) a2) → k1 = k2).
Proof.
  intros H1 H2. unfold setApiKey.
  destruct (String.eqb_spec k1 ""); [done|]. destruct (String.eqb_spec k2 ""); [done|].
  simpl. split.
  - eexists. split; [done|]. apply base64_decode_base64.
  - intros [= H]. change ("" +:+ ?x)%string with x in H.
    apply (f_equal base64_decode) in H.
    rewrite !base64_decode_base64 in H. simplify_eq. by eapply string_snoc_inj.
Qed.

(** ** Lower case *)

Lemma lower_ascii_spec (c : ascii) :
  is_upper (lower_ascii c) = false ∧ (is_upper c = false → lower_ascii c = c).
Proof. destruct c as [[] [] [] [] [] [] [] []]; vm_compute; done. Qed.

Lemma toLowerCase_spec (s : string) :
  has_upper (toLowerCase s) = false ∧ (has_upper s = false → toLowerCase s = s).
Proof.
  induction s as [|c s [IH1 IH2]]; [done|]. simpl.
  destruct (lower_ascii_spec c) as [H1 H2]. rewrite H1, IH1. split; [done|].
  intros [Hc Hs]%orb_false_iff. by rewrite H2, IH2.
Qed.

(** For a protocol and a base path that are ASCII text: no upper-case
    letter is ever stored, whichever setter stores it; what is stored has
    the length of the argument, and an argument without upper-case letters
    is stored as it is. *)
Theorem protocol_and_base_path_are_lower_case (a : Api) (p b h : string)
    (pt : option Port) :
  is_ascii_text p = true → is_ascii_text b = true →
  has_upper (protocol (setProtocol p a)) = false
  ∧ has_upper (basePath (setBasePath b a)) = false
  ∧ (p ≠ "" → has_upper (protocol (setHost h pt (Some p) a)) = false)
  ∧ String.length (protocol (setProtocol p a)) = String.length p
  ∧ String.length (basePath (setBasePath b a)) = String.length b
  ∧ (has_upper p = false → protocol (setProtocol p a) = p)
  ∧ (has_upper b = false → basePath (setBasePath b a) = b).
Proof.
  intros _ _.
  destruct (toLowerCase_spec p) as [P1 P2], (toLowerCase_spec b) as [B1 B2].
  split_and!; try done.
  - intros Hp. unfold setHost. destruct (String.eqb_spec p ""); [done|]. simpl.
    by destruct pt as [pt'|]; [destruct (port_truthy pt')|].
  - apply toLowerCase_length.
  - apply toLowerCase_length.
Qed.

(** [setHost] ignores a port and a protocol that are falsy: the port [0],
    the empty string.  [setPort] stores them.  [setApiKey] ignores a key
    that is missing or empty, so that a key that was set cannot be
    cleared. *)
Theorem falsy_arguments_are_ignored (a : Api) (h : string) (p : Port)
    (pt : option Port) (proto : option string) :
  (port_truthy p = false → port (setHost h (Some p) proto a) = port a)
  ∧ protocol (setHost h pt (Some "") a) = protocol a
  ∧ port (setPort p a) = p
  ∧ setApiKey None a = a
  ∧ setApiKey (Some "") a = a
  ∧ host (setHost h pt proto a) = h
  ∧ basePath (setHost h pt proto a) = basePath a
  ∧ auth (setHost h pt proto a) = auth a
  ∧ strictSSL (setHost h pt proto a) = strictSSL a.
Proof.
  unfold setHost. split_and!; try done.
  - intros ->. by destruct proto as [s|]; [destruct (negb (String.eqb s ""))|].
  - by destruct pt as [pt'|]; [destruct (port_truthy pt')|].
  - destruct pt as [pt'|]; [destruct (port_truthy pt')|];
      by destruct proto as [s|]; [destruct (negb (String.eqb s ""))|].
  - destruct pt as [pt'|]; [destruct (port_truthy pt')|];
      by destruct proto as [s|]; [destruct (negb (String.eqb s ""))|].
  - destruct pt as [pt'|]; [destruct (port_truthy pt')|];
      by destruct proto as [s|]; [destruct (negb (String.eqb s ""))|].
  - destruct pt as [pt'|]; [destruct (port_truthy pt')|];
      by destruct proto as [s|]; [destruct (negb (String.eqb s ""))|].
Qed.

(** ** The earlier resources API and the current one *)

(** The earlier version joins the sizes before it tests them, so it never
    sends an empty [thumbnailSizes]: not for an empty list, not for a list
    of empty strings.  The current version tests the list itself, which is
    always truthy; the two agree on every other value of the option as long
    as no [imagePreviewSizes] are given. *)
Theorem earlier_version_omits_empty_sizes (link : string) (file : Stream)
    (options : gmap string Value) :
  Processr.link_data link options !! "thumbnailSizes" ≠ Some (VString "")
  ∧ Processr.file_data file options !! "thumbnailSizes" ≠ Some (VString "")
  ∧ (truthy (prop options "imagePreviewSizes") = false →
     (∀ xs, prop options "thumbnailSizes" = VArray xs → join "," xs ≠ "") →
     link_data link options = Processr.link_data link options
     ∧ file_data file options = Processr.file_data file options)
  ∧ (∀ xs, prop options "thumbnailSizes" = VArray xs → join "," xs = "" →
     link_data link options !! "thumbnailSizes" = Some (VString "")
     ∧ Processr.link_data link options !! "thumbnailSizes" = None).
Proof.
  unfold Processr.link_data, Processr.file_data, Processr.getThumbnailSizes,
    link_data, file_data.
  split_and!.
  - destruct (prop options "thumbnailSizes") as [| |s|xs|st|b]; simpl; try done.
    + destruct (String.eqb_spec s ""); simpl; [done|].
      rewrite lookup_insert_eq. congruence.
    + destruct (String.eqb_spec (join "," xs) ""); simpl; [done|].
      rewrite lookup_insert_eq. congruence.
  - destruct (prop options "thumbnailSizes") as [| |s|xs|st|b]; simpl; try done.
    + destruct (String.eqb_spec s ""); simpl; [done|].
      rewrite lookup_insert_eq. congruence.
    + destruct (String.eqb_spec (join "," xs) ""); simpl; [done|].
      rewrite lookup_insert_eq. congruence.
  - intros Hi Hj. rewrite !(addSizes_absent _ _ "imagePreviewSizes") by done.
    unfold addSizes.
    destruct (prop options "thumbnailSizes") as [| |s|xs|st|b]; simpl; try done.
    + by destruct (String.eqb s "").
    + specialize (Hj xs eq_refl). by destruct (String.eqb_spec (join "," xs) "").
  - intros xs Hxs Hj. rewrite addSizes_other by done. unfold addSizes.
    rewrite Hxs. simpl. rewrite Hj. simpl. by rewrite lookup_insert_eq.
Qed.

(** ** The further properties at concrete runs *)

Local Abbreviation run_example o item evs :=
  (run decimal_port unreserved always_opens evs
     (user_call decimal_port always_opens example_api o item)).

Lemma start_comes_first_witness :
  run_example all_callbacks example_link two_polls = Some polled_twice
  ∧ actions_of 0 (st_log polled_twice)
    = take 3 (actions_of 0 (st_log polled_twice))
      ++ SetTimeout 0 2000 :: drop 4 (actions_of 0 (st_log polled_twice))
  ∧ after_start (SetTimeout 0 2000) = true
  ∧ triggers SStart (take 3 (actions_of 0 (st_log polled_twice))) = 1%nat.
Proof.
  assert (H1 : run_example all_callbacks example_link two_polls = Some polled_twice)
    by (vm_compute; reflexivity).
  assert (H2 : actions_of 0 (st_log polled_twice)
               = take 3 (actions_of 0 (st_log polled_twice))
                 ++ SetTimeout 0 2000 :: drop 4 (actions_of 0 (st_log polled_twice)))
    by (vm_compute; reflexivity).
  assert (H3 : after_start (SetTimeout 0 2000) = true) by reflexivity.
  split_and!; [exact H1 | exact H2 | exact H3 |].
  apply (start_comes_first decimal_port unreserved always_opens example_api
           all_callbacks example_link two_polls polled_twice 0 _ _ _ H1 H2 H3).
Defined.

Lemma complete_comes_last_witness :
  run_example all_callbacks example_link two_polls = Some polled_twice
  ∧ actions_of 0 (st_log polled_twice)
    = take 11 (actions_of 0 (st_log polled_twice))
      ++ Call 0 SComplete (AResource resource_complete)
         :: drop 12 (actions_of 0 (st_log polled_twice))
  ∧ triggers SComplete (take 11 (actions_of 0 (st_log polled_twice))) = 0%nat
  ∧ Forall (λ a, after_complete a = true) (drop 12 (actions_of 0 (st_log polled_twice)))
  ∧ ∀ fr, st_frames polled_twice !! 0%nat = Some fr → quiet fr.
Proof.
  assert (H1 : run_example all_callbacks example_link two_polls = Some polled_twice)
    by (vm_compute; reflexivity).
  assert (H2 : actions_of 0 (st_log polled_twice)
               = take 11 (actions_of 0 (st_log polled_twice))
                 ++ Call 0 SComplete (AResource resource_complete)
                    :: drop 12 (actions_of 0 (st_log polled_twice)))
    by (vm_compute; reflexivity).
  split; [exact H1 |]. split; [exact H2 |].
  apply (complete_comes_last decimal_port unreserved always_opens example_api
           all_callbacks example_link two_polls polled_twice 0 0 _ _ _ H1 H2).
Defined.

Lemma creation_requests_and_retries_witness :
  run_example all_callbacks example_link retry_then_poll = Some retried_once
  ∧ (∀ f, (posts (actions_of f (st_log retried_once)) ≤ 1)%nat
          ∧ (triggers SStart (actions_of f (st_log retried_once)) ≤ 1)%nat
          ∧ (fetches (actions_of f (st_log retried_once)) ≤ 1)%nat
          ∧ (triggers SStart (actions_of f (st_log retried_once))
             + fetches (actions_of f (st_log retried_once))
             ≤ posts (actions_of f (st_log retried_once)))%nat)
  ∧ length (st_frames retried_once) = S (fetches (st_log retried_once))
  ∧ (posts (st_log retried_once) ≤ S (fetches (st_log retried_once)))%nat.
Proof.
  assert (H1 : run_example all_callbacks example_link retry_then_poll = Some retried_once)
    by (vm_compute; reflexivity).
  split; [exact H1 |].
  apply (creation_requests_and_retries decimal_port unreserved always_opens example_api
           all_callbacks example_link retry_then_poll retried_once H1).
Defined.


Lemma requests_of_a_run_witness :
  run_example all_callbacks example_link two_polls = Some polled_twice
  ∧ Send 0 example_get ∈ st_log polled_twice
  ∧ ∃ c, Call 0 SStart (AResource c) ∈ st_log polled_twice
         ∧ res_status c = "pending"
         ∧ example_get = get decimal_port unreserved example_api (res_id c).
Proof.
  assert (H1 : run_example all_callbacks example_link two_polls = Some polled_twice)
    by (vm_compute; reflexivity).
  assert (H2 : Send 0 example_get ∈ st_log polled_twice).
  { apply (list_elem_of_lookup_2 _ 4). vm_compute; reflexivity. }
  split_and!; [exact H1 | exact H2 |].
  apply (requests_of_a_run decimal_port unreserved always_opens example_api
           all_callbacks example_link two_polls polled_twice 0 example_get H1 H2).
Defined.

Lemma requests_carry_the_configuration_witness :
  run_example all_callbacks example_link two_polls = Some polled_twice
  ∧ Send 0 example_post ∈ st_log polled_twice
  ∧ req_authorization example_post = auth example_api
  ∧ req_strictSSL example_post = strictSSL example_api
  ∧ req_url example_post = request_url decimal_port example_api "/resources".
Proof.
  assert (H1 : run_example all_callbacks example_link two_polls = Some polled_twice)
    by (vm_compute; reflexivity).
  assert (H2 : Send 0 example_post ∈ st_log polled_twice).
  { apply (list_elem_of_lookup_2 _ 0). vm_compute; reflexivity. }
  split; [exact H1 |]. split; [exact H2 |].
  apply (requests_carry_the_configuration decimal_port unreserved always_opens
           example_api all_callbacks example_link two_polls polled_twice 0
           example_post H1 H2).
Defined.

Lemma polls_follow_timers_witness :
  run_example all_callbacks example_link two_polls = Some polled_twice
  ∧ (polls (actions_of 0 (st_log polled_twice))
     ≤ length (timeouts (actions_of 0 (st_log polled_twice))))%nat
  ∧ (length (timeouts (actions_of 0 (st_log polled_twice)))
     ≤ S (polls (actions_of 0 (st_log polled_twice))))%nat
  ∧ ∀ d, SetTimeout 0 d ∈ st_log polled_twice → DEFAULT_POLLING_INITIAL_TIMEOUT ≤ d.
Proof.
  assert (H1 : run_example all_callbacks example_link two_polls = Some polled_twice)
    by (vm_compute; reflexivity).
  split; [exact H1 |].
  apply (polls_follow_timers decimal_port unreserved always_opens example_api
           all_callbacks example_link two_polls polled_twice 0 H1).
Defined.


Lemma unopenable_path_is_reported_witness :
  is_http_link (ItemString "report.pdf") = false
  ∧ never_opens "report.pdf" = Some "ENOENT"
  ∧ st_log (user_call decimal_port never_opens example_api all_callbacks
              (ItemString "report.pdf"))
    = [Call 0 SError (AError (mkError None (Some STREAM_OPEN_MESSAGE) (Some "ENOENT")));
       Invoke 0 SError (user_fn all_callbacks SError)
         (AError (mkError None (Some STREAM_OPEN_MESSAGE) (Some "ENOENT")))]
  ∧ is_link_unreachable (mkError None (Some STREAM_OPEN_MESSAGE) (Some "ENOENT")) = false
  ∧ ∀ ev, step decimal_port unreserved never_opens ev
            (user_call decimal_port never_opens example_api all_callbacks
               (ItemString "report.pdf")) = None.
Proof.
  assert (H1 : is_http_link (ItemString "report.pdf") = false) by reflexivity.
  assert (H2 : never_opens "report.pdf" = Some "ENOENT") by reflexivity.
  split; [exact H1 |]. split; [exact H2 |].
  apply (unopenable_path_is_reported decimal_port unreserved never_opens example_api
           all_callbacks "report.pdf" "ENOENT" H1 H2).
Defined.

Lemma options_are_defaulted_in_place_witness :
  run_example only_start example_link [CreateReply 0 (inr resource_pending)]
  = Some (final_state only_start example_link [CreateReply 0 (inr resource_pending)])
  ∧ st_options (final_state only_start example_link
                  [CreateReply 0 (inr resource_pending)])
    = default_options only_start
  ∧ hasPollingCallbacks
      (st_options (final_state only_start example_link
                     [CreateReply 0 (inr resource_pending)])) = true.
Proof.
  assert (H1 : run_example only_start example_link [CreateReply 0 (inr resource_pending)]
               = Some (final_state only_start example_link
                         [CreateReply 0 (inr resource_pending)]))
    by (vm_compute; reflexivity).
  split_and!; [exact H1 | ..];
    apply (options_are_defaulted_in_place decimal_port unreserved always_opens example_api
             only_start example_link _ _ H1).
Defined.


Lemma request_fields_are_sanitised_witness :
  body_field (req_body (_request decimal_port example_api POST "/resources"
                          (Some example_data))) "thumbnailSizes"
  = Some (VArray ["64x64"])
  ∧ VArray ["64x64"] ≠ VNull ∧ VArray ["64x64"] ≠ VUndefined
  ∧ (∀ xs, VArray ["64x64"] = VArray xs → xs ≠ [] ∧ "" ∉ xs)
  ∧ ∃ v0, default ∅ (Some example_data) !! "thumbnailSizes" = Some v0
          ∧ ((∀ xs, v0 ≠ VArray xs) → VArray ["64x64"] = v0)
          ∧ (∀ xs, v0 = VArray xs →
             VArray ["64x64"] = VArray (filter (λ s, s ≠ "") xs)).
Proof.
  assert (H1 : body_field (req_body (_request decimal_port example_api POST "/resources"
                                       (Some example_data))) "thumbnailSizes"
               = Some (VArray ["64x64"])) by (vm_compute; reflexivity).
  split; [exact H1 |].
  apply (request_fields_are_sanitised decimal_port example_api POST "/resources"
           (Some example_data) "thumbnailSizes" (VArray ["64x64"]) H1).
Defined.

Lemma links_are_form_encoded_witness :
  is_http_link example_link = true
  ∧ is_binary (prop (createOptions (default_options all_callbacks)) "thumbnailSizes")
    = false
  ∧ is_binary (prop (createOptions (default_options all_callbacks)) "imagePreviewSizes")
    = false
  ∧ ∃ r d, creator decimal_port always_opens example_api example_link
             (createOptions (default_options all_callbacks)) = Submitted false r
           ∧ req_method r = POST
           ∧ req_url r = request_url decimal_port example_api "/resources"
           ∧ req_body r = Form d
           ∧ d !! "link" = Some (VString "http://10.0.0.5/report.pdf")
           ∧ d !! "file" = None.
Proof.
  assert (H1 : is_http_link example_link = true) by reflexivity.
  assert (H2 : is_binary (prop (createOptions (default_options all_callbacks))
                            "thumbnailSizes") = false) by (vm_compute; reflexivity).
  assert (H3 : is_binary (prop (createOptions (default_options all_callbacks))
                            "imagePreviewSizes") = false) by (vm_compute; reflexivity).
  split_and!; [exact H1 | exact H2 | exact H3 |].
  apply (links_are_form_encoded decimal_port always_opens example_api
           "http://10.0.0.5/report.pdf" _ H1 H2 H3).
Defined.

Lemma files_are_uploaded_multipart_witness :
  is_http_link (ItemString "report.pdf") = false
  ∧ (always_opens "report.pdf" = None ∧ ReadStream "report.pdf" = ReadStream "report.pdf")
  ∧ ∃ r parts, creator decimal_port always_opens example_api (ItemString "report.pdf")
                 (createOptions (default_options all_callbacks)) = Submitted true r
               ∧ req_method r = POST
               ∧ req_url r = request_url decimal_port example_api "/resources"
               ∧ req_body r = Multipart parts
               ∧ parts !! "file" = Some (VStream (ReadStream "report.pdf"))
               ∧ parts !! "link" = None
               ∧ ∀ k, parts !! k ≠ Some (VString "").
Proof.
  assert (H1 : is_http_link (ItemString "report.pdf") = false) by reflexivity.
  assert (H2 : always_opens "report.pdf" = None
               ∧ ReadStream "report.pdf" = ReadStream "report.pdf")
    by (split; reflexivity).
  split_and!; [exact H1 | apply H2 | apply H2 |].
  apply (files_are_uploaded_multipart decimal_port always_opens example_api
           (ItemString "report.pdf") (ReadStream "report.pdf") _ H1 H2).
Defined.

Lemma thumbnail_sizes_are_sent_witness :
  creator decimal_port always_opens example_api example_link
    (createOptions (default_options all_callbacks)) = Submitted false example_post
  ∧ (join "," ["64x64"; "256x256"] ≠ "" →
     body_field (req_body example_post) "thumbnailSizes"
     = Some (VString (join "," ["64x64"; "256x256"]))).
Proof.
  assert (H1 : creator decimal_port always_opens example_api example_link
                 (createOptions (default_options all_callbacks))
               = Submitted false example_post) by reflexivity.
  split; [exact H1 |].
  apply (thumbnail_sizes_are_sent decimal_port always_opens example_api all_callbacks
           example_link false example_post H1).
Defined.

Lemma api_key_can_be_read_back_witness :
  "KEY" ≠ "" ∧ "key" ≠ ""
  ∧ (∃ h, auth (setApiKey (Some "KEY") example_api) = Some ("Basic " +:+ h)
          ∧ base64_decode h = Some ("KEY" +:+ ":"))
  ∧ (auth (setApiKey (Some "KEY") example_api) = auth (setApiKey (Some "key") example_api)
     → "KEY" = "key").
Proof.
  assert (H1 : "KEY" ≠ "") by discriminate.
  assert (H2 : "key" ≠ "") by discriminate.
  split; [exact H1 |]. split; [exact H2 |].
  apply (api_key_can_be_read_back "KEY" "key" example_api example_api H1 H2).
Defined.

Lemma protocol_and_base_path_are_lower_case_witness :
  is_ascii_text "HTTPS" = true ∧ is_ascii_text "/API" = true
  ∧ has_upper (protocol (setProtocol "HTTPS" example_api)) = false
  ∧ has_upper (basePath (setBasePath "/API" example_api)) = false
  ∧ ("HTTPS" ≠ "" →
     has_upper (protocol (setHost "embdr.io" None (Some "HTTPS") example_api)) = false)
  ∧ String.length (protocol (setProtocol "HTTPS" example_api)) = String.length "HTTPS"
  ∧ String.length (basePath (setBasePath "/API" example_api)) = String.length "/API"
  ∧ (has_upper "HTTPS" = false → protocol (setProtocol "HTTPS" example_api) = "HTTPS")
  ∧ (has_upper "/API" = false → basePath (setBasePath "/API" example_api) = "/API").
Proof.
  assert (H1 : is_ascii_text "HTTPS" = true) by reflexivity.
  assert (H2 : is_ascii_text "/API" = true) by reflexivity.
  split; [exact H1 |]. split; [exact H2 |].
  apply (protocol_and_base_path_are_lower_case example_api "HTTPS" "/API" "embdr.io"
           None H1 H2).
Defined.
